(** * Kiro / WhatsApp bridge: command pipeline and notification machinery

    A shallow embedding of the command parser and validator, the workspace
    RPC client's result cache, the event throttle, the notification
    dispatcher, the outbound message chunker and the circuit breaker,
    together with the properties the specification states about them.

    JavaScript strings are sequences of UTF-16 code units; they are modelled
    as [list Z], one [Z] per code unit.  Maps ([Map], the Redis key space)
    are stdpp [gmap]s. *)

From Stdlib Require Import ZArith List String Ascii Bool Lia DecimalString.
From stdpp Require Import base option list gmap.
Import ListNotations.

Local Open Scope Z_scope.

(* ===================================================================== *)
(** * JavaScript strings                                                  *)
(* ===================================================================== *)

Module JS.

(** A string is the list of its UTF-16 code units. *)
Abbreviation str := (list Z).

(** An ASCII literal, one code unit per character. *)
Definition lit (s : string) : str :=
  List.map (fun a => Z.of_N (N_of_ascii a)) (list_ascii_of_string s).

(** [s.length] *)
Definition len (s : str) : Z := Z.of_nat (length s).

(** [!s] for a string: only the empty string is falsy. *)
Definition falsy (s : str) : bool :=
  match s with [] => true | _ => false end.

(** WhiteSpace and LineTerminator code units: what [trim] strips and what
    the regular-expression class [\s] matches. *)
Definition isSpace (c : Z) : bool :=
  ((9 <=? c) && (c <=? 13)) || (c =? 32) || (c =? 160) || (c =? 5760)
  || ((8192 <=? c) && (c <=? 8202)) || (c =? 8232) || (c =? 8233)
  || (c =? 8239) || (c =? 8287) || (c =? 12288) || (c =? 65279).

(** LineTerminator code units: what [.] refuses to match. *)
Definition isLineTerminator (c : Z) : bool :=
  (c =? 10) || (c =? 13) || (c =? 8232) || (c =? 8233).

Fixpoint trimStart (s : str) : str :=
  match s with
  | c :: s' => if isSpace c then trimStart s' else s
  | [] => []
  end.

Definition trimEnd (s : str) : str := rev (trimStart (rev s)).

(** [s.trim()] *)
Definition trim (s : str) : str := trimEnd (trimStart s).

(** [s.startsWith(p)] *)
Fixpoint startsWith (s p : str) {struct p} : bool :=
  match p with
  | [] => true
  | a :: p' =>
      match s with
      | b :: s' => (a =? b) && startsWith s' p'
      | [] => false
      end
  end.

(** [s.includes(p)] *)
Fixpoint includes (s p : str) : bool :=
  startsWith s p ||
  match s with
  | [] => false
  | _ :: s' => includes s' p
  end.

(** [s.substring(a, b)] and [s.substring(a)] for indices already known to
    be natural numbers (negative arguments are clamped by the callers'
    use of [Z.to_nat]); an end beyond the length is clamped by [take]. *)
Definition substring (s : str) (a b : Z) : str :=
  let a' := Z.to_nat (Z.min a b) in
  let b' := Z.to_nat (Z.max a b) in
  take (b' - a')%nat (drop a' s).

Definition substringFrom (s : str) (a : Z) : str :=
  drop (Z.to_nat a) s.

(** [s.lastIndexOf(p, pos)]: the largest index [k <= pos] at which [p]
    occurs in [s], or [-1].  The scan runs left to right and remembers
    the last hit. *)
Fixpoint lastIndexOfAux (s p : str) (i pos acc : Z) : Z :=
  let acc' := if (i <=? pos) && startsWith s p then i else acc in
  match s with
  | [] => acc'
  | _ :: s' => lastIndexOfAux s' p (i + 1) pos acc'
  end.

Definition lastIndexOf (s p : str) (pos : Z) : Z :=
  lastIndexOfAux s p 0 (Z.max pos 0) (-1).

(** [String(n)] for a natural number, as template literals print it. *)
Definition ofNat (n : nat) : str :=
  lit (NilEmpty.string_of_uint (Nat.to_uint n)).

(** High and low halves of a surrogate pair. *)
Definition isHighSurrogate (c : Z) : bool := (55296 <=? c) && (c <=? 56319).
Definition isLowSurrogate (c : Z) : bool := (56320 <=? c) && (c <=? 57343).

End JS.

Import JS.

(* ===================================================================== *)
(** * Regular expressions                                                 *)
(* ===================================================================== *)

(** The backtracking matcher of ECMAScript regular expressions, restricted
    to the constructs the command patterns and the validator use.  A
    pattern is a syntax tree; [run] is the matcher in continuation-passing
    style, so alternatives and quantifiers backtrack in the order the
    language prescribes (left alternative first, greedy quantifiers longest
    first, lazy ones shortest first). *)

Module Regex.

Inductive regex : Type :=
| Empty                              (* the empty pattern *)
| Char (p : Z -> bool)               (* one code unit accepted by [p] *)
| Seq (r1 r2 : regex)                (* r1 r2 *)
| Alt (r1 r2 : regex)                (* r1|r2 *)
| Star (greedy : bool) (r : regex)   (* r* and r*? *)
| Group (i : nat) (r : regex)        (* the i-th capturing group *)
| Bol                                (* ^ *)
| Eol.                               (* $ *)

(** Captured groups; an absent key is JavaScript's [undefined]. *)
Abbreviation groups := (gmap nat str).

Definition cont := nat -> str -> groups -> option groups.

(** The loop of a quantifier [r*] or [r*?]: [body] matches [r] once, [n]
    bounds the iterations that remain (each consumes at least one code
    unit: an iteration that consumes nothing is rejected, as in the
    language). *)
Fixpoint starLoop (body : nat -> str -> groups -> cont -> option groups)
         (greedy : bool) (k : cont) (n : nat) (i : nat) (s : str) (c : groups)
  : option groups :=
  match n with
  | O => k i s c
  | S n' =>
      let again :=
        body i s c
          (fun i' s' c' =>
             if Nat.eqb i' i then None else starLoop body greedy k n' i' s' c') in
      if greedy
      then match again with Some m => Some m | None => k i s c end
      else match k i s c with Some m => Some m | None => again end
  end.

(** [run r i s c k]: match [r] at index [i], where [s] is the input from
    [i] on, then continue with [k]. *)
Fixpoint run (r : regex) (i : nat) (s : str) (c : groups) (k : cont)
  : option groups :=
  match r with
  | Empty => k i s c
  | Char p =>
      match s with
      | x :: t => if p x then k (S i) t c else None
      | [] => None
      end
  | Seq r1 r2 => run r1 i s c (fun i' s' c' => run r2 i' s' c' k)
  | Alt r1 r2 =>
      match run r1 i s c k with
      | Some m => Some m
      | None => run r2 i s c k
      end
  | Star greedy r' => starLoop (run r') greedy k (length s) i s c
  | Group g r' =>
      run r' i s c (fun i' s' c' => k i' s' (<[g := take (i' - i) s]> c'))
  | Bol => if Nat.eqb i 0 then k i s c else None
  | Eol => match s with [] => k i s c | _ :: _ => None end
  end.

(** Try every start index from left to right. *)
Fixpoint execFrom (r : regex) (i : nat) (s : str) : option groups :=
  match run r i s ∅ (fun _ _ c => Some c) with
  | Some m => Some m
  | None =>
      match s with
      | [] => None
      | _ :: t => execFrom r (S i) t
      end
  end.

(** [s.match(r)] for a pattern without the [g] flag. *)
Definition exec (r : regex) (s : str) : option groups := execFrom r 0 s.

(** [r.test(s)] *)
Definition test (r : regex) (s : str) : bool :=
  match exec r s with Some _ => true | None => false end.

(** [binds g r]: every way of matching [r] goes through group [g]. *)
Fixpoint binds (g : nat) (r : regex) : bool :=
  match r with
  | Seq r1 r2 => binds g r1 || binds g r2
  | Alt r1 r2 => binds g r1 && binds g r2
  | Group i r' => Nat.eqb i g || binds g r'
  | _ => false
  end.

(** ** Pattern syntax *)

Fixpoint seq (rs : list regex) : regex :=
  match rs with
  | [] => Empty
  | [r] => r
  | r :: rs' => Seq r (seq rs')
  end.

Fixpoint alt (rs : list regex) : regex :=
  match rs with
  | [] => Empty
  | [r] => r
  | r :: rs' => Alt r (alt rs')
  end.

Definition plus (greedy : bool) (r : regex) : regex := Seq r (Star greedy r).
Definition opt (r : regex) : regex := Alt r Empty.

(** ASCII upper-casing; on code units below 128 this is the
    canonicalisation of the [i] flag, and no code unit from 128 on is
    canonicalised to one below 128. *)
Definition asciiUpper (c : Z) : Z :=
  if (97 <=? c) && (c <=? 122) then c - 32 else c.

Definition chr (c : Z) : regex := Char (Z.eqb c).
Definition ichr (c : Z) : regex := Char (fun x => asciiUpper x =? asciiUpper c).

(** A literal word, and the same under the [i] flag. *)
Definition word (w : string) : regex := seq (List.map chr (lit w)).
Definition iword (w : string) : regex := seq (List.map ichr (lit w)).

(** [\s], [.], [[a-zA-Z]] and a class given by its members. *)
Definition space : regex := Char isSpace.
Definition dot : regex := Char (fun c => negb (isLineTerminator c)).
Definition letter : regex :=
  Char (fun c => ((97 <=? c) && (c <=? 122)) || ((65 <=? c) && (c <=? 90))).
Definition oneOf (w : string) : regex :=
  Char (fun c => existsb (Z.eqb c) (lit w)).

End Regex.

(* ===================================================================== *)
(** * Commands (command.types.ts)                                         *)
(* ===================================================================== *)

Inductive Command : Type :=
| FileReadCommand (raw path : str)
| FileListCommand (raw directory : str)
| SearchCommand (raw query : str) (pattern : option str)
| StatusCommand (raw : str)
| HelpCommand (raw : str).

Inductive CommandType : Type := FILE_READ | FILE_LIST | SEARCH | STATUS | HELP.

Definition commandType (c : Command) : CommandType :=
  match c with
  | FileReadCommand _ _ => FILE_READ
  | FileListCommand _ _ => FILE_LIST
  | SearchCommand _ _ _ => SEARCH
  | StatusCommand _ => STATUS
  | HelpCommand _ => HELP
  end.

(** A call either returns a value or throws. *)
Inductive outcome (A : Type) : Type :=
| Returns (a : A)
| Throws.
Arguments Returns {A} a.
Arguments Throws {A}.

(* ===================================================================== *)
(** * CommandParserService                                                *)
(* ===================================================================== *)

Module CommandParser.
Import Regex.

(** [ParseResult]: both [command] and [error] are optional fields. *)
Record ParseResult : Type := {
  success : bool;
  command : option Command;
  error : option str
}.

(** COMMAND_PATTERNS *)
Module COMMAND_PATTERNS.

(* /^(?:read|show|cat|file|open)\s+(.+)$/i *)
Definition FILE_READ : regex :=
  seq [Bol;
       alt [iword "read"; iword "show"; iword "cat"; iword "file"; iword "open"];
       plus true space;
       Group 1 (plus true dot);
       Eol].

(* /^(?:list|ls|dir|files)\s*( .* )$/i, the group being a starred dot *)
Definition FILE_LIST : regex :=
  seq [Bol;
       alt [iword "list"; iword "ls"; iword "dir"; iword "files"];
       Star true space;
       Group 1 (Star true dot);
       Eol].

(* /^(?:search|find|grep)\s+(.+?)(?:\s+(?:in|pattern:)\s*(.+))?$/i *)
Definition SEARCH : regex :=
  seq [Bol;
       alt [iword "search"; iword "find"; iword "grep"];
       plus true space;
       Group 1 (plus false dot);
       opt (seq [plus true space;
                 alt [iword "in"; iword "pattern:"];
                 Star true space;
                 Group 2 (plus true dot)]);
       Eol].

(* /^(?:status|workspace|info)$/i *)
Definition STATUS : regex :=
  seq [Bol; alt [iword "status"; iword "workspace"; iword "info"]; Eol].

(* /^(?:help|commands|\?)$/i *)
Definition HELP : regex :=
  seq [Bol; alt [iword "help"; iword "commands"; chr 63]; Eol].

End COMMAND_PATTERNS.

(** [replace] of every match of the global pattern [\s+] by one space: every maximal run of white space becomes
    one space; [inRun] tells that the previous code unit was white space. *)
Fixpoint replaceSpaceRuns (inRun : bool) (s : str) : str :=
  match s with
  | [] => []
  | c :: s' =>
      if isSpace c
      then (if inRun then replaceSpaceRuns true s' else 32 :: replaceSpaceRuns true s')
      else c :: replaceSpaceRuns false s'
  end.

Definition normalizeMessage (message : str) : str :=
  replaceSpaceRuns false (trim message).

Definition createFileReadCommand (raw path : str) : Command := FileReadCommand raw path.
Definition createFileListCommand (raw directory : str) : Command := FileListCommand raw directory.
Definition createSearchCommand (raw query : str) (pattern : option str) : Command :=
  SearchCommand raw query pattern.
Definition createStatusCommand (raw : str) : Command := StatusCommand raw.
Definition createHelpCommand (raw : str) : Command := HelpCommand raw.

(** [x || d] for an optional string: [undefined] and the empty string
    both give [d]. *)
Definition orElse (x : option str) (d : str) : str :=
  match x with
  | Some (c :: s) => c :: s
  | _ => d
  end.

(** [matchCommand]: [m[1].trim()] throws a TypeError when group 1 is
    undefined, [m[1]?.trim()] gives [undefined] then. *)
Definition matchCommand (normalized : str) : outcome (option Command) :=
  match exec COMMAND_PATTERNS.FILE_READ normalized with
  | Some fileReadMatch =>
      match fileReadMatch !! 1%nat with
      | Some g => Returns (Some (createFileReadCommand normalized (trim g)))
      | None => Throws
      end
  | None =>
  match exec COMMAND_PATTERNS.FILE_LIST normalized with
  | Some fileListMatch =>
      Returns (Some (createFileListCommand normalized
                       (orElse (trim <$> fileListMatch !! 1%nat) (lit "."))))
  | None =>
  match exec COMMAND_PATTERNS.SEARCH normalized with
  | Some searchMatch =>
      match searchMatch !! 1%nat with
      | Some g =>
          Returns (Some (createSearchCommand normalized (trim g)
                           (trim <$> searchMatch !! 2%nat)))
      | None => Throws
      end
  | None =>
  match exec COMMAND_PATTERNS.STATUS normalized with
  | Some _ => Returns (Some (createStatusCommand normalized))
  | None =>
  match exec COMMAND_PATTERNS.HELP normalized with
  | Some _ => Returns (Some (createHelpCommand normalized))
  | None => Returns None
  end end end end end.

Definition EMPTY_MESSAGE : str := lit "Empty message".

(** The text [Unknown command. Type "help" to see available commands.] *)
Definition UNKNOWN_COMMAND : str :=
  lit "Unknown command. Type " ++ [34] ++ lit "help" ++ [34]
  ++ lit " to see available commands.".

Definition parse (message : str) : outcome ParseResult :=
  let normalized := normalizeMessage message in
  if falsy normalized
  then Returns {| success := false; command := None; error := Some EMPTY_MESSAGE |}
  else
    match matchCommand normalized with
    | Throws => Throws
    | Returns None =>
        Returns {| success := false; command := None; error := Some UNKNOWN_COMMAND |}
    | Returns (Some cmd) =>
        Returns {| success := true; command := Some cmd; error := None |}
    end.

End CommandParser.

(* ===================================================================== *)
(** * CommandValidatorService                                             *)
(* ===================================================================== *)

(** validation.types.ts: the messages. *)
Module ValidationErrors.
Definition INVALID_PATH_FORMAT : str := lit "Invalid path format".
Definition PATH_REQUIRED : str := lit "File path is required".
Definition PATH_TOO_LONG : str := lit "Path exceeds maximum length of 500 characters".
Definition ABSOLUTE_PATH_NOT_ALLOWED : str :=
  lit "Absolute paths are not allowed for security reasons".
Definition PATH_TRAVERSAL_DETECTED : str :=
  lit "Path traversal detected (../ is not allowed)".
Definition DIRECTORY_REQUIRED : str := lit "Directory path is required".
Definition INVALID_DIRECTORY_FORMAT : str := lit "Invalid directory format".
Definition QUERY_REQUIRED : str := lit "Search query is required".
Definition QUERY_TOO_SHORT : str := lit "Search query must be at least 2 characters".
Definition QUERY_TOO_LONG : str :=
  lit "Search query exceeds maximum length of 200 characters".
Definition INVALID_PATTERN : str := lit "Invalid regex pattern".
Definition PATTERN_TOO_LONG : str :=
  lit "Pattern exceeds maximum length of 200 characters".
Definition UNKNOWN_COMMAND_TYPE : str := lit "Unknown command type".
End ValidationErrors.

Module CommandValidator.
Import Regex ValidationErrors.

Module VALIDATION_CONFIG.
Definition PATH_MAX_LENGTH : Z := 500.
Definition QUERY_MIN_LENGTH : Z := 2.
Definition QUERY_MAX_LENGTH : Z := 200.
Definition PATTERN_MAX_LENGTH : Z := 200.
End VALIDATION_CONFIG.
Import VALIDATION_CONFIG.

Record ValidationResult : Type := {
  valid : bool;
  errors : list str
}.

(** The members of the class of invalid path characters: the seven
    punctuation marks less-than, greater-than, colon, double quote, bar,
    question mark, star, and the control code units 0 to 31. *)
Definition invalidChar (c : Z) : bool :=
  (c =? 60) || (c =? 62) || (c =? 58) || (c =? 34) || (c =? 124)
  || (c =? 63) || (c =? 42) || ((0 <=? c) && (c <=? 31)).

(** The drive pattern, a letter, a colon and a slash of either kind at
    the start; the network pattern, two backslashes at the start. *)
Definition drivePattern : regex := seq [Bol; letter; chr 58; oneOf "\/"].
Definition networkPattern : regex := seq [Bol; chr 92; chr 92].
(** Two dots and a slash of either kind, anywhere. *)
Definition dotDotSlashPattern : regex := seq [chr 46; chr 46; oneOf "\/"].
Definition invalidChars : regex := Char invalidChar.

Definition isAbsolutePath (path : str) : bool :=
  if test drivePattern path || test networkPattern path then true
  else if startsWith path (lit "/") then true
  else false.

Definition hasPathTraversal (path : str) : bool :=
  test dotDotSlashPattern path || includes path (lit "..").

Definition isValidPathFormat (path : str) : bool :=
  negb (test invalidChars path).

(** [errors.push(e)] *)
Definition push (errors : list str) (e : str) : list str := errors ++ [e].

Definition validatePath (path : str) (errors : list str) (isDirectory : bool)
  : list str :=
  if falsy path
  then push errors (if isDirectory then DIRECTORY_REQUIRED else PATH_REQUIRED)
  else
    let errors :=
      if len path >? PATH_MAX_LENGTH then push errors PATH_TOO_LONG else errors in
    let errors :=
      if isAbsolutePath path then push errors ABSOLUTE_PATH_NOT_ALLOWED else errors in
    let errors :=
      if hasPathTraversal path then push errors PATH_TRAVERSAL_DETECTED else errors in
    if negb (isValidPathFormat path)
    then push errors (if isDirectory then INVALID_DIRECTORY_FORMAT
                      else INVALID_PATH_FORMAT)
    else errors.

Definition validateFileReadCommand (path : str) (errors : list str) : list str :=
  validatePath path errors false.

Definition validateFileListCommand (directory : str) (errors : list str)
  : list str :=
  if falsy directory then push errors DIRECTORY_REQUIRED
  else validatePath directory errors true.

Section WithRegExp.

(** [compiles p]: the constructor [new RegExp(p)] does not throw. *)
Variable compiles : str -> bool.

Definition validateSearchCommand (query : str) (pattern : option str)
           (errors : list str) : list str :=
  let errors :=
    if falsy query then push errors QUERY_REQUIRED
    else
      let errors :=
        if len query <? QUERY_MIN_LENGTH then push errors QUERY_TOO_SHORT
        else errors in
      if len query >? QUERY_MAX_LENGTH then push errors QUERY_TOO_LONG
      else errors in
  match pattern with
  | Some (c :: p) =>
      let pattern := c :: p in
      let errors :=
        if len pattern >? PATTERN_MAX_LENGTH then push errors PATTERN_TOO_LONG
        else errors in
      if compiles pattern then errors else push errors INVALID_PATTERN
  | _ => errors
  end.

(** [validate]; the [default] branch of the switch (unknown command
    type) has no counterpart, [Command] being a closed type. *)
Definition validate (command : Command) : ValidationResult :=
  let errors :=
    match command with
    | FileReadCommand _ path => validateFileReadCommand path []
    | FileListCommand _ directory => validateFileListCommand directory []
    | SearchCommand _ query pattern => validateSearchCommand query pattern []
    | StatusCommand _ | HelpCommand _ => []
    end in
  {| valid := Nat.eqb (length errors) 0; errors := errors |}.

End WithRegExp.

End CommandValidator.

(* ===================================================================== *)
(** * CircuitBreaker                                                      *)
(* ===================================================================== *)

(** Times are milliseconds on the wall clock.  A call of [execute] has two
    phases, separated by the [await] of the protected operation: admission
    ([executeBegin], at the time of the call) and settlement ([executeEnd],
    when the operation has resolved or rejected).  The failure-count reset
    is a timer: [resetTimer] holds the deadline of the pending timer, and
    [tick] fires it once the clock has reached the deadline. *)

Module CircuitBreaker.

Inductive CircuitState : Type := CLOSED | OPEN | HALF_OPEN.

Definition CircuitState_eqb (a b : CircuitState) : bool :=
  match a, b with
  | CLOSED, CLOSED | OPEN, OPEN | HALF_OPEN, HALF_OPEN => true
  | _, _ => false
  end.

Record CircuitBreakerOptions : Type := {
  failureThreshold : Z;
  successThreshold : Z;
  timeout : Z;
  resetTimeout : Z
}.

Definition DEFAULT_OPTIONS : CircuitBreakerOptions :=
  {| failureThreshold := 5; successThreshold := 2;
     timeout := 60000; resetTimeout := 300000 |}.

Record t : Type := {
  state : CircuitState;
  failureCount : Z;
  successCount : Z;
  lastFailureTime : option Z;
  lastSuccessTime : option Z;
  nextAttemptTime : option Z;
  totalRequests : Z;
  totalFailures : Z;
  totalSuccesses : Z;
  resetTimer : option Z
}.

(** A freshly constructed breaker. *)
Definition new : t :=
  {| state := CLOSED; failureCount := 0; successCount := 0;
     lastFailureTime := None; lastSuccessTime := None;
     nextAttemptTime := None; totalRequests := 0; totalFailures := 0;
     totalSuccesses := 0; resetTimer := None |}.

Definition set_state (x : CircuitState) (b : t) : t :=
  {| state := x; failureCount := failureCount b; successCount := successCount b;
     lastFailureTime := lastFailureTime b; lastSuccessTime := lastSuccessTime b;
     nextAttemptTime := nextAttemptTime b; totalRequests := totalRequests b;
     totalFailures := totalFailures b; totalSuccesses := totalSuccesses b;
     resetTimer := resetTimer b |}.

Definition set_failureCount (x : Z) (b : t) : t :=
  {| state := state b; failureCount := x; successCount := successCount b;
     lastFailureTime := lastFailureTime b; lastSuccessTime := lastSuccessTime b;
     nextAttemptTime := nextAttemptTime b; totalRequests := totalRequests b;
     totalFailures := totalFailures b; totalSuccesses := totalSuccesses b;
     resetTimer := resetTimer b |}.

Definition set_successCount (x : Z) (b : t) : t :=
  {| state := state b; failureCount := failureCount b; successCount := x;
     lastFailureTime := lastFailureTime b; lastSuccessTime := lastSuccessTime b;
     nextAttemptTime := nextAttemptTime b; totalRequests := totalRequests b;
     totalFailures := totalFailures b; totalSuccesses := totalSuccesses b;
     resetTimer := resetTimer b |}.

Definition set_nextAttemptTime (x : option Z) (b : t) : t :=
  {| state := state b; failureCount := failureCount b; successCount := successCount b;
     lastFailureTime := lastFailureTime b; lastSuccessTime := lastSuccessTime b;
     nextAttemptTime := x; totalRequests := totalRequests b;
     totalFailures := totalFailures b; totalSuccesses := totalSuccesses b;
     resetTimer := resetTimer b |}.

Definition set_resetTimer (x : option Z) (b : t) : t :=
  {| state := state b; failureCount := failureCount b; successCount := successCount b;
     lastFailureTime := lastFailureTime b; lastSuccessTime := lastSuccessTime b;
     nextAttemptTime := nextAttemptTime b; totalRequests := totalRequests b;
     totalFailures := totalFailures b; totalSuccesses := totalSuccesses b;
     resetTimer := x |}.

(** [this.totalRequests++] *)
Definition countRequest (b : t) : t :=
  {| state := state b; failureCount := failureCount b; successCount := successCount b;
     lastFailureTime := lastFailureTime b; lastSuccessTime := lastSuccessTime b;
     nextAttemptTime := nextAttemptTime b; totalRequests := totalRequests b + 1;
     totalFailures := totalFailures b; totalSuccesses := totalSuccesses b;
     resetTimer := resetTimer b |}.

(** The first two statements of [onSuccess]. *)
Definition recordSuccess (now : Z) (b : t) : t :=
  {| state := state b; failureCount := failureCount b; successCount := successCount b;
     lastFailureTime := lastFailureTime b; lastSuccessTime := Some now;
     nextAttemptTime := nextAttemptTime b; totalRequests := totalRequests b;
     totalFailures := totalFailures b; totalSuccesses := totalSuccesses b + 1;
     resetTimer := resetTimer b |}.

(** The first three statements of [onFailure]. *)
Definition recordFailure (now : Z) (b : t) : t :=
  {| state := state b; failureCount := failureCount b + 1;
     successCount := successCount b;
     lastFailureTime := Some now; lastSuccessTime := lastSuccessTime b;
     nextAttemptTime := nextAttemptTime b; totalRequests := totalRequests b;
     totalFailures := totalFailures b + 1; totalSuccesses := totalSuccesses b;
     resetTimer := resetTimer b |}.

Section WithOptions.

Variable options : CircuitBreakerOptions.

(** The state-change callbacks are the caller's and cannot touch the
    breaker's fields; only the assignment remains. *)
Definition transitionTo (newState : CircuitState) (b : t) : t :=
  if CircuitState_eqb (state b) newState then b else set_state newState b.

Definition scheduleNextAttempt (now : Z) (b : t) : t :=
  set_nextAttemptTime (Some (now + timeout options)) b.

Definition clearResetTimer (b : t) : t := set_resetTimer None b.

Definition scheduleReset (now : Z) (b : t) : t :=
  set_resetTimer (Some (now + resetTimeout options)) (clearResetTimer b).

Definition reset (b : t) : t :=
  clearResetTimer
    (set_nextAttemptTime None (set_successCount 0 (set_failureCount 0 b))).

Definition onSuccess (now : Z) (b : t) : t :=
  let b := recordSuccess now b in
  match state b with
  | HALF_OPEN =>
      let b := set_successCount (successCount b + 1) b in
      if successCount b >=? successThreshold options
      then reset (transitionTo CLOSED b)
      else b
  | CLOSED => clearResetTimer (set_failureCount 0 b)
  | OPEN => b
  end.

Definition onFailure (now : Z) (b : t) : t :=
  let b := recordFailure now b in
  match state b with
  | HALF_OPEN => scheduleNextAttempt now (transitionTo OPEN b)
  | CLOSED =>
      if failureCount b >=? failureThreshold options
      then scheduleNextAttempt now (transitionTo OPEN b)
      else scheduleReset now b
  | OPEN => scheduleReset now b
  end.

(** The callback of the reset timer, run once the deadline is reached;
    a timer that has fired is no longer pending. *)
Definition tick (now : Z) (b : t) : t :=
  match resetTimer b with
  | Some deadline =>
      if deadline <=? now then set_resetTimer None (set_failureCount 0 b) else b
  | None => b
  end.

(** Admission: [false] is the fail-fast throw, [true] lets the
    operation run. *)
Definition executeBegin (now : Z) (b : t) : t * bool :=
  let b := countRequest b in
  match state b with
  | OPEN =>
      match nextAttemptTime b with
      | Some next =>
          if now <? next then (b, false) else (transitionTo HALF_OPEN b, true)
      | None => (transitionTo HALF_OPEN b, true)
      end
  | _ => (b, true)
  end.

(** Settlement. *)
Definition executeEnd (now : Z) (resolved : bool) (b : t) : t :=
  if resolved then onSuccess now b else onFailure now b.

(** One call: when it is made, when the operation settles, and whether
    the operation resolves. *)
Record call : Type := {
  started : Z;
  settled : Z;
  resolves : bool
}.

Inductive result : Type := Resolved | Rejected | FailedFast.

Definition execute (c : call) (b : t) : t * result :=
  let '(b, admitted) := executeBegin (started c) (tick (started c) b) in
  if admitted
  then (executeEnd (settled c) (resolves c) (tick (settled c) b),
        if resolves c then Resolved else Rejected)
  else (b, FailedFast).

(** A sequence of calls, one after the other. *)
Fixpoint executeAll (cs : list call) (b : t) : t :=
  match cs with
  | [] => b
  | c :: cs' => executeAll cs' (fst (execute c b))
  end.

(** [open()] and [close()] *)
Definition open (now : Z) (b : t) : t :=
  scheduleNextAttempt now (transitionTo OPEN b).
Definition close (b : t) : t := reset (transitionTo CLOSED b).

End WithOptions.

End CircuitBreaker.

(* ===================================================================== *)
(** * EventBroadcaster                                                    *)
(* ===================================================================== *)

(** [Date.now()] is an argument: the clock reading of the synchronous
    [broadcast] call.  The payload of an event plays no part in the
    throttle and is kept as an opaque string. *)

Module EventBroadcaster.

Inductive WorkspaceEventType : Type :=
| BUILD_COMPLETE | ERROR | GIT_OPERATION | FILE_CHANGED.

#[global] Instance WorkspaceEventType_eq_dec : EqDecision WorkspaceEventType.
Proof. solve_decision. Defined.

#[global] Instance WorkspaceEventType_countable : Countable WorkspaceEventType.
Proof.
  refine (inj_countable'
            (fun ty => match ty with
                       | BUILD_COMPLETE => 0%nat | ERROR => 1%nat
                       | GIT_OPERATION => 2%nat | FILE_CHANGED => 3%nat
                       end)
            (fun n => match n with
                      | 0%nat => BUILD_COMPLETE | 1%nat => ERROR
                      | 2%nat => GIT_OPERATION | _ => FILE_CHANGED
                      end) _).
  intros []; reflexivity.
Defined.

Record WorkspaceEvent : Type := {
  type : WorkspaceEventType;
  timestamp : Z;
  payload : str
}.

Record ThrottleConfig : Type := {
  enabled : bool;
  windowMs : Z;
  maxEvents : Z
}.

Record ThrottleState : Type := {
  events : list WorkspaceEvent;
  lastBroadcast : Z
}.

(** A connection: the user and whether the socket is connected. *)
Record BroadcastConnection : Type := {
  userId : str;
  connected : bool
}.

Record t : Type := {
  throttleConfig : gmap WorkspaceEventType ThrottleConfig;
  throttleState : gmap WorkspaceEventType ThrottleState;
  connections : list BroadcastConnection
}.

(** [initializeThrottleConfig] *)
Definition initializeThrottleConfig : gmap WorkspaceEventType ThrottleConfig :=
  <[FILE_CHANGED := {| enabled := true; windowMs := 30000; maxEvents := 10 |}]>
  (<[GIT_OPERATION := {| enabled := true; windowMs := 3000; maxEvents := 3 |}]>
  (<[ERROR := {| enabled := true; windowMs := 10000; maxEvents := 5 |}]>
  (<[BUILD_COMPLETE := {| enabled := true; windowMs := 5000; maxEvents := 2 |}]> ∅))).

(** The constructor. *)
Definition new : t :=
  {| throttleConfig := initializeThrottleConfig;
     throttleState := ∅;
     connections := [] |}.

(** The events of a window that are younger than [windowMs] at [now]. *)
Definition eventsInWindow (now windowMs : Z) (es : list WorkspaceEvent)
  : list WorkspaceEvent :=
  List.filter (fun e => now - timestamp e <? windowMs) es.

Definition shouldThrottle (now : Z) (event : WorkspaceEvent) (b : t) : bool :=
  match throttleConfig b !! type event with
  | None => false
  | Some config =>
      if negb (enabled config) then false
      else
        match throttleState b !! type event with
        | None => false
        | Some state =>
            let timeSinceLastBroadcast := now - lastBroadcast state in
            if timeSinceLastBroadcast >? windowMs config then false
            else
              Z.of_nat (length (eventsInWindow now (windowMs config) (events state)))
              >=? maxEvents config
        end
  end.

Definition updateThrottleState (now : Z) (event : WorkspaceEvent) (b : t) : t :=
  match throttleConfig b !! type event with
  | None => b
  | Some config =>
      if negb (enabled config) then b
      else
        let state :=
          match throttleState b !! type event with
          | Some state => state
          | None => {| events := []; lastBroadcast := now |}
          end in
        let state :=
          {| events := eventsInWindow now (windowMs config) (events state ++ [event]);
             lastBroadcast := now |} in
        {| throttleConfig := throttleConfig b;
           throttleState := <[type event := state]> (throttleState b);
           connections := connections b |}
  end.

(** [broadcast]: the users the event was emitted to, or [None] when the
    event was throttled. *)
Definition broadcast (now : Z) (event : WorkspaceEvent) (b : t)
  : t * option (list str) :=
  if shouldThrottle now event b then (b, None)
  else
    let receivers := List.map userId (List.filter connected (connections b)) in
    (updateThrottleState now event b, Some receivers).

Definition updateThrottleConfig (eventType : WorkspaceEventType)
           (config : ThrottleConfig) (b : t) : t :=
  {| throttleConfig := <[eventType := config]> (throttleConfig b);
     throttleState := throttleState b;
     connections := connections b |}.

(** An arrival: the clock reading at which [broadcast] is called, and the
    event. *)
Definition arrival : Type := Z * WorkspaceEvent.

(** Feed a sequence of arrivals; the result lists, in order, the arrivals
    that were forwarded. *)
Fixpoint broadcastAll (arrivals : list arrival) (b : t) : t * list arrival :=
  match arrivals with
  | [] => (b, [])
  | (now, event) :: rest =>
      let '(b', out) := broadcast now event b in
      let '(b'', forwarded) := broadcastAll rest b' in
      (b'', match out with
            | Some _ => (now, event) :: forwarded
            | None => forwarded
            end)
  end.

End EventBroadcaster.

(* ===================================================================== *)
(** * WhatsAppSender                                                      *)
(* ===================================================================== *)

(** The channel client is a parameter: whether a send attempt succeeds may
    depend on everything attempted so far.  The sender's state is the log
    of attempts, oldest first; the pauses between attempts leave no trace
    in it. *)

Module WhatsAppSender.

Definition MAX_MESSAGE_LENGTH : Z := 4096.
Definition MAX_RETRY_ATTEMPTS : nat := 3.

(** One attempt: the recipient and the text handed to the client. *)
Definition attempt : Type := str * str.

(** [i > MAX_MESSAGE_LENGTH * 0.7] for an integer [i]: the product is
    2867.2, so the test is [10 * i > 7 * MAX_MESSAGE_LENGTH]. *)
Definition beyondSeventyPercent (i : Z) : bool :=
  10 * i >? 7 * MAX_MESSAGE_LENGTH.

(** The split point of one round of [chunkMessage]. *)
Definition splitIndex (remaining : str) : Z :=
  let lastNewline := lastIndexOf remaining [10] MAX_MESSAGE_LENGTH in
  if beyondSeventyPercent lastNewline then lastNewline + 1
  else
    let lastSpace := lastIndexOf remaining [32] MAX_MESSAGE_LENGTH in
    if beyondSeventyPercent lastSpace then lastSpace + 1
    else MAX_MESSAGE_LENGTH.

(** The [while] loop of [chunkMessage]; [None] when the fuel runs out. *)
Fixpoint chunkLoop (fuel : nat) (remaining : str) (chunks : list str)
  : option (list str) :=
  match fuel with
  | O => None
  | S fuel' =>
      if len remaining >? 0 then
        if len remaining <=? MAX_MESSAGE_LENGTH then Some (chunks ++ [remaining])
        else
          let i := splitIndex remaining in
          chunkLoop fuel' (trim (substringFrom remaining i))
                    (chunks ++ [trim (substring remaining 0 i)])
      else Some chunks
  end.

Definition chunkMessage (message : str) : option (list str) :=
  chunkLoop (S (length message)) message [].

(** The header of chunk [i] (counted from 0) out of [n]. *)
Definition chunkHeader (i n : nat) : str :=
  if (1 <? n)%nat
  then lit "[Part " ++ ofNat (i + 1) ++ lit "/" ++ ofNat n ++ lit "]" ++ [10; 10]
  else [].

(** The notice sent after a chunk other than the first has failed; it
    opens with a warning sign and its variation selector. *)
Definition incompleteNotice (i n : nat) : str :=
  [9888; 65039] ++ lit " Message delivery incomplete. Received " ++ ofNat i
  ++ lit " of " ++ ofNat n ++ lit " parts.".

Section WithClient.

(** [client log phone text]: the client's [sendMessage] resolves (rather
    than throws) when called after the attempts in [log]. *)
Variable client : list attempt -> str -> str -> bool.

(** [sendSingleMessage]: up to [maxAttempts] attempts, stopping at the
    first that succeeds. *)
Fixpoint sendSingleMessage (phoneNumber message : str) (maxAttempts : nat)
         (log : list attempt) : list attempt * bool :=
  match maxAttempts with
  | O => (log, false)
  | S more =>
      let ok := client log phoneNumber message in
      let log := log ++ [(phoneNumber, message)] in
      if ok then (log, true)
      else sendSingleMessage phoneNumber message more log
  end.

(** The [for] loop of [sendChunkedMessage] from chunk [i] on. *)
Fixpoint sendChunks (phoneNumber : str) (n : nat) (maxAttempts : nat)
         (i : nat) (chunks : list str) (log : list attempt)
  : list attempt * bool :=
  match chunks with
  | [] => (log, true)
  | chunk :: rest =>
      let chunkMessage := chunkHeader i n ++ chunk in
      let '(log, success) := sendSingleMessage phoneNumber chunkMessage maxAttempts log in
      if success then sendChunks phoneNumber n maxAttempts (S i) rest log
      else
        if (0 <? i)%nat
        then (fst (sendSingleMessage phoneNumber (incompleteNotice i n) 1 log), false)
        else (log, false)
  end.

Definition sendChunkedMessage (phoneNumber message : str) (maxAttempts : nat)
           (log : list attempt) : option (list attempt * bool) :=
  match chunkMessage message with
  | Some chunks =>
      Some (sendChunks phoneNumber (length chunks) maxAttempts 0 chunks log)
  | None => None
  end.

(** [sendMessage] with its options object spelt out. *)
Definition sendMessage (phoneNumber message : str) (retry : bool) (maxRetries : nat)
           (log : list attempt) : option (list attempt * bool) :=
  let maxAttempts := if retry then maxRetries else 1%nat in
  if len message <=? MAX_MESSAGE_LENGTH
  then Some (sendSingleMessage phoneNumber message maxAttempts log)
  else sendChunkedMessage phoneNumber message maxAttempts log.

End WithClient.

End WhatsAppSender.

(* ===================================================================== *)
(** * NotificationDispatcher                                              *)
(* ===================================================================== *)

(** The Redis list [notification_queue] is a list, oldest item first; the
    keys [notification_batch:<userId>] are a map from the user to the
    stored batch and the time at which the key expires.  Identifiers and
    clock readings are arguments.  [whatsappSender.sendMessage] is a
    parameter answering whether a delivery succeeds, given everything
    handed to it so far; [sent] logs the calls. *)

Module NotificationDispatcher.

Inductive NotificationType : Type :=
| BUILD_COMPLETE | ERROR | GIT_OPERATION | FILE_CHANGED.

Inductive NotificationPriority : Type := LOW | MEDIUM | HIGH | URGENT.

Definition isUrgent (p : NotificationPriority) : bool :=
  match p with URGENT => true | _ => false end.

Record Notification : Type := {
  id : str;
  userId : str;
  phoneNumber : str;
  type : NotificationType;
  priority : NotificationPriority;
  title : str;
  message : str;
  timestamp : Z
}.

Record BatchedNotifications : Type := {
  batchUserId : str;
  batchPhoneNumber : str;
  notifications : list Notification;
  batchedAt : Z
}.

Record NotificationQueueItem : Type := {
  notification : Notification;
  retryCount : Z;
  scheduledAt : Z
}.

Definition BATCH_WINDOW_MS : Z := 30000.
Definition RETRY_DELAY_MS : Z := 5000.

(** A delivery: the phone number and the text given to the sender. *)
Definition delivery : Type := str * str.

Record t : Type := {
  queue : list NotificationQueueItem;
  batches : gmap str (BatchedNotifications * Z);
  batchTimers : gmap str Z;
  isProcessing : bool;
  sent : list delivery
}.

Definition new : t :=
  {| queue := []; batches := ∅; batchTimers := ∅; isProcessing := false; sent := [] |}.

Definition set_queue (q : list NotificationQueueItem) (d : t) : t :=
  {| queue := q; batches := batches d; batchTimers := batchTimers d;
     isProcessing := isProcessing d; sent := sent d |}.

Definition set_batches (b : gmap str (BatchedNotifications * Z)) (d : t) : t :=
  {| queue := queue d; batches := b; batchTimers := batchTimers d;
     isProcessing := isProcessing d; sent := sent d |}.

Definition set_batchTimers (m : gmap str Z) (d : t) : t :=
  {| queue := queue d; batches := batches d; batchTimers := m;
     isProcessing := isProcessing d; sent := sent d |}.

Definition set_isProcessing (p : bool) (d : t) : t :=
  {| queue := queue d; batches := batches d; batchTimers := batchTimers d;
     isProcessing := p; sent := sent d |}.

Definition set_sent (l : list delivery) (d : t) : t :=
  {| queue := queue d; batches := batches d; batchTimers := batchTimers d;
     isProcessing := isProcessing d; sent := l |}.

(** [redis.get(batchKey)]: an expired key reads as absent. *)
Definition getBatch (now : Z) (user : str) (d : t) : option BatchedNotifications :=
  match batches d !! user with
  | Some (batch, expires) => if now <? expires then Some batch else None
  | None => None
  end.

Definition getEmojiForType (ty : NotificationType) : str :=
  match ty with
  | BUILD_COMPLETE => [9989]            (* white heavy check mark *)
  | ERROR => [10060]                    (* cross mark *)
  | GIT_OPERATION => [55357; 56576]     (* twisted rightwards arrows *)
  | FILE_CHANGED => [55357; 56541]      (* memo *)
  end.

(** The bell that heads a batch. *)
Definition bell : str := [55357; 56596].

Definition formatSingleNotification (n : Notification) : str :=
  getEmojiForType (type n) ++ lit " *" ++ title n ++ lit "*" ++ [10; 10] ++ message n.

(** The two lines the [for] loop appends for the notification at index [i]. *)
Definition batchEntry (i : nat) (n : Notification) : str :=
  (ofNat (i + 1) ++ lit ". " ++ getEmojiForType (type n) ++ lit " *" ++ title n
     ++ lit "*" ++ [10])
  ++ (lit "   " ++ message n ++ [10; 10]).

(** The [for] loop of [formatBatchedNotifications] from index [i] on. *)
Fixpoint appendEntries (i : nat) (ns : list Notification) (message : str) : str :=
  match ns with
  | [] => message
  | n :: rest => appendEntries (S i) rest (message ++ batchEntry i n)
  end.

Definition formatBatchedNotifications (batch : BatchedNotifications) : str :=
  match notifications batch with
  | [n] => formatSingleNotification n
  | ns =>
      let message :=
        bell ++ lit " *" ++ ofNat (length ns) ++ lit " Workspace Updates*" ++ [10; 10] in
      trim (appendEntries 0 ns message)
  end.

Definition requeueNotification (now : Z) (n : Notification) (d : t) : t :=
  set_queue (queue d ++ [{| notification := n; retryCount := 0;
                            scheduledAt := now + RETRY_DELAY_MS |}]) d.

Definition addToBatch (now : Z) (user : str) (n : Notification) (d : t) : t :=
  let existing :=
    match getBatch now user d with
    | Some batch => notifications batch
    | None => []
    end in
  let batch :=
    {| batchUserId := user; batchPhoneNumber := phoneNumber n;
       notifications := existing ++ [n]; batchedAt := now |} in
  let d := set_batches (<[user := (batch, now + BATCH_WINDOW_MS)]> (batches d)) d in
  match batchTimers d !! user with
  | Some _ => d
  | None => set_batchTimers (<[user := now + BATCH_WINDOW_MS]> (batchTimers d)) d
  end.

(** [queueNotification]; [newId] is the identifier [uuidv4()] returns. *)
Definition queueNotification (now : Z) (newId user phone : str)
           (ty : NotificationType) (title message : str)
           (priority : NotificationPriority) (d : t) : t :=
  let n :=
    {| id := newId; userId := user; phoneNumber := phone; type := ty;
       priority := priority; title := title; message := message;
       timestamp := now |} in
  let d := set_queue (queue d ++ [{| notification := n; retryCount := 0;
                                     scheduledAt := now |}]) d in
  addToBatch now user n d.

Section WithSender.

(** [deliver log phone text]: [whatsappSender.sendMessage] resolves to
    [true] when called after the deliveries in [log]. *)
Variable deliver : list delivery -> str -> str -> bool.

(** One call of [whatsappSender.sendMessage]. *)
Definition send (phone text : str) (d : t) : t * bool :=
  (set_sent (sent d ++ [(phone, text)]) d, deliver (sent d) phone text).

Fixpoint requeueAll (now : Z) (ns : list Notification) (d : t) : t :=
  match ns with
  | [] => d
  | n :: rest => requeueAll now rest (requeueNotification now n d)
  end.

Definition processBatch (now : Z) (user : str) (d : t) : t :=
  match getBatch now user d with
  | None => d
  | Some batch =>
      let d := set_batches (delete user (batches d)) d in
      let d := set_batchTimers (delete user (batchTimers d)) d in
      let '(d, success) := send (batchPhoneNumber batch) (formatBatchedNotifications batch) d in
      if success then d else requeueAll now (notifications batch) d
  end.

Definition sendImmediately (now : Z) (n : Notification) (d : t) : t :=
  let '(d, success) := send (phoneNumber n) (formatSingleNotification n) d in
  if success then d else requeueNotification now n d.

(** What the loop of [processQueue] does with one popped item. *)
Definition processItem (now : Z) (item : NotificationQueueItem) (d : t) : t :=
  if isUrgent (priority (notification item))
  then sendImmediately now (notification item) d
  else d.

(** The [while (true)] loop of [processQueue]; [None] when the fuel runs
    out before the queue is empty. *)
Fixpoint drain (fuel : nat) (now : Z) (d : t) : option t :=
  match fuel with
  | O => None
  | S fuel' =>
      match queue d with
      | [] => Some d
      | item :: rest => drain fuel' now (processItem now item (set_queue rest d))
      end
  end.

Definition processQueue (fuel : nat) (now : Z) (d : t) : option t :=
  if isProcessing d then Some d
  else
    match drain fuel now (set_isProcessing true d) with
    | Some d => Some (set_isProcessing false d)
    | None => None
    end.

End WithSender.

(** ** Notifications made from workspace events *)

(** A value of the language, as far as [formatEventNotification] looks at
    it: a string, or some other value, given by its truthiness and by the
    text a template literal prints for it. *)
Inductive value : Type :=
| StringValue (s : str)
| OtherValue (truthy : bool) (shown : str).

Definition truthy (v : value) : bool :=
  match v with
  | StringValue s => negb (falsy s)
  | OtherValue t _ => t
  end.

Definition shown (v : value) : str :=
  match v with
  | StringValue s => s
  | OtherValue _ s => s
  end.

(** The properties of a payload that are read; an absent property is
    [None]. *)
Record Payload : Type := {
  payloadSuccess : option value;
  payloadDuration : option value;
  payloadError : option value;
  payloadMessage : option value;
  payloadOperation : option value;
  payloadPath : option value
}.

(** The event as the backend receives it; the payload may be missing. *)
Record WorkspaceEvent : Type := {
  eventType : EventBroadcaster.WorkspaceEventType;
  eventTimestamp : Z;
  eventPayload : option Payload
}.

(** [event.payload?.p || d], as printed. *)
Definition orDefault (p : Payload -> option value) (event : WorkspaceEvent)
           (d : str) : str :=
  match eventPayload event with
  | Some payload =>
      match p payload with
      | Some v => if truthy v then shown v else d
      | None => d
      end
  | None => d
  end.

(** [event.payload?.success] used as a condition. *)
Definition reportsSuccess (event : WorkspaceEvent) : bool :=
  match eventPayload event with
  | Some payload =>
      match payloadSuccess payload with
      | Some v => truthy v
      | None => false
      end
  | None => false
  end.

Record EventNotification : Type := {
  eventTitle : str;
  eventMessage : str;
  eventPriority : NotificationPriority
}.

(** [formatEventNotification]; the [default] branch of the switch has no
    counterpart, the event types being a closed type. *)
Definition formatEventNotification (event : WorkspaceEvent) : EventNotification :=
  match eventType event with
  | EventBroadcaster.BUILD_COMPLETE =>
      {| eventTitle := lit "Build Complete";
         eventMessage :=
           if reportsSuccess event
           then lit "Build completed successfully in "
                ++ orDefault payloadDuration event (lit "unknown") ++ lit "ms"
           else lit "Build failed: "
                ++ orDefault payloadError event (lit "Unknown error");
         eventPriority := if reportsSuccess event then LOW else HIGH |}
  | EventBroadcaster.ERROR =>
      {| eventTitle := lit "Error Detected";
         eventMessage :=
           orDefault payloadMessage event (lit "An error occurred in your workspace");
         eventPriority := HIGH |}
  | EventBroadcaster.GIT_OPERATION =>
      {| eventTitle := lit "Git Operation";
         eventMessage :=
           orDefault payloadOperation event (lit "Operation") ++ lit " completed: "
           ++ orDefault payloadMessage event [];
         eventPriority := MEDIUM |}
  | EventBroadcaster.FILE_CHANGED =>
      {| eventTitle := lit "File Changed";
         eventMessage :=
           lit "File modified: " ++ orDefault payloadPath event (lit "Unknown file");
         eventPriority := LOW |}
  end.



End NotificationDispatcher.

(* ===================================================================== *)
(** * WorkspaceManagerClient                                              *)
(* ===================================================================== *)

(** The Redis result cache is a map from the key to the stored result and
    the time at which the entry expires; [cacheUp] tells whether Redis
    answers (its errors are caught and read as a miss).  A pending command
    keeps what the closure of its [resolve] captured: the command and its
    cache key.  [executeCommand] is asynchronous: it throws, returns a
    cached result, or leaves a pending command that a later
    [handleCommandResponse] or the timeout settles. *)

Module WorkspaceManagerClient.

Inductive ConnectionState : Type :=
| DISCONNECTED | CONNECTING | CONNECTED | RECONNECTING | ERROR.

Record CommandResult : Type := {
  success : bool;
  data : option str;
  error : option str;
  executionTime : Z;
  fromCache : bool
}.

Record PendingCommand : Type := {
  pendingCommand : Command;
  pendingCacheKey : str;
  timeoutAt : Z
}.

Record t : Type := {
  socket : bool;
  connectionState : ConnectionState;
  commandTimeout : Z;
  pendingCommands : gmap str PendingCommand;
  cache : gmap str (CommandResult * Z);
  cacheUp : bool;
  emitted : list (str * Command)
}.

Definition CACHE_TTL_MS : Z := 300 * 1000.

Definition isConnected (c : t) : bool :=
  match connectionState c with CONNECTED => true | _ => false end.

Definition getCacheKey (command : Command) : str :=
  match command with
  | FileReadCommand _ path => lit "file:" ++ path
  | FileListCommand _ directory => lit "list:" ++ directory
  | StatusCommand _ => lit "status:workspace"
  | _ => []
  end.

Definition shouldCache (command : Command) : bool :=
  match commandType command with
  | FILE_READ | FILE_LIST => true
  | _ => false
  end.

Definition getFromCache (now : Z) (key : str) (c : t) : option CommandResult :=
  if falsy key then None
  else if negb (cacheUp c) then None
  else
    match cache c !! (lit "workspace:cache:" ++ key) with
    | Some (result, expires) =>
        if now <? expires
        then Some {| success := success result; data := data result;
                     error := error result; executionTime := executionTime result;
                     fromCache := true |}
        else None
    | None => None
    end.

Definition set_cache (m : gmap str (CommandResult * Z)) (c : t) : t :=
  {| socket := socket c; connectionState := connectionState c;
     commandTimeout := commandTimeout c; pendingCommands := pendingCommands c;
     cache := m; cacheUp := cacheUp c; emitted := emitted c |}.

Definition set_pendingCommands (m : gmap str PendingCommand) (c : t) : t :=
  {| socket := socket c; connectionState := connectionState c;
     commandTimeout := commandTimeout c; pendingCommands := m;
     cache := cache c; cacheUp := cacheUp c; emitted := emitted c |}.

Definition set_emitted (l : list (str * Command)) (c : t) : t :=
  {| socket := socket c; connectionState := connectionState c;
     commandTimeout := commandTimeout c; pendingCommands := pendingCommands c;
     cache := cache c; cacheUp := cacheUp c; emitted := l |}.

Definition setCache (now : Z) (key : str) (result : CommandResult) (c : t) : t :=
  if falsy key then c
  else if negb (cacheUp c) then c
  else set_cache (<[lit "workspace:cache:" ++ key := (result, now + CACHE_TTL_MS)]> (cache c)) c.

(** How a call of [executeCommand] leaves its caller. *)
Inductive execution : Type :=
| Threw (message : str)
| Returned (result : CommandResult)
| Awaiting (commandId : str).

(** [executeCommand]; [commandId] is what [generateCommandId()] returns. *)
Definition executeCommand (now : Z) (commandId : str) (command : Command) (c : t)
  : t * execution :=
  if negb (isConnected c) then (c, Threw (lit "Not connected to workspace"))
  else if negb (socket c) then (c, Threw (lit "Socket not initialized"))
  else
    let cacheKey := getCacheKey command in
    match getFromCache now cacheKey c with
    | Some cachedResult => (c, Returned cachedResult)
    | None =>
        let pending :=
          {| pendingCommand := command; pendingCacheKey := cacheKey;
             timeoutAt := now + commandTimeout c |} in
        let c := set_pendingCommands (<[commandId := pending]> (pendingCommands c)) c in
        (set_emitted (emitted c ++ [(commandId, command)]) c, Awaiting commandId)
    end.

(** The payload of a COMMAND_RESPONSE message. *)
Record CommandResponse : Type := {
  responseId : str;
  responseSuccess : bool;
  responseData : option str;
  responseError : option str;
  responseExecutionTime : Z
}.

(** [handleCommandResponse]: [None] for an unknown id; otherwise the
    promise of the pending command resolves with a result or rejects. *)
Definition handleCommandResponse (now : Z) (message : CommandResponse) (c : t)
  : t * option (outcome CommandResult) :=
  match pendingCommands c !! responseId message with
  | None => (c, None)
  | Some pending =>
      let c := set_pendingCommands (delete (responseId message) (pendingCommands c)) c in
      if responseSuccess message then
        let result :=
          {| success := responseSuccess message; data := responseData message;
             error := None; executionTime := responseExecutionTime message;
             fromCache := false |} in
        let c :=
          if success result && shouldCache (pendingCommand pending)
          then setCache now (pendingCacheKey pending) result c
          else c in
        (c, Some (Returns result))
      else (c, Some Throws)
  end.

(** The timeout of a pending command fires. *)
Definition commandTimedOut (commandId : str) (c : t) : t :=
  set_pendingCommands (delete commandId (pendingCommands c)) c.

(** [rejectAllPendingCommands]: every pending promise is rejected, its
    timeout cleared, and the map emptied. *)
Definition rejectAllPendingCommands (c : t) : t := set_pendingCommands ∅ c.

(** [disconnect]: the socket is dropped and the pending commands are
    rejected. *)
Definition disconnect (c : t) : t :=
  rejectAllPendingCommands
    {| socket := false; connectionState := DISCONNECTED;
       commandTimeout := commandTimeout c; pendingCommands := pendingCommands c;
       cache := cache c; cacheUp := cacheUp c; emitted := emitted c |}.

End WorkspaceManagerClient.

(* ===================================================================== *)
(** * CommandService                                                      *)
(* ===================================================================== *)

(** The service that parses a message and validates the command. *)
Module CommandService.
Import CommandValidator.

(** [CommandProcessResult]: all fields but [success] are optional. *)
Record CommandProcessResult : Type := {
  success : bool;
  command : option Command;
  error : option str;
  validationErrors : option (list str)
}.

Definition FAILED_TO_PARSE : str := lit "Failed to parse command".
Definition VALIDATION_FAILED : str := lit "Command validation failed".

Section WithRegExp.

Variable compiles : str -> bool.

(** [process]: an exception of the parser is not caught. *)
Definition process (message : str) : outcome CommandProcessResult :=
  match CommandParser.parse message with
  | Throws => Throws
  | Returns parseResult =>
      match CommandParser.success parseResult, CommandParser.command parseResult with
      | true, Some cmd =>
          let validationResult := validate compiles cmd in
          if negb (valid validationResult)
          then Returns {| success := false;
                          command := Some cmd;
                          error := Some VALIDATION_FAILED;
                          validationErrors := Some (errors validationResult) |}
          else Returns {| success := true;
                          command := Some cmd;
                          error := None;
                          validationErrors := None |}
      | _, _ =>
          Returns {| success := false;
                     command := None;
                     error := Some (CommandParser.orElse
                                      (CommandParser.error parseResult)
                                      FAILED_TO_PARSE);
                     validationErrors := None |}
      end
  end.

End WithRegExp.

End CommandService.

(* ===================================================================== *)
(** * RetryService                                                        *)
(* ===================================================================== *)

(** The operation that is retried is a state transformer: a call runs on
    the state of the world and settles, resolving with a value or
    rejecting with what was thrown.  Delays are milliseconds; the numeric
    options are integers.  The [onRetry] callback is the caller's: what it
    throws is caught, and it cannot touch the loop. *)

Module RetryService.

(** What a rejected promise carries: an [Error] with its message, or some
    other value. *)
Inductive thrown : Type :=
| ErrorObject (message : str)
| OtherValue.

Inductive settlement (T : Type) : Type :=
| Resolves (data : T)
| Rejects (e : thrown).
Arguments Resolves {T} data.
Arguments Rejects {T} e.

Record RetryOptions : Type := {
  maxAttempts : Z;
  initialDelayMs : Z;
  maxDelayMs : Z;
  backoffMultiplier : Z;
  retryableErrors : option (list str)
}.

Definition DEFAULT_OPTIONS : RetryOptions :=
  {| maxAttempts := 3; initialDelayMs := 1000; maxDelayMs := 10000;
     backoffMultiplier := 2; retryableErrors := None |}.

(** [RetryResult]; an error is represented by its message. *)
Record RetryResult (T : Type) : Type := {
  success : bool;
  data : option T;
  error : option str;
  attempts : Z
}.
Arguments success {T} r.
Arguments data {T} r.
Arguments error {T} r.
Arguments attempts {T} r.

(** [error instanceof Error ? error : new Error('Unknown error')] *)
Definition asError (e : thrown) : str :=
  match e with
  | ErrorObject message => message
  | OtherValue => lit "Unknown error"
  end.

Definition calculateDelay (attempt initialDelayMs maxDelayMs backoffMultiplier : Z) : Z :=
  let delay := initialDelayMs * backoffMultiplier ^ (attempt - 1) in
  Z.min delay maxDelayMs.

Section WithOperation.

(** [toLowerCase] of the language. *)
Variable toLowerCase : str -> str.

Definition isRetryableError (error : str) (retryablePatterns : list str) : bool :=
  let errorMessage := toLowerCase error in
  existsb (fun pattern => includes errorMessage (toLowerCase pattern))
          retryablePatterns.

Variables (W T : Type).
Variable fn : W -> settlement T * W.

Variable options : RetryOptions.

(** What a run leaves behind: the state of the world and the delays
    slept, in order. *)
Record trace : Type := {
  world : W;
  slept : list Z
}.

(** The loop of [executeWithRetry].  [attempt] counts up from 0 by one and
    the loop runs while it is below [maxAttempts]: [remaining] is the
    number of iterations left. *)
Fixpoint attemptLoop (remaining : nat) (attempt : Z) (lastError : option str)
         (w : W) (sleeps : list Z) : RetryResult T * trace :=
  match remaining with
  | O =>
      ({| success := false; data := None; error := lastError;
          attempts := maxAttempts options |},
       {| world := w; slept := sleeps |})
  | S remaining' =>
      let attempt := attempt + 1 in
      match fn w with
      | (Resolves result, w) =>
          ({| success := true; data := Some result; error := None;
              attempts := attempt |},
           {| world := w; slept := sleeps |})
      | (Rejects e, w) =>
          let lastError := asError e in
          let stop :=
            match retryableErrors options with
            | Some patterns => negb (isRetryableError lastError patterns)
            | None => false
            end in
          if stop
          then ({| success := false; data := None; error := Some lastError;
                   attempts := attempt |},
                {| world := w; slept := sleeps |})
          else
            let sleeps :=
              if attempt <? maxAttempts options
              then sleeps ++ [calculateDelay attempt (initialDelayMs options)
                                (maxDelayMs options) (backoffMultiplier options)]
              else sleeps in
            attemptLoop remaining' attempt (Some lastError) w sleeps
      end
  end.

Definition executeWithRetry (w : W) : RetryResult T * trace :=
  attemptLoop (Z.to_nat (maxAttempts options)) 0 None w [].

End WithOperation.

Arguments world {W} t.
Arguments slept {W} t.
Arguments attemptLoop toLowerCase {W T} fn options remaining attempt lastError w sleeps.
Arguments executeWithRetry toLowerCase {W T} fn options w.

End RetryService.

(* ===================================================================== *)
(** * ResilientWhatsAppService                                            *)
(* ===================================================================== *)

(** Sending one message through the circuit breaker, with retries inside.
    The clock is read by the breaker when [execute] is called ([started])
    and when the protected operation has settled ([settled]). *)

Module ResilientWhatsAppService.
Import RetryService.

(** The options of the [whatsapp-api] breaker. *)
Definition BREAKER_OPTIONS : CircuitBreaker.CircuitBreakerOptions :=
  {| CircuitBreaker.failureThreshold := 5;
     CircuitBreaker.successThreshold := 2;
     CircuitBreaker.timeout := 60000;
     CircuitBreaker.resetTimeout := 300000 |}.

(** The options of the retry; [maxDelayMs] is left to its default. *)
Definition RETRY_OPTIONS : RetryOptions :=
  {| maxAttempts := 3;
     initialDelayMs := 1000;
     maxDelayMs := maxDelayMs DEFAULT_OPTIONS;
     backoffMultiplier := 2;
     retryableErrors :=
       Some [lit "network"; lit "timeout"; lit "econnrefused"; lit "etimedout"] |}.

(** An attempt made on the client: the recipient and the text. *)
Definition attempt : Type := str * str.

Record t : Type := {
  circuitBreaker : CircuitBreaker.t;
  log : list attempt
}.

Section WithClient.

Variable toLowerCase : str -> str.

(** [whatsappClient.sendMessage]: [None] when the promise resolves, what
    it rejects with otherwise; the client sees the attempts made so far. *)
Variable client : list attempt -> str -> str -> option thrown.

(** The operation that is retried. *)
Definition send (phoneNumber message : str) (log : list attempt)
  : settlement unit * list attempt :=
  (match client log phoneNumber message with
   | None => Resolves tt
   | Some e => Rejects e
   end,
   log ++ [(phoneNumber, message)]).

(** The operation handed to the breaker: it awaits [executeWithRetry] and
    drops its result. *)
Definition protectedOperation (phoneNumber message : str) (log : list attempt)
  : settlement unit * list attempt :=
  let '(_, tr) :=
    executeWithRetry toLowerCase (send phoneNumber message) RETRY_OPTIONS log in
  (Resolves tt, world tr).

Definition sendSingleMessage (started settled : Z) (phoneNumber message : str)
           (s : t) : t * bool :=
  let op := protectedOperation phoneNumber message (log s) in
  let c := {| CircuitBreaker.started := started;
              CircuitBreaker.settled := settled;
              CircuitBreaker.resolves :=
                match fst op with Resolves _ => true | Rejects _ => false end |} in
  match CircuitBreaker.execute BREAKER_OPTIONS c (circuitBreaker s) with
  | (b, CircuitBreaker.Resolved) => ({| circuitBreaker := b; log := snd op |}, true)
  | (b, CircuitBreaker.Rejected) => ({| circuitBreaker := b; log := snd op |}, false)
  | (b, CircuitBreaker.FailedFast) => ({| circuitBreaker := b; log := log s |}, false)
  end.

(** One request to send: the two clock readings, the recipient and the
    text. *)
Record request : Type := {
  started : Z;
  settled : Z;
  phoneNumber : str;
  message : str
}.

(** Requests served one after the other, with what each returned. *)
Fixpoint sendAll (requests : list request) (s : t) : t * list bool :=
  match requests with
  | [] => (s, [])
  | r :: rest =>
      let '(s, sent) :=
        sendSingleMessage (started r) (settled r) (phoneNumber r) (message r) s in
      let '(s, sents) := sendAll rest s in
      (s, sent :: sents)
  end.

End WithClient.

End ResilientWhatsAppService.

(* ===================================================================== *)
(** * SettingsValidator (the extension's settings panel)                  *)
(* ===================================================================== *)

Module SettingsValidator.
Import Regex.

Record SettingsData : Type := {
  notificationEnabled : bool;
  notificationTypes : list str;
  accessibleDirectories : list str;
  readOnlyMode : bool
}.

Record ValidationResult : Type := {
  valid : bool;
  errors : list str
}.

Definition AT_LEAST_ONE_TYPE : str :=
  lit "At least one notification type must be selected when notifications are enabled".
Definition INVALID_TYPE (type : str) : str := lit "Invalid notification type: " ++ type.
Definition EMPTY_DIRECTORY : str := lit "Directory paths cannot be empty".
(** The text [Directory paths cannot contain ".." (parent directory references)] *)
Definition PARENT_REFERENCE : str :=
  lit "Directory paths cannot contain " ++ [34] ++ lit ".." ++ [34]
  ++ lit " (parent directory references)".
Definition NOT_RELATIVE : str := lit "Directory paths should be relative to workspace root".
Definition DUPLICATES : str := lit "Duplicate directories are not allowed".

Definition validTypes : list str :=
  [lit "BUILD_COMPLETE"; lit "ERROR"; lit "GIT_OPERATION"; lit "FILE_CHANGED"].

(** [a === b] on strings. *)
Definition sameString (a b : str) : bool := bool_decide (a = b).

(** [array.includes(x)] *)
Definition arrayIncludes (array : list str) (x : str) : bool :=
  existsb (sameString x) array.

(** [array.indexOf(x)], counting from [i]; -1 when [x] is not there. *)
Fixpoint indexOfFrom (array : list str) (x : str) (i : Z) : Z :=
  match array with
  | [] => -1
  | y :: rest => if sameString y x then i else indexOfFrom rest x (i + 1)
  end.

Definition indexOf (array : list str) (x : str) : Z := indexOfFrom array x 0.

(** [array.filter((x, index) => p(x, index))], counting from [i]. *)
Fixpoint filterFrom (p : str -> Z -> bool) (array : list str) (i : Z) : list str :=
  match array with
  | [] => []
  | x :: rest =>
      if p x i then x :: filterFrom p rest (i + 1) else filterFrom p rest (i + 1)
  end.

(** [new Set(array).size]: the number of distinct strings. *)
Definition setSize (array : list str) : nat := length (remove_dups array).

(** The pattern of a drive letter and a colon at the start. *)
Definition drivePrefix : regex := seq [Bol; letter; chr 58].

(** The first loop of [validate]: one error for each type that is not
    valid. *)
Fixpoint checkTypes (types : list str) (errors : list str) : list str :=
  match types with
  | [] => errors
  | type :: rest =>
      checkTypes rest
        (if negb (arrayIncludes validTypes type)
         then errors ++ [INVALID_TYPE type] else errors)
  end.

(** The second loop: it ends at the first directory that is refused. *)
Fixpoint checkDirectories (dirs : list str) (errors : list str) : list str :=
  match dirs with
  | [] => errors
  | dir :: rest =>
      if falsy dir || falsy (trim dir) then errors ++ [EMPTY_DIRECTORY]
      else if includes dir (lit "..") then errors ++ [PARENT_REFERENCE]
      else if startsWith dir (lit "/") || test drivePrefix dir
           then errors ++ [NOT_RELATIVE]
      else checkDirectories rest errors
  end.

Definition validate (settings : SettingsData) : ValidationResult :=
  let errors := [] in
  let errors :=
    if notificationEnabled settings
       && Nat.eqb (length (notificationTypes settings)) 0
    then errors ++ [AT_LEAST_ONE_TYPE] else errors in
  let errors := checkTypes (notificationTypes settings) errors in
  let errors := checkDirectories (accessibleDirectories settings) errors in
  let errors :=
    if negb (Nat.eqb (setSize (accessibleDirectories settings))
                     (length (accessibleDirectories settings)))
    then errors ++ [DUPLICATES] else errors in
  {| valid := Nat.eqb (length errors) 0; errors := errors |}.

(** The last filter of [sanitize]: a directory stays where it occurs
    first. *)
Definition firstOccurrences (self : list str) : list str :=
  filterFrom (fun dir index => indexOf self dir =? index) self 0.

Definition sanitize (settings : SettingsData) : SettingsData :=
  {| notificationEnabled := notificationEnabled settings;
     notificationTypes :=
       List.filter (fun type => arrayIncludes validTypes type)
                   (notificationTypes settings);
     accessibleDirectories :=
       firstOccurrences
         (List.filter (fun dir => negb (falsy dir) && negb (includes dir (lit "..")))
                      (List.map trim (accessibleDirectories settings)));
     readOnlyMode := readOnlyMode settings |}.

End SettingsValidator.

(* ===================================================================== *)
(** * rateLimitMiddleware                                                 *)
(* ===================================================================== *)

(** The counters live in Redis: a key holds an integer and, maybe, the
    time at which it expires.  A request reads the clock three times: when
    the counter is read, when it is written, and when the headers are
    set. *)

Module RateLimit.








(** What the middleware looks at in a request: the identifier that
    [extractIdentifier] finds, whether Redis answers, and the three clock
    readings. *)
Record request : Type := {
  identifier : option str;
  redisUp : bool;
  atGet : Z;
  atSet : Z;
  atHeaders : Z
}.

(** The three rate-limit headers: limit, remaining, reset. *)
Record headers : Type := {
  limit : Z;
  remaining : Z;
  reset : Z
}.

Inductive response : Type :=
| Next (h : option headers)      (* next() was called *)
| TooManyRequests.               (* status 429 *)

Section WithLimit.

(** [MAX_REQUESTS], the integer read from the environment when the module
    loads. *)
Variable MAX_REQUESTS : Z.



End WithLimit.

End RateLimit.

(* ===================================================================== *)
(** * The statements of the specification                                 *)
(* ===================================================================== *)

(** Predicates that follow the words of the specification; the theorems
    below compare the code with them. *)

(** ** Validation rules *)

(** A slash of either kind. *)
Definition isSlash (c : Z) : Prop := c = 47 \/ c = 92.

Definition isDriveLetter (c : Z) : Prop := 65 <= c <= 90 \/ 97 <= c <= 122.

(** The three absolute forms: Unix [/...], Windows drive [X:\...] (with a
    slash of either kind), and UNC [\\...]. *)
Definition absoluteForm (path : str) : Prop :=
  (exists rest, path = 47 :: rest)
  \/ (exists d s rest, path = d :: 58 :: s :: rest /\ isDriveLetter d /\ isSlash s)
  \/ (exists rest, path = 92 :: 92 :: rest).

(** The substring [..] occurs somewhere in the path. *)
Definition containsDotDot (path : str) : Prop :=
  exists pre post, path = pre ++ lit ".." ++ post.

(** A [..] segment: two dots standing between separators or the ends. *)
Definition traversalSegment (path : str) : Prop :=
  exists pre post,
    path = pre ++ lit ".." ++ post
    /\ (pre = [] \/ exists pre' s, pre = pre' ++ [s] /\ isSlash s)
    /\ (post = [] \/ exists s post', post = s :: post' /\ isSlash s).

(** One of the characters [<], [>], [:], the double quote, [|], [?], [*],
    or a control code unit. *)
Definition isForbidden (c : Z) : Prop :=
  In c (lit "<>:|?*") \/ c = 34 \/ 0 <= c <= 31.

Definition hasForbiddenChar (path : str) : Prop :=
  exists c, In c path /\ isForbidden c.


(** ** Parse results *)

(** A result holds either a command or an error, never both and never
    neither. *)
Definition eitherCommandOrError (r : CommandParser.ParseResult) : Prop :=
  (CommandParser.success r = true
   /\ is_Some (CommandParser.command r) /\ CommandParser.error r = None)
  \/ (CommandParser.success r = false
      /\ CommandParser.command r = None /\ is_Some (CommandParser.error r)).

(** The two shapes of a result. *)
Definition parsed (c : Command) : CommandParser.ParseResult :=
  {| CommandParser.success := true;
     CommandParser.command := Some c;
     CommandParser.error := None |}.

Definition failed (e : str) : CommandParser.ParseResult :=
  {| CommandParser.success := false;
     CommandParser.command := None;
     CommandParser.error := Some e |}.

(** ** Notification formats *)

(** The single format, [{icon} *{title}*\n\n{body}]. *)
Definition singleFormat (n : NotificationDispatcher.Notification) : str :=
  NotificationDispatcher.getEmojiForType (NotificationDispatcher.type n)
  ++ lit " *" ++ NotificationDispatcher.title n ++ lit "*" ++ [10; 10]
  ++ NotificationDispatcher.message n.

(** The header of a batch of [k], a bell and [*k Workspace Updates*]. *)
Definition updatesHeader (k : nat) : str :=
  NotificationDispatcher.bell ++ lit " *" ++ ofNat k ++ lit " Workspace Updates*".

(** The entry numbered [i], [{i}. {icon} *{title}*\n   {body}]. *)
Definition numberedEntry (i : nat) (n : NotificationDispatcher.Notification) : str :=
  ofNat i ++ lit ". "
  ++ NotificationDispatcher.getEmojiForType (NotificationDispatcher.type n)
  ++ lit " *" ++ NotificationDispatcher.title n ++ lit "*" ++ [10]
  ++ lit "   " ++ NotificationDispatcher.message n.

(** The entries of the notifications in their order, numbered from [i]. *)
Fixpoint numberedList (i : nat) (ns : list NotificationDispatcher.Notification)
  : list str :=
  match ns with
  | [] => []
  | n :: rest => numberedEntry i n :: numberedList (S i) rest
  end.

(** The parts of a text, separated by a blank line. *)
Fixpoint blankLineSeparated (parts : list str) : str :=
  match parts with
  | [] => []
  | [p] => p
  | p :: rest => p ++ [10; 10] ++ blankLineSeparated rest
  end.

(** The numbered-list format: the header, then the entries, 1-indexed. *)
Definition numberedFormat (ns : list NotificationDispatcher.Notification) : str :=
  blankLineSeparated (updatesHeader (length ns) :: numberedList 1 ns).

(** The text ends with a code unit that is not white space. *)
Definition endsVisibly (s : str) : Prop :=
  exists s' c, s = s' ++ [c] /\ isSpace c = false.

(** ** The drain loop *)

(** The delivery attempted for a notification sent on its own. *)
Definition immediateDelivery (n : NotificationDispatcher.Notification)
  : NotificationDispatcher.delivery :=
  (NotificationDispatcher.phoneNumber n, singleFormat n).

Definition urgentItem (item : NotificationDispatcher.NotificationQueueItem) : bool :=
  NotificationDispatcher.isUrgent
    (NotificationDispatcher.priority (NotificationDispatcher.notification item)).

(** The items the drain loop removes from the queue, in order. *)
Fixpoint removedItems (deliver : list NotificationDispatcher.delivery -> str -> str -> bool)
         (fuel : nat) (now : Z) (d : NotificationDispatcher.t)
  : list NotificationDispatcher.NotificationQueueItem :=
  match fuel with
  | O => []
  | S fuel' =>
      match NotificationDispatcher.queue d with
      | [] => []
      | item :: rest =>
          item :: removedItems deliver fuel' now
                    (NotificationDispatcher.processItem deliver now item
                       (NotificationDispatcher.set_queue rest d))
      end
  end.

(** ** Runs of calls through the circuit breaker *)

(** Every call of the run fails, or every call succeeds. *)
Definition allFail (cs : list CircuitBreaker.call) : Prop :=
  Forall (fun c => CircuitBreaker.resolves c = false) cs.

Definition allSucceed (cs : list CircuitBreaker.call) : Prop :=
  Forall (fun c => CircuitBreaker.resolves c = true) cs.

(** The failure counter is not reset during the run: each call settles
    after it started and before the reset timer that is pending then
    ([pending], armed by the failure before it) has fired. *)
Fixpoint settlesBeforeReset (options : CircuitBreaker.CircuitBreakerOptions)
         (pending : option Z) (cs : list CircuitBreaker.call) : Prop :=
  match cs with
  | [] => True
  | c :: cs' =>
      CircuitBreaker.started c <= CircuitBreaker.settled c
      /\ (forall deadline, pending = Some deadline -> CircuitBreaker.settled c < deadline)
      /\ settlesBeforeReset options
           (Some (CircuitBreaker.settled c + CircuitBreaker.resetTimeout options)) cs'
  end.

(** ** The throttle *)

(** The arrival is of type [ty]. *)
Definition ofType (ty : EventBroadcaster.WorkspaceEventType)
           (a : EventBroadcaster.arrival) : bool :=
  bool_decide (EventBroadcaster.type (snd a) = ty).

(** The arrival falls in the interval of length [w] that starts at [from]. *)
Definition inInterval (from w : Z) (a : EventBroadcaster.arrival) : bool :=
  (from <=? fst a) && (fst a <? from + w).

(** How many of the arrivals are of type [ty] and fall in that interval. *)
Definition forwardedIn (ty : EventBroadcaster.WorkspaceEventType) (from w : Z)
           (forwarded : list EventBroadcaster.arrival) : Z :=
  Z.of_nat (length (List.filter (fun a => ofType ty a && inInterval from w a) forwarded)).

(** How many of the arrivals are of type [ty] and less than [w] old at [now]. *)
Definition heldAt (ty : EventBroadcaster.WorkspaceEventType) (now w : Z)
           (forwarded : list EventBroadcaster.arrival) : Z :=
  Z.of_nat (length (List.filter (fun a => ofType ty a && (now - fst a <? w)) forwarded)).

(** The clock never goes back from one arrival to the next, starting at
    [clock]. *)
Fixpoint clockOrdered (clock : Z) (arrivals : list EventBroadcaster.arrival) : Prop :=
  match arrivals with
  | [] => True
  | a :: rest => clock <= fst a /\ clockOrdered (fst a) rest
  end.

(** Every event of type [ty] carries the time of its arrival as its
    timestamp. *)
Definition stampedOnArrival (ty : EventBroadcaster.WorkspaceEventType)
           (arrivals : list EventBroadcaster.arrival) : Prop :=
  Forall (fun a => EventBroadcaster.type (snd a) = ty ->
                   EventBroadcaster.timestamp (snd a) = fst a) arrivals.

(** The state of the throttle for [ty] accounts for the arrivals of that
    type forwarded so far, [past], at a time when the clock reads [clock]. *)
Definition accountsFor (ty : EventBroadcaster.WorkspaceEventType)
           (config : EventBroadcaster.ThrottleConfig)
           (past : list EventBroadcaster.arrival) (clock : Z)
           (b : EventBroadcaster.t) : Prop :=
  EventBroadcaster.throttleConfig b !! ty = Some config
  /\ Forall (fun a => EventBroadcaster.type (snd a) = ty
                      /\ EventBroadcaster.timestamp (snd a) = fst a
                      /\ fst a <= clock) past
  /\ match EventBroadcaster.throttleState b !! ty with
     | None => past = []
     | Some st =>
         EventBroadcaster.lastBroadcast st <= clock
         /\ Forall (fun a => fst a <= EventBroadcaster.lastBroadcast st) past
         /\ EventBroadcaster.events st
            = EventBroadcaster.eventsInWindow (EventBroadcaster.lastBroadcast st)
                (EventBroadcaster.windowMs config) (List.map snd past)
     end.

(** The clock reading of the last arrival, [clock] when there is none. *)
Fixpoint lastClock (clock : Z) (arrivals : list EventBroadcaster.arrival) : Z :=
  match arrivals with
  | [] => clock
  | a :: rest => lastClock (fst a) rest
  end.

(** No interval of length [w] holds more than [m] forwarded arrivals of
    type [ty]. *)
Definition boundedRate (ty : EventBroadcaster.WorkspaceEventType) (w m : Z)
           (forwarded : list EventBroadcaster.arrival) : Prop :=
  forall from, forwardedIn ty from w forwarded <= m.

(** ** Chunking *)

(** The split point [i] lies just after the last occurrence of the code
    unit [c] at an index of at most 4096, that index being beyond 70 per
    cent of the limit (2867.2). *)
Definition splitsAfterLast (c : Z) (remaining : str) (i : Z) : Prop :=
  exists k,
    i = k + 1 /\ 2867 < k <= 4096
    /\ remaining !! Z.to_nat k = Some c
    /\ forall j, k < j <= 4096 -> remaining !! Z.to_nat j <> Some c.

(** No occurrence of the code unit [c] at an index beyond 70 per cent of
    the limit and of at most 4096. *)
Definition noneBeyondSeventyPercent (c : Z) (remaining : str) : Prop :=
  forall j, 2867 < j <= 4096 -> remaining !! Z.to_nat j <> Some c.

(** Split after a newline if one is there, else after a space if one is
    there, else at the limit. *)
Definition preferredSplit (remaining : str) (i : Z) : Prop :=
  splitsAfterLast 10 remaining i
  \/ (noneBeyondSeventyPercent 10 remaining /\ splitsAfterLast 32 remaining i)
  \/ (noneBeyondSeventyPercent 10 remaining /\ noneBeyondSeventyPercent 32 remaining
      /\ i = WhatsAppSender.MAX_MESSAGE_LENGTH).

(** The chunks of a text: nothing for the empty text, the text itself when
    it fits, and otherwise the trimmed part before the split point followed
    by the chunks of the trimmed rest. *)
Inductive chunksOf : str -> list str -> Prop :=
| chunksOf_empty : chunksOf [] []
| chunksOf_fits (remaining : str) :
    0 < len remaining <= WhatsAppSender.MAX_MESSAGE_LENGTH ->
    chunksOf remaining [remaining]
| chunksOf_split (remaining : str) (i : Z) (rest : list str) :
    WhatsAppSender.MAX_MESSAGE_LENGTH < len remaining ->
    i = WhatsAppSender.splitIndex remaining ->
    preferredSplit remaining i ->
    chunksOf (trim (drop (Z.to_nat i) remaining)) rest ->
    chunksOf remaining (trim (take (Z.to_nat i) remaining) :: rest).

(** The texts handed to the client for the chunks, numbered from [i] out of
    [n]: every one carries the part header when there is more than one
    chunk, and none does otherwise. *)
Fixpoint labelled (i n : nat) (chunks : list str) : list str :=
  match chunks with
  | [] => []
  | chunk :: rest =>
      ((if (1 <? n)%nat
        then lit "[Part " ++ ofNat (S i) ++ lit "/" ++ ofNat n ++ lit "]" ++ [10; 10]
        else []) ++ chunk) :: labelled (S i) n rest
  end.

(** The attempts made for a sequence of texts sent in order, the [j]-th
    text being attempted [counts !! j] times. *)
Fixpoint attemptsInOrder (phone : str) (texts : list str) (counts : list nat)
  : list WhatsAppSender.attempt :=
  match texts, counts with
  | text :: texts', r :: counts' =>
      repeat (phone, text) r ++ attemptsInOrder phone texts' counts'
  | _, _ => []
  end.

(** ** Normalised messages *)

(** The text starts with a code unit that is not white space. *)
Definition startsVisibly (s : str) : Prop :=
  exists c s', s = c :: s' /\ isSpace c = false.

(** Every white-space code unit of the text is a space that stands between
    two visible code units; [prev] tells that the code unit before the text
    was white space (or that the text is at the start). *)
Fixpoint singleSpaced (prev : bool) (s : str) : bool :=
  match s with
  | [] => negb prev
  | c :: s' =>
      if isSpace c then (c =? 32) && negb prev && singleSpaced true s'
      else singleSpaced false s'
  end.

(** The last code unit of the text is visible; for the empty text, the
    code unit before it was ([prev] is false). *)
Fixpoint lastVisible (prev : bool) (s : str) : bool :=
  match s with
  | [] => negb prev
  | c :: s' => lastVisible (isSpace c) s'
  end.

(** The argument a parsed command carries: the path, the directory or
    the query. *)
Definition argument (c : Command) : option str :=
  match c with
  | FileReadCommand _ path => Some path
  | FileListCommand _ directory => Some directory
  | SearchCommand _ query _ => Some query
  | StatusCommand _ | HelpCommand _ => None
  end.

(** [mentions g r]: the capturing group [g] occurs in the pattern. *)
Fixpoint mentions (g : nat) (r : Regex.regex) : bool :=
  match r with
  | Regex.Seq r1 r2 | Regex.Alt r1 r2 => mentions g r1 || mentions g r2
  | Regex.Star _ r' => mentions g r'
  | Regex.Group i r' => Nat.eqb i g || mentions g r'
  | _ => false
  end.

(** ** Acceptance *)

(** The paths of the rules, and nothing else. *)
Definition acceptablePath (path : str) : Prop :=
  path <> [] /\ len path <= 500
  /\ ~ absoluteForm path /\ ~ containsDotDot path /\ ~ hasForbiddenChar path.

(** The queries of the rules, with the optional pattern: an empty pattern
    counts as none. *)
Definition acceptableSearch (compiles : str -> bool) (query : str)
           (pattern : option str) : Prop :=
  2 <= len query <= 200
  /\ forall p, pattern = Some p -> p <> [] -> len p <= 200 /\ compiles p = true.

(** The commands that satisfy every rule. *)
Definition acceptableCommand (compiles : str -> bool) (c : Command) : Prop :=
  match c with
  | FileReadCommand _ path => acceptablePath path
  | FileListCommand _ directory => acceptablePath directory
  | SearchCommand _ query pattern => acceptableSearch compiles query pattern
  | StatusCommand _ | HelpCommand _ => True
  end.

(** One of the three messages that report a missing argument. *)
Definition reportsMissing (e : str) : Prop :=
  e = ValidationErrors.PATH_REQUIRED
  \/ e = ValidationErrors.DIRECTORY_REQUIRED
  \/ e = ValidationErrors.QUERY_REQUIRED.

(** ** Runs of calls, continued *)

(** The results of the calls of a run, in order. *)
Fixpoint results (options : CircuitBreaker.CircuitBreakerOptions)
         (cs : list CircuitBreaker.call) (b : CircuitBreaker.t)
  : list CircuitBreaker.result :=
  match cs with
  | [] => []
  | c :: cs' =>
      snd (CircuitBreaker.execute options c b)
      :: results options cs' (fst (CircuitBreaker.execute options c b))
  end.

Definition isResolved (r : CircuitBreaker.result) : bool :=
  match r with CircuitBreaker.Resolved => true | _ => false end.

Definition isRejected (r : CircuitBreaker.result) : bool :=
  match r with CircuitBreaker.Rejected => true | _ => false end.

Definition isFailedFast (r : CircuitBreaker.result) : bool :=
  match r with CircuitBreaker.FailedFast => true | _ => false end.

(** How many of the results satisfy [p]. *)
Definition howMany (p : CircuitBreaker.result -> bool)
           (rs : list CircuitBreaker.result) : Z :=
  Z.of_nat (length (List.filter p rs)).

(** No [threshold] calls in a row fail, [k] calls having failed in a row
    just before the run. *)
Fixpoint failuresInARowBelow (threshold k : Z) (cs : list CircuitBreaker.call)
  : Prop :=
  match cs with
  | [] => True
  | c :: cs' =>
      if CircuitBreaker.resolves c
      then failuresInARowBelow threshold 0 cs'
      else k + 1 < threshold /\ failuresInARowBelow threshold (k + 1) cs'
  end.

(** What every reachable breaker satisfies: an open circuit has its
    cooldown set, and the counters are not negative. *)
Definition sound (b : CircuitBreaker.t) : Prop :=
  (CircuitBreaker.state b = CircuitBreaker.OPEN ->
   is_Some (CircuitBreaker.nextAttemptTime b))
  /\ 0 <= CircuitBreaker.failureCount b /\ 0 <= CircuitBreaker.successCount b.

(** ** Retries *)

(** How the first [n] calls of the operation settle, from the state [w],
    and the state they leave. *)
Fixpoint settlements {W T : Type} (fn : W -> RetryService.settlement T * W)
         (n : nat) (w : W) : list (RetryService.settlement T) :=
  match n with
  | O => []
  | S n' => fst (fn w) :: settlements fn n' (snd (fn w))
  end.

Fixpoint worldAfter {W T : Type} (fn : W -> RetryService.settlement T * W)
         (n : nat) (w : W) : W :=
  match n with
  | O => w
  | S n' => worldAfter fn n' (snd (fn w))
  end.

(** A rejection after which the loop goes on: there is no list of
    retryable patterns, or the message of the error matches one. *)
Definition retryable {T : Type} (toLowerCase : str -> str)
           (options : RetryService.RetryOptions)
           (s : RetryService.settlement T) : bool :=
  match s with
  | RetryService.Resolves _ => false
  | RetryService.Rejects e =>
      match RetryService.retryableErrors options with
      | Some patterns =>
          RetryService.isRetryableError toLowerCase (RetryService.asError e) patterns
      | None => true
      end
  end.

(** The back-off delays that follow the attempts [first], [first + 1], ...,
    [count] of them. *)
Definition backoffDelays (options : RetryService.RetryOptions) (first : Z)
           (count : nat) : list Z :=
  List.map (fun k => RetryService.calculateDelay (first + Z.of_nat k)
                       (RetryService.initialDelayMs options)
                       (RetryService.maxDelayMs options)
                       (RetryService.backoffMultiplier options))
           (List.seq 0 count).

(** What the result says about the last attempt. *)
Definition reports {T : Type} (toLowerCase : str -> str)
           (options : RetryService.RetryOptions)
           (r : RetryService.RetryResult T) (n : Z)
           (last : RetryService.settlement T) : Prop :=
  match last with
  | RetryService.Resolves d =>
      r = {| RetryService.success := true; RetryService.data := Some d;
             RetryService.error := None; RetryService.attempts := n |}
  | RetryService.Rejects e =>
      r = {| RetryService.success := false; RetryService.data := None;
             RetryService.error := Some (RetryService.asError e);
             RetryService.attempts := n |}
      /\ (retryable toLowerCase options last = true ->
          n = RetryService.maxAttempts options)
  end.

(** ** The throttle, continued *)

(** Two broadcasters agree on the type [ty]: same configuration and same
    window for it. *)
Definition agreeOn (ty : EventBroadcaster.WorkspaceEventType)
           (b b' : EventBroadcaster.t) : Prop :=
  EventBroadcaster.throttleConfig b !! ty = EventBroadcaster.throttleConfig b' !! ty
  /\ EventBroadcaster.throttleState b !! ty = EventBroadcaster.throttleState b' !! ty.

(** The type is not throttled: it has no configuration, or one that is
    disabled. *)
Definition unthrottled (ty : EventBroadcaster.WorkspaceEventType)
           (b : EventBroadcaster.t) : Prop :=
  match EventBroadcaster.throttleConfig b !! ty with
  | None => True
  | Some config => EventBroadcaster.enabled config = false
  end.

(** ** Chunks, continued *)

(** The visible code units of a text: all but the white space. *)
Definition visible (s : str) : str := List.filter (fun c => negb (isSpace c)) s.

(** ** Batches, continued *)

(** The queue item [requeueNotification] makes at [now]. *)
Definition requeued (now : Z) (n : NotificationDispatcher.Notification)
  : NotificationDispatcher.NotificationQueueItem :=
  {| NotificationDispatcher.notification := n;
     NotificationDispatcher.retryCount := 0;
     NotificationDispatcher.scheduledAt := now + NotificationDispatcher.RETRY_DELAY_MS |}.

(** The events as the extension declares them (event-types.ts), seen
    through the properties the backend reads.  The payload of a
    BuildCompleteEvent has the properties [status], [duration], [errors]
    and [warnings]: of those that are read, [duration] only.  The payload
    of a FileChangedEvent has [filePath] and [changeType]: none of those
    that are read. *)
Definition buildCompleteEvent (timestamp : Z) (duration : NotificationDispatcher.value)
  : NotificationDispatcher.WorkspaceEvent :=
  {| NotificationDispatcher.eventType := EventBroadcaster.BUILD_COMPLETE;
     NotificationDispatcher.eventTimestamp := timestamp;
     NotificationDispatcher.eventPayload :=
       Some {| NotificationDispatcher.payloadSuccess := None;
               NotificationDispatcher.payloadDuration := Some duration;
               NotificationDispatcher.payloadError := None;
               NotificationDispatcher.payloadMessage := None;
               NotificationDispatcher.payloadOperation := None;
               NotificationDispatcher.payloadPath := None |} |}.

Definition fileChangedEvent (timestamp : Z) : NotificationDispatcher.WorkspaceEvent :=
  {| NotificationDispatcher.eventType := EventBroadcaster.FILE_CHANGED;
     NotificationDispatcher.eventTimestamp := timestamp;
     NotificationDispatcher.eventPayload :=
       Some {| NotificationDispatcher.payloadSuccess := None;
               NotificationDispatcher.payloadDuration := None;
               NotificationDispatcher.payloadError := None;
               NotificationDispatcher.payloadMessage := None;
               NotificationDispatcher.payloadOperation := None;
               NotificationDispatcher.payloadPath := None |} |}.

(** ** The result cache, continued *)

(** The result a successful response carries. *)
Definition resultOf (response : WorkspaceManagerClient.CommandResponse)
  : WorkspaceManagerClient.CommandResult :=
  {| WorkspaceManagerClient.success := true;
     WorkspaceManagerClient.data := WorkspaceManagerClient.responseData response;
     WorkspaceManagerClient.error := None;
     WorkspaceManagerClient.executionTime :=
       WorkspaceManagerClient.responseExecutionTime response;
     WorkspaceManagerClient.fromCache := false |}.

(** The same result, marked as read from the cache. *)
Definition cachedCopy (result : WorkspaceManagerClient.CommandResult)
  : WorkspaceManagerClient.CommandResult :=
  {| WorkspaceManagerClient.success := WorkspaceManagerClient.success result;
     WorkspaceManagerClient.data := WorkspaceManagerClient.data result;
     WorkspaceManagerClient.error := WorkspaceManagerClient.error result;
     WorkspaceManagerClient.executionTime := WorkspaceManagerClient.executionTime result;
     WorkspaceManagerClient.fromCache := true |}.

(** ** Settings *)

(** A directory the settings accept: not blank, without two dots in a
    row, and neither rooted nor on a drive. *)
Definition relativeDirectory (dir : str) : Prop :=
  trim dir <> []
  /\ ~ containsDotDot dir
  /\ ~ (exists rest, dir = 47 :: rest)
  /\ ~ (exists l rest, dir = l :: 58 :: rest /\ isDriveLetter l).

(** A directory is refused for exactly one reason, the first that
    applies. *)
Definition refusal (dir : str) : option str :=
  if falsy dir || falsy (trim dir) then Some SettingsValidator.EMPTY_DIRECTORY
  else if includes dir (lit "..") then Some SettingsValidator.PARENT_REFERENCE
  else if startsWith dir (lit "/") || Regex.test SettingsValidator.drivePrefix dir
       then Some SettingsValidator.NOT_RELATIVE
  else None.

(** ** Rate limiting *)




(* ===================================================================== *)
(** * Properties of strings and of the matcher                            *)
(* ===================================================================== *)

Section StringFacts.

Lemma startsWith_app (p s : str) : startsWith (p ++ s) p = true.
Proof.
  induction p as [|a p IH]; simpl; [reflexivity|].
  rewrite Z.eqb_refl. exact IH.
Qed.

Lemma startsWith_inv (s p : str) :
  startsWith s p = true -> exists post, s = p ++ post.
Proof.
  revert s. induction p as [|a p IH]; intros s H.
  - exists s. reflexivity.
  - destruct s as [|b s]; simpl in H; [discriminate|].
    apply andb_true_iff in H as [Hab Hs].
    apply Z.eqb_eq in Hab. subst b.
    destruct (IH s Hs) as [post ->]. exists post. reflexivity.
Qed.

(** [includes] finds an occurrence wherever it is. *)
Lemma includes_occurrence (pre p post : str) :
  includes (pre ++ p ++ post) p = true.
Proof.
  induction pre as [|c pre IH].
  - simpl app. destruct (p ++ post) eqn:E; simpl; rewrite <- ?E;
      rewrite startsWith_app; reflexivity.
  - simpl. rewrite IH. apply orb_true_r.
Qed.

Lemma includes_inv (s p : str) :
  includes s p = true -> exists pre post, s = pre ++ p ++ post.
Proof.
  induction s as [|c s IH]; simpl; intros H.
  - rewrite orb_false_r in H. apply startsWith_inv in H as [post ->].
    exists [], post. reflexivity.
  - apply orb_true_iff in H as [H|H].
    + apply startsWith_inv in H as [post ->]. exists [], post. reflexivity.
    + destruct (IH H) as (pre & post & ->). exists (c :: pre), post. reflexivity.
Qed.

End StringFacts.

Section MatcherFacts.
Import Regex.

(** A one-class pattern is found as soon as some code unit is in the class. *)
Lemma execFrom_class (p : Z -> bool) (s : str) (i : nat) :
  (exists c, In c s /\ p c = true) -> execFrom (Char p) i s <> None.
Proof.
  revert i. induction s as [|x s IH]; intros i (c & Hin & Hp).
  - destruct Hin.
  - simpl. destruct (p x) eqn:Hx; [discriminate|].
    apply IH. destruct Hin as [->|Hin]; [congruence|]. eauto.
Qed.

Lemma test_class (p : Z -> bool) (s : str) :
  (exists c, In c s /\ p c = true) -> test (Char p) s = true.
Proof.
  intros H. unfold test, exec.
  destruct (execFrom (Char p) 0 s) eqn:E; [reflexivity|].
  exfalso. revert E. apply execFrom_class. exact H.
Qed.

End MatcherFacts.

(* ===================================================================== *)
(** * The validator                                                       *)
(* ===================================================================== *)

Section ValidatorFacts.
Import Regex ValidationErrors CommandValidator.

(** ** The code against the rules *)

Lemma isAbsolutePath_complete (path : str) :
  absoluteForm path -> isAbsolutePath path = true.
Proof.
  intros [[rest ->]|[(d & s & rest & -> & Hd & Hs)|[rest ->]]].
  - unfold isAbsolutePath.
    destruct (test drivePattern (47 :: rest) || test networkPattern (47 :: rest));
      reflexivity.
  - unfold isAbsolutePath.
    assert (test drivePattern (d :: 58 :: s :: rest) = true) as ->; [|reflexivity].
    assert (existsb (Z.eqb s) (lit "\/") = true) as Hs'
      by (destruct Hs; subst; reflexivity).
    assert ((97 <=? d) && (d <=? 122) || (65 <=? d) && (d <=? 90) = true) as Hd'
      by (destruct Hd; lia).
    unfold test, exec, drivePattern, letter, chr, oneOf.
    cbn [execFrom run seq Nat.eqb]. rewrite Hd', Z.eqb_refl, Hs'. reflexivity.
  - unfold isAbsolutePath.
    assert (test networkPattern (92 :: 92 :: rest) = true) as ->.
    { unfold test, exec, networkPattern. cbn. reflexivity. }
    rewrite orb_true_r. reflexivity.
Qed.

Lemma hasPathTraversal_complete (path : str) :
  containsDotDot path -> hasPathTraversal path = true.
Proof.
  intros (pre & post & ->). unfold hasPathTraversal.
  rewrite includes_occurrence. apply orb_true_r.
Qed.

Lemma traversalSegment_containsDotDot (path : str) :
  traversalSegment path -> containsDotDot path.
Proof. intros (pre & post & -> & _). exists pre, post. reflexivity. Qed.

Lemma invalidChar_complete (c : Z) : isForbidden c -> invalidChar c = true.
Proof.
  unfold isForbidden, invalidChar. cbn.
  intros [H|[H|H]]; [|subst; reflexivity|].
  - repeat (destruct H as [<-|H]; [reflexivity|]). destruct H.
  - assert ((0 <=? c) && (c <=? 31) = true) as -> by lia.
    repeat rewrite orb_true_r. reflexivity.
Qed.

Lemma isValidPathFormat_complete (path : str) :
  hasForbiddenChar path -> isValidPathFormat path = false.
Proof.
  intros (c & Hin & Hc). unfold isValidPathFormat, invalidChars.
  rewrite test_class; [reflexivity|].
  exists c. split; [exact Hin|]. apply invalidChar_complete, Hc.
Qed.

(** The four checks of [validatePath] are made one after the other on
    every non-empty path, none hiding another. *)
Lemma validatePath_checks (path : str) (isDirectory : bool) :
  path <> [] ->
  validatePath path [] isDirectory =
    (if len path >? 500 then [PATH_TOO_LONG] else [])
    ++ (if isAbsolutePath path then [ABSOLUTE_PATH_NOT_ALLOWED] else [])
    ++ (if hasPathTraversal path then [PATH_TRAVERSAL_DETECTED] else [])
    ++ (if isValidPathFormat path then []
        else [if isDirectory then INVALID_DIRECTORY_FORMAT else INVALID_PATH_FORMAT]).
Proof.
  intros Hne. unfold validatePath, push, VALIDATION_CONFIG.PATH_MAX_LENGTH.
  destruct path as [|c path]; [congruence|]. cbn [falsy].
  destruct (len (c :: path) >? 500), (isAbsolutePath (c :: path)),
    (hasPathTraversal (c :: path)), (isValidPathFormat (c :: path)); reflexivity.
Qed.

Lemma validateFileList_checks (directory : str) :
  directory <> [] ->
  validateFileListCommand directory [] = validatePath directory [] true.
Proof.
  intros Hne. unfold validateFileListCommand.
  destruct directory; [congruence|reflexivity].
Qed.

End ValidatorFacts.

Section ValidatorClaims.
Import Regex ValidationErrors CommandValidator.

(** [compiles p] stands for the constructor [RegExp] accepting [p]; the
    empty pattern is accepted (it denotes the empty regular expression). *)
Variable compiles : str -> bool.
Hypothesis compiles_empty : compiles [] = true.

Lemma validateSearch_query (query : str) (pattern : option str) (e : str) :
  In e (validateSearchCommand compiles query None []) ->
  In e (validateSearchCommand compiles query pattern []).
Proof.
  unfold validateSearchCommand, push.
  set (q := if falsy query then _ else _).
  intros H. destruct pattern as [[|c p]|]; try exact H.
  destruct (len (c :: p) >? VALIDATION_CONFIG.PATTERN_MAX_LENGTH), (compiles (c :: p));
    repeat (apply in_or_app; left); exact H.
Qed.

(** C7: validation enforces every rule and reports all violations.  For a
    path used as the argument of a FileRead or of a FileList command: a
    length above 500, an absolute form, a [..] traversal segment and a
    forbidden or control character are each reported, whatever else is
    wrong with the path.  For a search: a query shorter than 2 or longer
    than 200 is reported, and so is a pattern that is longer than 200 or
    does not compile.  A command is valid exactly when nothing was
    reported.  Validating FileRead of [../../etc/passwd] reports
    PATH_TRAVERSAL_DETECTED, and nothing else. *)
Theorem C7_validation_enforces_rules
        (raw path query : str) (pattern : option str) :
  let rd := errors (validate compiles (FileReadCommand raw path)) in
  let ls := errors (validate compiles (FileListCommand raw path)) in
  let se := errors (validate compiles (SearchCommand raw query pattern)) in
  (500 < len path -> In PATH_TOO_LONG rd /\ In PATH_TOO_LONG ls)
  /\ (absoluteForm path ->
      In ABSOLUTE_PATH_NOT_ALLOWED rd /\ In ABSOLUTE_PATH_NOT_ALLOWED ls)
  /\ (traversalSegment path ->
      In PATH_TRAVERSAL_DETECTED rd /\ In PATH_TRAVERSAL_DETECTED ls)
  /\ (hasForbiddenChar path ->
      In INVALID_PATH_FORMAT rd /\ In INVALID_DIRECTORY_FORMAT ls)
  /\ (len query < 2 -> In QUERY_REQUIRED se \/ In QUERY_TOO_SHORT se)
  /\ (200 < len query -> In QUERY_TOO_LONG se)
  /\ (forall p, pattern = Some p -> 200 < len p -> In PATTERN_TOO_LONG se)
  /\ (forall p, pattern = Some p -> compiles p = false -> In INVALID_PATTERN se)
  /\ (forall c, valid (validate compiles c) = true <-> errors (validate compiles c) = [])
  /\ errors (validate compiles (FileReadCommand raw (lit "../../etc/passwd")))
     = [PATH_TRAVERSAL_DETECTED].
Proof.
  cbn zeta.
  assert (Hpath : forall isDirectory, path <> [] ->
            validatePath path [] isDirectory
            = (if len path >? 500 then [PATH_TOO_LONG] else [])
              ++ (if isAbsolutePath path then [ABSOLUTE_PATH_NOT_ALLOWED] else [])
              ++ (if hasPathTraversal path then [PATH_TRAVERSAL_DETECTED] else [])
              ++ (if isValidPathFormat path then []
                  else [if isDirectory then INVALID_DIRECTORY_FORMAT
                        else INVALID_PATH_FORMAT]))
    by (intros; apply validatePath_checks; assumption).
  assert (Hrd : path <> [] ->
            errors (validate compiles (FileReadCommand raw path))
            = validatePath path [] false) by reflexivity.
  assert (Hls : path <> [] ->
            errors (validate compiles (FileListCommand raw path))
            = validatePath path [] true)
    by (intros; cbn; apply validateFileList_checks; assumption).
  repeat match goal with |- _ /\ _ => split end; try (intros H; split).
  - assert (path <> []) as Hne by (intros ->; unfold len in H; simpl in H; lia).
    rewrite Hrd, Hpath by exact Hne.
    assert ((len path >? 500) = true) as -> by lia. left. reflexivity.
  - assert (path <> []) as Hne by (intros ->; unfold len in H; simpl in H; lia).
    rewrite Hls, Hpath by exact Hne.
    assert ((len path >? 500) = true) as -> by lia. left. reflexivity.
  - assert (path <> []) as Hne
      by (destruct H as [[? ->]|[(? & ? & ? & -> & _)|[? ->]]]; discriminate).
    rewrite Hrd, Hpath, (isAbsolutePath_complete _ H) by exact Hne.
    apply in_or_app. right. left. reflexivity.
  - assert (path <> []) as Hne
      by (destruct H as [[? ->]|[(? & ? & ? & -> & _)|[? ->]]]; discriminate).
    rewrite Hls, Hpath, (isAbsolutePath_complete _ H) by exact Hne.
    apply in_or_app. right. left. reflexivity.
  - apply traversalSegment_containsDotDot in H.
    assert (path <> []) as Hne
      by (destruct H as (pre & post & ->); destruct pre; discriminate).
    rewrite Hrd, Hpath, (hasPathTraversal_complete _ H) by exact Hne.
    apply in_or_app. right. apply in_or_app. right. left. reflexivity.
  - apply traversalSegment_containsDotDot in H.
    assert (path <> []) as Hne
      by (destruct H as (pre & post & ->); destruct pre; discriminate).
    rewrite Hls, Hpath, (hasPathTraversal_complete _ H) by exact Hne.
    apply in_or_app. right. apply in_or_app. right. left. reflexivity.
  - assert (path <> []) as Hne by (destruct H as (c & Hin & _); intros ->; destruct Hin).
    rewrite Hrd, Hpath, (isValidPathFormat_complete _ H) by exact Hne.
    do 3 (apply in_or_app; right). left. reflexivity.
  - assert (path <> []) as Hne by (destruct H as (c & Hin & _); intros ->; destruct Hin).
    rewrite Hls, Hpath, (isValidPathFormat_complete _ H) by exact Hne.
    do 3 (apply in_or_app; right). left. reflexivity.
  - intros Hq. cbn [validate errors].
    destruct query as [|c query].
    + left. apply validateSearch_query. left. reflexivity.
    + right. apply validateSearch_query.
      unfold validateSearchCommand, push, VALIDATION_CONFIG.QUERY_MIN_LENGTH.
      cbn [falsy].
      assert ((len (c :: query) <? 2) = true) as -> by lia.
      destruct (len (c :: query) >? VALIDATION_CONFIG.QUERY_MAX_LENGTH);
        cbn; auto.
  - intros Hq. cbn [validate errors]. apply validateSearch_query.
    destruct query as [|c query]; [unfold len in Hq; simpl in Hq; lia|].
    unfold validateSearchCommand, push, VALIDATION_CONFIG.QUERY_MAX_LENGTH.
    cbn [falsy].
    assert ((len (c :: query) >? 200) = true) as -> by lia.
    apply in_or_app. right. left. reflexivity.
  - intros p -> Hp. cbn [validate errors].
    destruct p as [|c p]; [unfold len in Hp; simpl in Hp; lia|].
    unfold validateSearchCommand, push, VALIDATION_CONFIG.PATTERN_MAX_LENGTH.
    assert ((len (c :: p) >? 200) = true) as -> by lia.
    destruct (compiles (c :: p)); repeat (apply in_or_app; (right; left; reflexivity) || left);
      apply in_or_app; right; left; reflexivity.
  - intros p -> Hp. cbn [validate errors].
    destruct p as [|c p]; [congruence|].
    unfold validateSearchCommand, push. rewrite Hp.
    apply in_or_app. right. left. reflexivity.
  - cbn [validate valid errors].
    match goal with |- Nat.eqb (length ?l) 0 = true -> _ =>
      destruct l; (reflexivity || discriminate) end.
  - cbn [validate valid errors]. intros ->. reflexivity.
  - vm_compute. reflexivity.
Qed.

(** C10: a FileRead or FileList command whose path contains two
    consecutive dots anywhere, be it inside a file name, is reported as a
    path traversal and is not valid. *)
Theorem C10_dotdot_anywhere_is_traversal (raw path : str) :
  containsDotDot path ->
  In PATH_TRAVERSAL_DETECTED (errors (validate compiles (FileReadCommand raw path)))
  /\ In PATH_TRAVERSAL_DETECTED (errors (validate compiles (FileListCommand raw path)))
  /\ valid (validate compiles (FileReadCommand raw path)) = false
  /\ valid (validate compiles (FileListCommand raw path)) = false.
Proof.
  intros H.
  assert (path <> []) as Hne
    by (destruct H as (pre & post & ->); destruct pre; discriminate).
  assert (Hin : forall isDirectory,
             In PATH_TRAVERSAL_DETECTED (validatePath path [] isDirectory)).
  { intros isDirectory.
    rewrite validatePath_checks, (hasPathTraversal_complete _ H) by exact Hne.
    apply in_or_app. right. apply in_or_app. right. left. reflexivity. }
  assert (Hrd : errors (validate compiles (FileReadCommand raw path))
                = validatePath path [] false) by reflexivity.
  assert (Hls : errors (validate compiles (FileListCommand raw path))
                = validatePath path [] true)
    by (cbn; apply validateFileList_checks; exact Hne).
  assert (Hv : forall c, In PATH_TRAVERSAL_DETECTED (errors (validate compiles c)) ->
                         valid (validate compiles c) = false).
  { intros c. cbn [validate valid errors].
    match goal with |- In _ ?l -> _ => destruct l; [intros []|reflexivity] end. }
  repeat match goal with |- _ /\ _ => split end.
  - rewrite Hrd. apply Hin.
  - rewrite Hls. apply Hin.
  - apply Hv. rewrite Hrd. apply Hin.
  - apply Hv. rewrite Hls. apply Hin.
Qed.

End ValidatorClaims.

(** C7 at work: with a constructor that accepts every pattern, the path
    [a/../b] has a traversal segment and is reported. *)
Lemma C7_validation_enforces_rules_witness :
  (fun _ : str => true) [] = true
  /\ In ValidationErrors.PATH_TRAVERSAL_DETECTED
        (CommandValidator.errors
           (CommandValidator.validate (fun _ => true)
              (FileReadCommand [] (lit "a/../b")))).
Proof.
  split; [reflexivity|].
  destruct (C7_validation_enforces_rules (fun _ => true) eq_refl
              [] (lit "a/../b") [] None) as (_ & _ & H & _).
  apply H. exists (lit "a/"), (lit "/b"). split; [reflexivity|]. split.
  - right. exists (lit "a"), 47. split; [reflexivity|]. left. reflexivity.
  - right. exists 47, (lit "b"). split; [reflexivity|]. left. reflexivity.
Defined.

(** C10 at work: the file name [file..txt] is reported as a traversal. *)
Lemma C10_dotdot_anywhere_is_traversal_witness :
  containsDotDot (lit "file..txt")
  /\ In ValidationErrors.PATH_TRAVERSAL_DETECTED
        (CommandValidator.errors
           (CommandValidator.validate (fun _ => true)
              (FileReadCommand [] (lit "file..txt")))).
Proof.
  assert (H : containsDotDot (lit "file..txt"))
    by (exists (lit "file"), (lit "txt"); reflexivity).
  split; [exact H|].
  exact (proj1 (C10_dotdot_anywhere_is_traversal (fun _ => true) [] _ H)).
Defined.

Section GroupFacts.
Import Regex.

(** A successful match reaches its continuation, and by then every group
    the pattern is bound to go through is defined; groups defined before
    stay defined. *)
Lemma run_binds (g : nat) (r : regex) :
  forall i s c k m,
    run r i s c k = Some m ->
    exists i' s' c',
      k i' s' c' = Some m
      /\ (binds g r = true \/ is_Some (c !! g) -> is_Some (c' !! g)).
Proof.
  induction r as [|p|r1 IH1 r2 IH2|r1 IH1 r2 IH2|greedy r IH|j r IH| |];
    intros i s c k m H.
  - exists i, s, c. split; [exact H|]. intros [Hb|Hc]; [discriminate|exact Hc].
  - simpl in H. destruct s as [|x t]; [discriminate|].
    destruct (p x); [|discriminate].
    exists (S i), t, c. split; [exact H|]. intros [Hb|Hc]; [discriminate|exact Hc].
  - simpl in H. apply IH1 in H as (i1 & s1 & c1 & H & H1).
    apply IH2 in H as (i2 & s2 & c2 & H & H2).
    exists i2, s2, c2. split; [exact H|]. simpl.
    intros [Hb|Hc].
    + apply orb_true_iff in Hb as [Hb|Hb]; auto.
    + auto.
  - simpl in H. destruct (run r1 i s c k) eqn:E1.
    + injection H as ->. apply IH1 in E1 as (i1 & s1 & c1 & H & H1).
      exists i1, s1, c1. split; [exact H|]. simpl.
      intros [Hb|Hc]; [apply andb_true_iff in Hb as [Hb _]|]; auto.
    + apply IH2 in H as (i2 & s2 & c2 & H & H2).
      exists i2, s2, c2. split; [exact H|]. simpl.
      intros [Hb|Hc]; [apply andb_true_iff in Hb as [_ Hb]|]; auto.
  - simpl in H. revert H. generalize (length s) as n. intros n. revert i s c m.
    induction n as [|n IHn]; intros i s c m H.
    + exists i, s, c. split; [exact H|]. intros [Hb|Hc]; [discriminate|exact Hc].
    + assert (Hagain :
                forall m',
                  run r i s c
                    (fun i' s' c' =>
                       if Nat.eqb i' i then None
                       else starLoop (run r) greedy k n i' s' c') = Some m' ->
                  exists i' s' c',
                    k i' s' c' = Some m'
                    /\ (binds g (Star greedy r) = true \/ is_Some (c !! g)
                        -> is_Some (c' !! g))).
      { intros m' Hm'. apply IH in Hm' as (i1 & s1 & c1 & Hm' & H1).
        destruct (Nat.eqb i1 i); [discriminate|].
        apply IHn in Hm' as (i2 & s2 & c2 & Hm' & H2).
        exists i2, s2, c2. split; [exact Hm'|].
        intros [Hb|Hc]; [discriminate|]. apply H2. right. apply H1. right. exact Hc. }
      assert (Hstop :
                forall m', k i s c = Some m' ->
                  exists i' s' c',
                    k i' s' c' = Some m'
                    /\ (binds g (Star greedy r) = true \/ is_Some (c !! g)
                        -> is_Some (c' !! g))).
      { intros m' Hm'. exists i, s, c. split; [exact Hm'|].
        intros [Hb|Hc]; [discriminate|exact Hc]. }
      cbn [starLoop] in H. cbv zeta in H. destruct greedy.
      * match type of H with
        | match ?a with _ => _ end = _ => destruct a eqn:Ea
        end.
        -- injection H as ->. apply Hagain. reflexivity.
        -- apply Hstop. exact H.
      * destruct (k i s c) eqn:Ek.
        -- injection H as ->. apply Hstop. reflexivity.
        -- apply Hagain. exact H.
  - simpl in H. apply IH in H as (i1 & s1 & c1 & H & H1).
    exists i1, s1, (<[j := take (i1 - i) s]> c1). split; [exact H|].
    simpl. intros Hb.
    destruct (Nat.eqb_spec j g) as [->|Hne].
    + rewrite lookup_insert_eq. eauto.
    + rewrite lookup_insert_ne by exact Hne. apply H1.
      destruct Hb as [Hb|Hc]; [left|right; exact Hc]. exact Hb.
  - simpl in H. destruct (Nat.eqb i 0); [|discriminate].
    exists i, s, c. split; [exact H|]. intros [Hb|Hc]; [discriminate|exact Hc].
  - simpl in H. destruct s; [|discriminate].
    exists i, [], c. split; [exact H|]. intros [Hb|Hc]; [discriminate|exact Hc].
Qed.

Lemma exec_binds (g : nat) (r : regex) (s : str) (m : groups) :
  binds g r = true -> exec r s = Some m -> is_Some (m !! g).
Proof.
  intros Hb. unfold exec. generalize 0%nat as i. revert m.
  induction s as [|x s IH]; intros m i H; simpl in H.
  - destruct (run r i [] ∅ (fun _ _ c => Some c)) eqn:E; [|discriminate].
    injection H as ->. apply (run_binds g) in E as (i' & s' & c' & E & Hc).
    injection E as ->. apply Hc. left. exact Hb.
  - destruct (run r i (x :: s) ∅ (fun _ _ c => Some c)) eqn:E.
    + injection H as ->. apply (run_binds g) in E as (i' & s' & c' & E & Hc).
      injection E as ->. apply Hc. left. exact Hb.
    + eapply IH. exact H.
Qed.

End GroupFacts.

(* ===================================================================== *)
(** * The parser                                                          *)
(* ===================================================================== *)

Section ParserClaims.
Import Regex CommandParser.

(** Group 1 is defined whenever one of the patterns that read it without
    a guard matches, so [matchCommand] never throws. *)
Lemma matchCommand_returns (normalized : str) :
  exists oc, matchCommand normalized = Returns oc.
Proof.
  unfold matchCommand.
  destruct (exec COMMAND_PATTERNS.FILE_READ normalized) as [m|] eqn:Eread.
  { apply (exec_binds 1) in Eread as [g ->]; [eauto|reflexivity]. }
  destruct (exec COMMAND_PATTERNS.FILE_LIST normalized) as [m|]; [eauto|].
  destruct (exec COMMAND_PATTERNS.SEARCH normalized) as [m|] eqn:Esearch.
  { apply (exec_binds 1) in Esearch as [g ->]; [eauto|reflexivity]. }
  destruct (exec COMMAND_PATTERNS.STATUS normalized) as [m|]; [eauto|].
  destruct (exec COMMAND_PATTERNS.HELP normalized) as [m|]; eauto.
Qed.

(** C8, as the code has it: [parse] never throws and returns a result that
    holds either a command or an error, never both.  An input that is
    empty once normalised is answered with the error [Empty message].
    Otherwise the five patterns are tried in the fixed order FILE_READ,
    FILE_LIST, SEARCH, STATUS, HELP and the first that matches decides the
    command; when none matches the error is the unknown-command text,
    which contains the word [help]. *)
Theorem C8_parse_total_first_match_wins (message : str) :
  exists r,
    parse message = Returns r
    /\ eitherCommandOrError r
    /\ let n := normalizeMessage message in
       (n = [] -> r = failed EMPTY_MESSAGE)
       /\ (n <> [] ->
           match exec COMMAND_PATTERNS.FILE_READ n,
                 exec COMMAND_PATTERNS.FILE_LIST n,
                 exec COMMAND_PATTERNS.SEARCH n,
                 exec COMMAND_PATTERNS.STATUS n,
                 exec COMMAND_PATTERNS.HELP n with
           | Some _, _, _, _, _ => exists path, r = parsed (FileReadCommand n path)
           | None, Some _, _, _, _ => exists dir, r = parsed (FileListCommand n dir)
           | None, None, Some _, _, _ =>
               exists query pattern, r = parsed (SearchCommand n query pattern)
           | None, None, None, Some _, _ => r = parsed (StatusCommand n)
           | None, None, None, None, Some _ => r = parsed (HelpCommand n)
           | None, None, None, None, None => r = failed UNKNOWN_COMMAND
           end)
       /\ includes UNKNOWN_COMMAND (lit "help") = true.
Proof.
  unfold parse. cbv zeta. generalize (normalizeMessage message) as n. intros n.
  destruct (falsy n) eqn:Ef.
  - assert (n = []) as -> by (destruct n; [reflexivity|discriminate]).
    exists (failed EMPTY_MESSAGE).
    split; [reflexivity|]. split.
    + right. cbn. eauto.
    + split; [reflexivity|]. split; [congruence|reflexivity].
  - assert (Hne : n <> []) by (intros ->; discriminate).
    destruct (matchCommand_returns n) as [oc Hoc].
    assert (Hshape :
              match exec COMMAND_PATTERNS.FILE_READ n,
                    exec COMMAND_PATTERNS.FILE_LIST n,
                    exec COMMAND_PATTERNS.SEARCH n,
                    exec COMMAND_PATTERNS.STATUS n,
                    exec COMMAND_PATTERNS.HELP n with
              | Some _, _, _, _, _ => exists path, oc = Some (FileReadCommand n path)
              | None, Some _, _, _, _ => exists dir, oc = Some (FileListCommand n dir)
              | None, None, Some _, _, _ =>
                  exists query pattern, oc = Some (SearchCommand n query pattern)
              | None, None, None, Some _, _ => oc = Some (StatusCommand n)
              | None, None, None, None, Some _ => oc = Some (HelpCommand n)
              | None, None, None, None, None => oc = None
              end).
    { revert Hoc. unfold matchCommand.
      destruct (exec COMMAND_PATTERNS.FILE_READ n) as [m|].
      { destruct (m !! 1%nat); [|discriminate]. intros [= <-]. eauto. }
      destruct (exec COMMAND_PATTERNS.FILE_LIST n) as [m|].
      { intros [= <-]. eauto. }
      destruct (exec COMMAND_PATTERNS.SEARCH n) as [m|].
      { destruct (m !! 1%nat); [|discriminate]. intros [= <-]. eauto. }
      destruct (exec COMMAND_PATTERNS.STATUS n) as [m|].
      { intros [= <-]. reflexivity. }
      destruct (exec COMMAND_PATTERNS.HELP n) as [m|]; intros [= <-]; reflexivity. }
    rewrite Hoc.
    exists (match oc with Some cmd => parsed cmd | None => failed UNKNOWN_COMMAND end).
    split; [destruct oc; reflexivity|]. split.
    + destruct oc; [left|right]; cbn; eauto.
    + split; [intros Hn; congruence|]. split; [|reflexivity].
      intros _.
      destruct (exec COMMAND_PATTERNS.FILE_READ n);
        [destruct Hshape as [p ->]; eauto|].
      destruct (exec COMMAND_PATTERNS.FILE_LIST n);
        [destruct Hshape as [p ->]; eauto|].
      destruct (exec COMMAND_PATTERNS.SEARCH n);
        [destruct Hshape as (q & p & ->); eauto|].
      destruct (exec COMMAND_PATTERNS.STATUS n); [rewrite Hshape; reflexivity|].
      destruct (exec COMMAND_PATTERNS.HELP n); rewrite Hshape; reflexivity.
Qed.

End ParserClaims.

(** C8 at work: [hello] matches no pattern and gets the unknown-command
    error. *)
Lemma C8_parse_total_first_match_wins_witness :
  CommandParser.normalizeMessage (lit "hello") <> []
  /\ CommandParser.parse (lit "hello") = Returns (failed CommandParser.UNKNOWN_COMMAND).
Proof.
  assert (Hn : CommandParser.normalizeMessage (lit "hello") <> [])
    by (vm_compute; discriminate).
  split; [exact Hn|].
  destruct (C8_parse_total_first_match_wins (lit "hello"))
    as (r & Hr & _ & _ & Hmatch & _).
  specialize (Hmatch Hn). vm_compute in Hmatch. rewrite Hr, Hmatch.
  reflexivity.
Defined.

(** C8 as stated fails on the empty input: it matches none of the five
    patterns, yet the error is [Empty message], which is not the
    unknown-command text and does not mention [help]. *)
Lemma C8_empty_input_counterexample :
  Forall (fun p => Regex.exec p [] = None)
         [CommandParser.COMMAND_PATTERNS.FILE_READ;
          CommandParser.COMMAND_PATTERNS.FILE_LIST;
          CommandParser.COMMAND_PATTERNS.SEARCH;
          CommandParser.COMMAND_PATTERNS.STATUS;
          CommandParser.COMMAND_PATTERNS.HELP]
  /\ CommandParser.parse [] = Returns (failed CommandParser.EMPTY_MESSAGE)
  /\ CommandParser.EMPTY_MESSAGE <> CommandParser.UNKNOWN_COMMAND
  /\ includes CommandParser.EMPTY_MESSAGE (lit "help") = false.
Proof.
  split; [repeat constructor|].
  split; [reflexivity|]. split; [discriminate|reflexivity].
Qed.

(* ===================================================================== *)
(** * Notification formatting                                             *)
(* ===================================================================== *)

Section FormatFacts.
Import NotificationDispatcher.

Lemma trimStart_visible (c : Z) (s : str) :
  isSpace c = false -> trimStart (c :: s) = c :: s.
Proof. intros H. simpl. rewrite H. reflexivity. Qed.

Lemma trimEnd_blank_line (s : str) : trimEnd (s ++ [10; 10]) = trimEnd s.
Proof. unfold trimEnd. rewrite rev_app_distr. reflexivity. Qed.

Lemma trimEnd_visible (s : str) : endsVisibly s -> trimEnd s = s.
Proof.
  intros (s' & c & -> & Hc). unfold trimEnd.
  rewrite rev_app_distr. simpl rev at 2. simpl app.
  rewrite trimStart_visible by exact Hc.
  simpl. rewrite rev_involutive. reflexivity.
Qed.

(** What the loop of [formatBatchedNotifications] appends. *)
Lemma appendEntries_entries (ns : list Notification) :
  forall i message,
    appendEntries i ns message
    = message ++ concat (List.map (fun e => e ++ [10; 10]) (numberedList (S i) ns)).
Proof.
  induction ns as [|n ns IH]; intros i message; simpl.
  - rewrite app_nil_r. reflexivity.
  - rewrite IH. unfold batchEntry, numberedEntry.
    rewrite Nat.add_1_r. repeat rewrite <- app_assoc. reflexivity.
Qed.

Lemma blankLineSeparated_cons (p : str) (parts : list str) :
  parts <> [] ->
  blankLineSeparated (p :: parts) = p ++ [10; 10] ++ blankLineSeparated parts.
Proof. destruct parts; [congruence|reflexivity]. Qed.

Lemma concat_blank_lines (parts : list str) :
  parts <> [] ->
  concat (List.map (fun e => e ++ [10; 10]) parts)
  = blankLineSeparated parts ++ [10; 10].
Proof.
  induction parts as [|p parts IH]; [congruence|]. intros _.
  destruct parts as [|q parts].
  - simpl. rewrite app_nil_r. reflexivity.
  - change (concat (List.map (fun e => e ++ [10; 10]) (p :: q :: parts)))
      with ((p ++ [10; 10]) ++ concat (List.map (fun e => e ++ [10; 10]) (q :: parts))).
    rewrite IH by discriminate.
    rewrite (blankLineSeparated_cons p (q :: parts)) by discriminate.
    repeat rewrite <- app_assoc. reflexivity.
Qed.

(** The text built for a batch of two or more, before it is trimmed. *)
Lemma batch_text (ns : list Notification) :
  ns <> [] ->
  appendEntries 0 ns
    (bell ++ lit " *" ++ ofNat (length ns) ++ lit " Workspace Updates*" ++ [10; 10])
  = numberedFormat ns ++ [10; 10].
Proof.
  intros Hne. rewrite appendEntries_entries.
  assert (numberedList 1 ns <> []) as Hl by (destruct ns; [congruence|discriminate]).
  rewrite concat_blank_lines by exact Hl.
  unfold numberedFormat. rewrite blankLineSeparated_cons by exact Hl.
  unfold updatesHeader. repeat rewrite <- app_assoc. reflexivity.
Qed.

Lemma numberedFormat_starts_with_bell (ns : list Notification) :
  exists rest, numberedFormat ns = 55357 :: 56596 :: rest.
Proof.
  unfold numberedFormat. destruct (numberedList 1 ns) as [|e es].
  - simpl. eauto.
  - rewrite blankLineSeparated_cons by discriminate. simpl. eauto.
Qed.

(** The single format never opens with the bell. *)
Lemma singleFormat_not_bell (n : Notification) (rest : str) :
  singleFormat n <> 55357 :: 56596 :: rest.
Proof. unfold singleFormat. destruct (type n); cbn; congruence. Qed.

Lemma formatBatched_many (batch : BatchedNotifications) :
  (1 < length (notifications batch))%nat ->
  formatBatchedNotifications batch = trimEnd (numberedFormat (notifications batch)).
Proof.
  intros Hk. unfold formatBatchedNotifications.
  destruct (notifications batch) as [|n1 [|n2 ns]] eqn:E;
    [simpl in Hk; lia|simpl in Hk; lia|].
  rewrite batch_text by discriminate.
  destruct (numberedFormat_starts_with_bell (n1 :: n2 :: ns)) as [rest Hrest].
  unfold trim. rewrite Hrest.
  change ((55357 :: 56596 :: rest) ++ [10; 10]) with (55357 :: (56596 :: rest) ++ [10; 10]).
  rewrite trimStart_visible by reflexivity.
  change (55357 :: (56596 :: rest) ++ [10; 10]) with ((55357 :: 56596 :: rest) ++ [10; 10]).
  apply trimEnd_blank_line.
Qed.

Lemma blankLineSeparated_endsVisibly (parts : list str) (final : str) :
  endsVisibly final -> endsVisibly (blankLineSeparated (parts ++ [final])).
Proof.
  intros (s' & c & -> & Hc). induction parts as [|p parts IH].
  - exists s', c. split; [reflexivity|exact Hc].
  - change ((p :: parts) ++ [s' ++ [c]]) with (p :: (parts ++ [s' ++ [c]])).
    rewrite blankLineSeparated_cons by (destruct parts; discriminate).
    destruct IH as (t & c' & -> & Hc').
    exists (p ++ [10; 10] ++ t), c'. split; [|exact Hc'].
    repeat rewrite <- app_assoc. reflexivity.
Qed.

Lemma numberedList_snoc (ns : list Notification) (n : Notification) :
  forall i, numberedList i (ns ++ [n])
            = numberedList i ns ++ [numberedEntry (i + length ns) n].
Proof.
  induction ns as [|m ns IH]; intros i; simpl.
  - rewrite Nat.add_0_r. reflexivity.
  - rewrite IH. rewrite Nat.add_succ_comm. reflexivity.
Qed.

End FormatFacts.

Section FormatClaims.
Import NotificationDispatcher.

Lemma numberedList_lookup (ns : list Notification) :
  forall (i j : nat) (n : Notification),
    ns !! j = Some n ->
    numberedList i ns !! j = Some (numberedEntry (i + j) n).
Proof.
  induction ns as [|m ns IH]; intros i j n H; [discriminate|].
  destruct j as [|j]; simpl in *.
  - injection H as ->. rewrite Nat.add_0_r. reflexivity.
  - rewrite (IH (S i) j n H). rewrite Nat.add_succ_comm. reflexivity.
Qed.

Lemma numberedList_length (ns : list Notification) :
  forall i, length (numberedList i ns) = length ns.
Proof. induction ns as [|m ns IH]; intros i; simpl; [|rewrite IH]; reflexivity. Qed.

(** C6, as the code has it.  A flushed batch of one notification is the
    single format, which is not the numbered-list format.  A batch of
    [k > 1] notifications is the header for [k] followed by exactly [k]
    entries, the [i]-th being the entry numbered [i] of the [i]-th
    notification in arrival order, the whole being trimmed at its end: the
    text is the numbered-list format itself whenever the body of the last
    notification ends with a code unit that is not white space. *)
Theorem C6_batch_format (batch : BatchedNotifications) :
  let ns := notifications batch in
  (forall n, ns = [n] ->
     formatBatchedNotifications batch = singleFormat n
     /\ formatBatchedNotifications batch <> numberedFormat ns)
  /\ (forall (j : nat) n, ns !! j = Some n ->
        numberedList 1 ns !! j = Some (numberedEntry (j + 1) n))
  /\ length (numberedList 1 ns) = length ns
  /\ ((1 < length ns)%nat ->
      formatBatchedNotifications batch = trimEnd (numberedFormat ns))
  /\ ((1 < length ns)%nat ->
      (forall ns' n, ns = ns' ++ [n] -> endsVisibly (message n)) ->
      formatBatchedNotifications batch = numberedFormat ns).
Proof.
  cbv zeta. repeat match goal with |- _ /\ _ => split end.
  - intros n Hn.
    assert (formatBatchedNotifications batch = singleFormat n) as ->
      by (unfold formatBatchedNotifications; rewrite Hn; reflexivity).
    split; [reflexivity|].
    destruct (numberedFormat_starts_with_bell (notifications batch)) as [rest ->].
    apply singleFormat_not_bell.
  - intros j n H. rewrite (numberedList_lookup _ 1 j n H).
    rewrite Nat.add_comm. reflexivity.
  - apply numberedList_length.
  - apply formatBatched_many.
  - intros Hk Hlast. rewrite formatBatched_many by exact Hk.
    apply trimEnd_visible.
    destruct (notifications batch) as [|n0 ns0] eqn:E using rev_ind;
      [simpl in Hk; lia|].
    destruct (Hlast _ _ eq_refl) as (s' & c & Hs & Hc).
    unfold numberedFormat. rewrite numberedList_snoc.
    change (updatesHeader (length (ns0 ++ [n0]))
              :: numberedList 1 ns0 ++ [numberedEntry (1 + length ns0) n0])
      with ((updatesHeader (length (ns0 ++ [n0])) :: numberedList 1 ns0)
              ++ [numberedEntry (1 + length ns0) n0]).
    apply blankLineSeparated_endsVisibly.
    unfold numberedEntry. rewrite Hs.
    eexists _, c. split; [|exact Hc].
    repeat rewrite app_assoc. reflexivity.
Qed.

End FormatClaims.

(** C6 at work, on a batch of two whose last body is [b2]. *)
Lemma C6_batch_format_witness :
  let n1 := {| NotificationDispatcher.id := lit "1";
               NotificationDispatcher.userId := lit "u";
               NotificationDispatcher.phoneNumber := lit "p";
               NotificationDispatcher.type := NotificationDispatcher.ERROR;
               NotificationDispatcher.priority := NotificationDispatcher.MEDIUM;
               NotificationDispatcher.title := lit "T1";
               NotificationDispatcher.message := lit "b1";
               NotificationDispatcher.timestamp := 0 |} in
  let n2 := {| NotificationDispatcher.id := lit "2";
               NotificationDispatcher.userId := lit "u";
               NotificationDispatcher.phoneNumber := lit "p";
               NotificationDispatcher.type := NotificationDispatcher.BUILD_COMPLETE;
               NotificationDispatcher.priority := NotificationDispatcher.MEDIUM;
               NotificationDispatcher.title := lit "T2";
               NotificationDispatcher.message := lit "b2";
               NotificationDispatcher.timestamp := 0 |} in
  let batch := {| NotificationDispatcher.batchUserId := lit "u";
                  NotificationDispatcher.batchPhoneNumber := lit "p";
                  NotificationDispatcher.notifications := [n1; n2];
                  NotificationDispatcher.batchedAt := 0 |} in
  NotificationDispatcher.formatBatchedNotifications batch = numberedFormat [n1; n2].
Proof.
  intros n1 n2 batch.
  destruct (C6_batch_format batch) as (_ & _ & _ & _ & H).
  apply H.
  - simpl. lia.
  - intros ns' n E.
    assert (n = n2) as ->.
    { change (NotificationDispatcher.notifications batch) with ([n1] ++ [n2]) in E.
      apply app_inj_tail in E as [_ <-]. reflexivity. }
    exists (lit "b"), 50. split; reflexivity.
Defined.

(** C6 as stated fails when the last body ends with white space: with
    bodies [b1] and [b2 ] the flushed text is not the numbered-list format,
    and the entry written for the second notification is not in it. *)
Lemma C6_trailing_space_counterexample :
  let n1 := {| NotificationDispatcher.id := lit "1";
               NotificationDispatcher.userId := lit "u";
               NotificationDispatcher.phoneNumber := lit "p";
               NotificationDispatcher.type := NotificationDispatcher.ERROR;
               NotificationDispatcher.priority := NotificationDispatcher.MEDIUM;
               NotificationDispatcher.title := lit "T1";
               NotificationDispatcher.message := lit "b1";
               NotificationDispatcher.timestamp := 0 |} in
  let n2 := {| NotificationDispatcher.id := lit "2";
               NotificationDispatcher.userId := lit "u";
               NotificationDispatcher.phoneNumber := lit "p";
               NotificationDispatcher.type := NotificationDispatcher.BUILD_COMPLETE;
               NotificationDispatcher.priority := NotificationDispatcher.MEDIUM;
               NotificationDispatcher.title := lit "T2";
               NotificationDispatcher.message := lit "b2 ";
               NotificationDispatcher.timestamp := 0 |} in
  let batch := {| NotificationDispatcher.batchUserId := lit "u";
                  NotificationDispatcher.batchPhoneNumber := lit "p";
                  NotificationDispatcher.notifications := [n1; n2];
                  NotificationDispatcher.batchedAt := 0 |} in
  NotificationDispatcher.formatBatchedNotifications batch <> numberedFormat [n1; n2]
  /\ includes (NotificationDispatcher.formatBatchedNotifications batch)
              (numberedEntry 2 n2) = false.
Proof. cbv zeta. split; [vm_compute; discriminate|vm_compute; reflexivity]. Qed.

(* ===================================================================== *)
(** * The drain loop of the dispatcher                                    *)
(* ===================================================================== *)

Section DrainClaims.
Import NotificationDispatcher.

Variable deliver : list delivery -> str -> str -> bool.

(** What one removed item does: an urgent one is handed to the sender
    once, and put back at the end of the queue if the delivery fails; any
    other leaves everything as it is. *)
Lemma processItem_effect (now : Z) (item : NotificationQueueItem) (d : t) :
  let d' := processItem deliver now item d in
  sent d' = sent d ++ (if urgentItem item
                       then [immediateDelivery (notification item)] else [])
  /\ (exists back, queue d' = queue d ++ back /\ Forall (fun i => urgentItem i = true) back)
  /\ batches d' = batches d
  /\ batchTimers d' = batchTimers d
  /\ isProcessing d' = isProcessing d
  /\ (urgentItem item = false -> d' = d).
Proof.
  unfold processItem, urgentItem. cbv zeta.
  destruct (isUrgent (priority (notification item))) eqn:Hu.
  - unfold sendImmediately, send.
    destruct (deliver (sent d) (phoneNumber (notification item))
                      (formatSingleNotification (notification item))).
    + cbn. repeat split; try reflexivity; try discriminate.
      exists []. rewrite app_nil_r. split; [reflexivity|constructor].
    + cbn. repeat split; try reflexivity; try discriminate.
      eexists. split; [reflexivity|].
      constructor; [exact Hu|constructor].
  - repeat split; try reflexivity.
    + rewrite app_nil_r. reflexivity.
    + exists []. rewrite app_nil_r. split; [reflexivity|constructor].
Qed.

Lemma drain_trace (fuel : nat) (now : Z) :
  forall d d',
    drain deliver fuel now d = Some d' ->
    sent d' = sent d
              ++ List.map (fun i => immediateDelivery (notification i))
                   (List.filter urgentItem (removedItems deliver fuel now d))
    /\ (exists back, removedItems deliver fuel now d = queue d ++ back
                     /\ Forall (fun i => urgentItem i = true) back)
    /\ queue d' = []
    /\ batches d' = batches d
    /\ isProcessing d' = isProcessing d.
Proof.
  induction fuel as [|fuel IH]; intros d d' H; [discriminate|].
  simpl in H. simpl removedItems.
  destruct (queue d) as [|item rest] eqn:Eq.
  - injection H as <-. rewrite Eq. simpl. rewrite app_nil_r.
    repeat split; try reflexivity. exists []. split; [reflexivity|constructor].
  - apply IH in H as (Hsent & (back & Hrem & Hback) & Hq & Hb & Hp).
    destruct (processItem_effect now item (set_queue rest d))
      as (Psent & (pback & Pq & Pback) & Pb & _ & Pp & _).
    cbv zeta in *. cbn [queue sent batches isProcessing set_queue] in *.
    repeat split.
    + rewrite Hsent, Psent. simpl List.filter.
      destruct (urgentItem item); simpl; rewrite <- app_assoc; reflexivity.
    + exists (pback ++ back). split.
      * rewrite Hrem, Pq. rewrite <- app_assoc. reflexivity.
      * apply Forall_app. split; assumption.
    + exact Hq.
    + rewrite Hb, Pb. reflexivity.
    + rewrite Hp, Pp. reflexivity.
Qed.

(** When every delivery succeeds the loop ends after one round per queued
    item. *)
Lemma drain_terminates (now : Z) :
  (forall log phone text, deliver log phone text = true) ->
  forall fuel d, (length (queue d) < fuel)%nat ->
                 is_Some (drain deliver fuel now d).
Proof.
  intros Hok. induction fuel as [|fuel IH]; intros d Hlt; [lia|].
  simpl. destruct (queue d) as [|item rest] eqn:Eq; [eauto|].
  apply IH.
  unfold processItem, sendImmediately, send. rewrite Hok.
  destruct (isUrgent _); cbn [queue set_queue set_sent]; simpl in Hlt; lia.
Qed.

(** C9: the drain loop attempts a delivery for an item it removes exactly
    when the item is urgent.  Whenever [processQueue] returns, the
    deliveries it has added to the log are, in order, those of the urgent
    items among the removed ones, every item that was queued has been
    removed, and no batch has been touched; an item that is not urgent is
    removed and nothing else changes.  The loop does return when
    deliveries succeed. *)
Theorem C9_drain_delivers_only_urgent (fuel : nat) (now : Z) (d d' : t) :
  isProcessing d = false ->
  processQueue deliver fuel now d = Some d' ->
  let removed := removedItems deliver fuel now (set_isProcessing true d) in
  sent d' = sent d
            ++ List.map (fun i => immediateDelivery (notification i))
                 (List.filter urgentItem removed)
  /\ (exists back, removed = queue d ++ back
                   /\ Forall (fun i => urgentItem i = true) back)
  /\ queue d' = []
  /\ batches d' = batches d
  /\ (forall item d0,
        urgentItem item = false -> processItem deliver now item d0 = d0)
  /\ (forall item d0,
        urgentItem item = true ->
        sent (processItem deliver now item d0)
        = sent d0 ++ [immediateDelivery (notification item)])
  /\ ((forall log phone text, deliver log phone text = true) ->
      forall d0, isProcessing d0 = false ->
                 is_Some (processQueue deliver (S (length (queue d0))) now d0)).
Proof.
  intros Hidle H. unfold processQueue in H. rewrite Hidle in H.
  destruct (drain deliver fuel now (set_isProcessing true d)) as [d1|] eqn:Ed;
    [|discriminate].
  injection H as <-.
  apply drain_trace in Ed as (Hsent & Hrem & Hq & Hb & _).
  cbv zeta. repeat match goal with |- _ /\ _ => split end.
  - exact Hsent.
  - exact Hrem.
  - exact Hq.
  - exact Hb.
  - intros item d0 Hu. apply (processItem_effect now item d0). exact Hu.
  - intros item d0 Hu.
    destruct (processItem_effect now item d0) as (Hs & _). cbv zeta in Hs.
    rewrite Hs, Hu. reflexivity.
  - intros Hok d0 Hidle0. unfold processQueue. rewrite Hidle0.
    destruct (drain_terminates now Hok (S (length (queue d0)))
                (set_isProcessing true d0)) as [d2 ->]; [simpl; lia|eauto].
Qed.

End DrainClaims.

(** C9 at work: an urgent and a medium notification are queued; the drain
    loop removes both and delivers the urgent one only. *)
Lemma C9_drain_delivers_only_urgent_witness :
  let d :=
    NotificationDispatcher.queueNotification 0 (lit "id2") (lit "u") (lit "p")
      NotificationDispatcher.FILE_CHANGED (lit "T2") (lit "m2")
      NotificationDispatcher.MEDIUM
      (NotificationDispatcher.queueNotification 0 (lit "id1") (lit "u") (lit "p")
         NotificationDispatcher.ERROR (lit "T1") (lit "m1")
         NotificationDispatcher.URGENT NotificationDispatcher.new) in
  NotificationDispatcher.isProcessing d = false
  /\ exists d',
      NotificationDispatcher.processQueue (fun _ _ _ => true) 3 1 d = Some d'
      /\ NotificationDispatcher.sent d'
         = [(lit "p", [10060] ++ lit " *T1*" ++ [10; 10] ++ lit "m1")].
Proof.
  intros d. split; [reflexivity|].
  destruct (NotificationDispatcher.processQueue (fun _ _ _ => true) 3 1 d)
    as [d'|] eqn:E; [|vm_compute in E; discriminate].
  exists d'. split; [reflexivity|].
  destruct (C9_drain_delivers_only_urgent (fun _ _ _ => true) 3 1 d d' eq_refl E)
    as (Hs & _).
  rewrite Hs. vm_compute. reflexivity.
Defined.

(* ===================================================================== *)
(** * Queueing an urgent notification                                     *)
(* ===================================================================== *)

Section QueueClaims.
Import NotificationDispatcher.

(** C1 fails on the code: [queueNotification] adds every notification to
    the recipient's batch, an urgent one included.  After queueing with
    the priority URGENT, the stored batch of the recipient ends with the
    new notification (and the queue ends with it too), so it will be
    delivered by the drain loop and again by the batch flush. *)
Theorem C1_urgent_is_added_to_batch
        (now : Z) (newId user phone : str) (ty : NotificationType)
        (title message : str) (d : t) :
  let n := {| id := newId; userId := user; phoneNumber := phone; type := ty;
              priority := URGENT; title := title; message := message;
              timestamp := now |} in
  let d' := queueNotification now newId user phone ty title message URGENT d in
  exists batch earlier,
    batches d' !! user = Some (batch, now + BATCH_WINDOW_MS)
    /\ notifications batch = earlier ++ [n]
    /\ getBatch now user d' = Some batch
    /\ exists item, queue d' = queue d ++ [item] /\ notification item = n.
Proof.
  cbv zeta. unfold queueNotification, addToBatch. cbv zeta.
  match goal with
  | |- context [match batchTimers ?x !! user with _ => _ end] =>
      destruct (batchTimers x !! user)
  end;
    (eexists; eexists; cbn [batches set_batches set_batchTimers queue set_queue];
     unfold getBatch; cbn [batches set_batches set_batchTimers];
     rewrite lookup_insert_eq;
     split; [reflexivity|]; split; [reflexivity|]; split;
     [unfold BATCH_WINDOW_MS; assert ((now <? now + 30000) = true) as -> by lia;
      reflexivity|];
     eexists; split; reflexivity).
Qed.

End QueueClaims.

(** The double delivery, run: one urgent notification is queued, the drain
    loop delivers it, and the flush of the batch window delivers the same
    text once more. *)
Lemma C1_urgent_delivered_twice :
  let d0 :=
    NotificationDispatcher.queueNotification 0 (lit "id1") (lit "u") (lit "p")
      NotificationDispatcher.ERROR (lit "T1") (lit "m1")
      NotificationDispatcher.URGENT NotificationDispatcher.new in
  exists d1,
    NotificationDispatcher.processQueue (fun _ _ _ => true) 2 5000 d0 = Some d1
    /\ NotificationDispatcher.sent
         (NotificationDispatcher.processBatch (fun _ _ _ => true) 29999 (lit "u") d1)
       = [(lit "p", [10060] ++ lit " *T1*" ++ [10; 10] ++ lit "m1");
          (lit "p", [10060] ++ lit " *T1*" ++ [10; 10] ++ lit "m1")].
Proof. cbv zeta. eexists. split; vm_compute; reflexivity. Qed.

(* ===================================================================== *)
(** * The result cache of the workspace client                            *)
(* ===================================================================== *)

Section CacheClaims.
Import WorkspaceManagerClient.

(** A hit in the cache is returned at once, marked as coming from the
    cache, and nothing is sent over the channel or left pending. *)
Lemma cache_hit_bypasses_channel
      (now : Z) (commandId : str) (command : Command) (c : t)
      (cached : CommandResult) :
  isConnected c = true -> socket c = true ->
  getFromCache now (getCacheKey command) c = Some cached ->
  executeCommand now commandId command c = (c, Returned cached)
  /\ fromCache cached = true.
Proof.
  intros Hconn Hsock Hhit. unfold executeCommand.
  rewrite Hconn, Hsock, Hhit. split; [reflexivity|].
  unfold getFromCache in Hhit.
  destruct (falsy (getCacheKey command)); [discriminate|].
  destruct (negb (cacheUp c)); [discriminate|].
  destruct (cache c !! (lit "workspace:cache:" ++ getCacheKey command))
    as [[result expires]|]; [|discriminate].
  destruct (now <? expires); [|discriminate].
  injection Hhit as <-. reflexivity.
Qed.

(** C4 fails on the code for Status: a Status command is looked up in the
    cache under the key [status:workspace], but [shouldCache] leaves it
    out, so the successful answer to a pending Status command is never
    written and the cache stays as it was. *)
Theorem C4_status_result_is_not_cached
        (now : Z) (response : CommandResponse) (c : t)
        (pending : PendingCommand) (raw : str) :
  pendingCommands c !! responseId response = Some pending ->
  pendingCommand pending = StatusCommand raw ->
  getCacheKey (StatusCommand raw) = lit "status:workspace"
  /\ cache (fst (handleCommandResponse now response c)) = cache c.
Proof.
  intros Hp Hc. split; [reflexivity|].
  unfold handleCommandResponse. rewrite Hp.
  destruct (responseSuccess response); [|reflexivity].
  rewrite Hc. cbn [success shouldCache commandType andb]. reflexivity.
Qed.

(** The other commands, for comparison: the successful answer to a pending
    FileRead or FileList command is written under the key of the command
    when Redis answers, and the answer to a Search command is not. *)
Lemma cacheable_result_is_cached
      (now : Z) (response : CommandResponse) (c : t) (pending : PendingCommand) :
  pendingCommands c !! responseId response = Some pending ->
  responseSuccess response = true ->
  cacheUp c = true ->
  pendingCacheKey pending = getCacheKey (pendingCommand pending) ->
  match commandType (pendingCommand pending) with
  | FILE_READ | FILE_LIST =>
      exists result,
        snd (handleCommandResponse now response c) = Some (Returns result)
        /\ cache (fst (handleCommandResponse now response c))
             !! (lit "workspace:cache:" ++ getCacheKey (pendingCommand pending))
           = Some (result, now + CACHE_TTL_MS)
  | _ => cache (fst (handleCommandResponse now response c)) = cache c
  end.
Proof.
  intros Hp Hs Hup Hk. unfold handleCommandResponse. rewrite Hp, Hs.
  cbn [success andb]. rewrite Hk.
  destruct (pendingCommand pending); cbn [shouldCache commandType];
    try reflexivity;
    (unfold setCache; cbn; rewrite Hup; cbn; eexists; split; [reflexivity|];
     apply lookup_insert_eq).
Qed.

End CacheClaims.

(** C4 at work: a connected client asks for the status, the answer
    arrives, and the cache is still empty, so the next Status command goes
    over the channel again. *)
Lemma C4_status_result_is_not_cached_witness :
  let c0 := {| WorkspaceManagerClient.socket := true;
               WorkspaceManagerClient.connectionState := WorkspaceManagerClient.CONNECTED;
               WorkspaceManagerClient.commandTimeout := 10000;
               WorkspaceManagerClient.pendingCommands := ∅;
               WorkspaceManagerClient.cache := ∅;
               WorkspaceManagerClient.cacheUp := true;
               WorkspaceManagerClient.emitted := [] |} in
  let c1 := fst (WorkspaceManagerClient.executeCommand 0 (lit "cmd_1")
                   (StatusCommand (lit "status")) c0) in
  let answer := {| WorkspaceManagerClient.responseId := lit "cmd_1";
                   WorkspaceManagerClient.responseSuccess := true;
                   WorkspaceManagerClient.responseData := Some (lit "ok");
                   WorkspaceManagerClient.responseError := None;
                   WorkspaceManagerClient.responseExecutionTime := 3 |} in
  let c2 := fst (WorkspaceManagerClient.handleCommandResponse 5 answer c1) in
  WorkspaceManagerClient.cache c2 = ∅
  /\ snd (WorkspaceManagerClient.executeCommand 6 (lit "cmd_2")
            (StatusCommand (lit "status")) c2)
     = WorkspaceManagerClient.Awaiting (lit "cmd_2").
Proof.
  intros c0 c1 answer c2.
  assert (Hcache : WorkspaceManagerClient.cache c2 = ∅).
  { unfold c2.
    refine (proj2 (C4_status_result_is_not_cached 5 answer c1
                     {| WorkspaceManagerClient.pendingCommand := StatusCommand (lit "status");
                        WorkspaceManagerClient.pendingCacheKey := lit "status:workspace";
                        WorkspaceManagerClient.timeoutAt := 10000 |}
                     (lit "status") _ eq_refl)).
    vm_compute. reflexivity. }
  split; [exact Hcache|].
  unfold WorkspaceManagerClient.executeCommand, WorkspaceManagerClient.getFromCache.
  rewrite Hcache. reflexivity.
Defined.

(* ===================================================================== *)
(** * The circuit breaker                                                 *)
(* ===================================================================== *)

Section BreakerFacts.
Import CircuitBreaker.

Variable options : CircuitBreakerOptions.

Lemma tick_state (now : Z) (b : t) : state (tick now b) = state b.
Proof.
  unfold tick. destruct (resetTimer b) as [d|]; [|reflexivity].
  destruct (d <=? now); reflexivity.
Qed.

Lemma tick_successCount (now : Z) (b : t) : successCount (tick now b) = successCount b.
Proof.
  unfold tick. destruct (resetTimer b) as [d|]; [|reflexivity].
  destruct (d <=? now); reflexivity.
Qed.

Lemma tick_nextAttemptTime (now : Z) (b : t) :
  nextAttemptTime (tick now b) = nextAttemptTime b.
Proof.
  unfold tick. destruct (resetTimer b) as [d|]; [|reflexivity].
  destruct (d <=? now); reflexivity.
Qed.

(** A timer that is not due leaves the breaker alone. *)
Lemma tick_not_due (now : Z) (b : t) :
  (forall deadline, resetTimer b = Some deadline -> now < deadline) ->
  tick now b = b.
Proof.
  intros H. unfold tick. destruct (resetTimer b) as [d|]; [|reflexivity].
  specialize (H d eq_refl). assert ((d <=? now) = false) as -> by lia. reflexivity.
Qed.

(** Admission in CLOSED and in HALF_OPEN lets the call through. *)
Lemma executeBegin_not_open (now : Z) (b : t) :
  state b <> OPEN ->
  executeBegin now b = (countRequest b, true).
Proof.
  intros H. unfold executeBegin. cbv zeta.
  change (state (countRequest b)) with (state b).
  destruct (state b); [reflexivity|congruence|reflexivity].
Qed.

(** Admission in OPEN: fail fast before the cooldown has elapsed, a trial
    in HALF_OPEN from then on. *)
Lemma executeBegin_open (now next : Z) (b : t) :
  state b = OPEN -> nextAttemptTime b = Some next ->
  executeBegin now b
  = if now <? next then (countRequest b, false)
    else (set_state HALF_OPEN (countRequest b), true).
Proof.
  intros Hs Hn. unfold executeBegin, transitionTo. cbv zeta.
  change (state (countRequest b)) with (state b).
  change (nextAttemptTime (countRequest b)) with (nextAttemptTime b).
  rewrite Hs, Hn. destruct (now <? next); reflexivity.
Qed.

(** A failure settled in HALF_OPEN reopens the circuit and restarts the
    cooldown. *)
Lemma onFailure_half_open (now : Z) (b : t) :
  state b = HALF_OPEN ->
  state (onFailure options now b) = OPEN
  /\ nextAttemptTime (onFailure options now b) = Some (now + timeout options).
Proof.
  intros Hs. unfold onFailure. cbv zeta.
  change (state (recordFailure now b)) with (state b). rewrite Hs.
  unfold scheduleNextAttempt, transitionTo.
  change (state (recordFailure now b)) with (state b). rewrite Hs.
  split; reflexivity.
Qed.

(** A failure settled in CLOSED: the circuit opens when the counter
    reaches the threshold, and otherwise the counter goes up by one and
    the reset timer is armed anew. *)
Lemma onFailure_closed (now : Z) (b : t) :
  state b = CLOSED ->
  let b' := onFailure options now b in
  if failureCount b + 1 >=? failureThreshold options
  then state b' = OPEN /\ nextAttemptTime b' = Some (now + timeout options)
  else state b' = CLOSED /\ failureCount b' = failureCount b + 1
       /\ resetTimer b' = Some (now + resetTimeout options).
Proof.
  intros Hs. unfold onFailure. cbv zeta.
  change (state (recordFailure now b)) with (state b). rewrite Hs.
  change (failureCount (recordFailure now b)) with (failureCount b + 1).
  destruct (failureCount b + 1 >=? failureThreshold options).
  - unfold scheduleNextAttempt, transitionTo.
    change (state (recordFailure now b)) with (state b). rewrite Hs.
    split; reflexivity.
  - unfold scheduleReset, clearResetTimer. cbn. rewrite Hs. auto.
Qed.

(** A failing call made while the circuit is OPEN leaves it OPEN, with a
    cooldown pending. *)
Lemma execute_fail_open (c : call) (b : t) :
  resolves c = false ->
  state b = OPEN -> is_Some (nextAttemptTime b) ->
  state (fst (execute options c b)) = OPEN
  /\ is_Some (nextAttemptTime (fst (execute options c b))).
Proof.
  intros Hf Hs [next Hn]. unfold execute.
  rewrite (executeBegin_open (started c) next)
    by (rewrite ?tick_state, ?tick_nextAttemptTime; assumption).
  destruct (started c <? next).
  - cbn [fst]. change (state (countRequest ?x)) with (state x).
    change (nextAttemptTime (countRequest ?x)) with (nextAttemptTime x).
    rewrite tick_state, tick_nextAttemptTime, Hs, Hn. eauto.
  - cbn [fst]. unfold executeEnd. rewrite Hf.
    destruct (onFailure_half_open (settled c)
                (tick (settled c)
                   (set_state HALF_OPEN (countRequest (tick (started c) b)))))
      as [H1 H2]; [rewrite tick_state; reflexivity|].
    rewrite H1, H2. eauto.
Qed.

(** Once OPEN, a run of failures stays OPEN. *)
Lemma failures_stay_open (cs : list call) :
  forall b,
    allFail cs ->
    state b = OPEN -> is_Some (nextAttemptTime b) ->
    state (executeAll options cs b) = OPEN
    /\ is_Some (nextAttemptTime (executeAll options cs b)).
Proof.
  induction cs as [|c cs IH]; intros b Hfail Hs Hn; [auto|].
  inversion Hfail as [|? ? Hf Hfail']; subst.
  destruct (execute_fail_open c b Hf Hs Hn) as [Hs' Hn'].
  simpl. apply IH; assumption.
Qed.

(** One failure settled in CLOSED while no reset timer is due. *)
Lemma execute_fail_closed (c : call) (b : t) :
  resolves c = false ->
  state b = CLOSED ->
  started c <= settled c ->
  (forall deadline, resetTimer b = Some deadline -> settled c < deadline) ->
  let b' := fst (execute options c b) in
  if failureCount b + 1 >=? failureThreshold options
  then state b' = OPEN /\ nextAttemptTime b' = Some (settled c + timeout options)
  else state b' = CLOSED /\ failureCount b' = failureCount b + 1
       /\ resetTimer b' = Some (settled c + resetTimeout options).
Proof.
  intros Hf Hs Horder Hdead. cbv zeta. unfold execute.
  assert (tick (started c) b = b) as ->
    by (apply tick_not_due; intros d Hd; specialize (Hdead d Hd); lia).
  rewrite executeBegin_not_open by congruence.
  cbn [fst]. unfold executeEnd. rewrite Hf.
  assert (tick (settled c) (countRequest b) = countRequest b) as ->
    by (apply tick_not_due; intros d Hd; apply (Hdead d Hd)).
  exact (onFailure_closed (settled c) (countRequest b) Hs).
Qed.

(** A run of failures that starts in CLOSED and is not interrupted by the
    reset timer ends in OPEN once the counter can reach the threshold. *)
Lemma failures_open (cs : list call) :
  forall b,
    allFail cs ->
    settlesBeforeReset options (resetTimer b) cs ->
    cs <> [] ->
    state b = CLOSED ->
    failureThreshold options <= failureCount b + Z.of_nat (length cs) ->
    state (executeAll options cs b) = OPEN
    /\ is_Some (nextAttemptTime (executeAll options cs b)).
Proof.
  induction cs as [|c cs IH]; intros b Hfail Hquiet Hne Hs Hcount; [congruence|].
  inversion Hfail as [|? ? Hf Hfail']; subst.
  destruct Hquiet as (Horder & Hdead & Hquiet').
  pose proof (execute_fail_closed c b Hf Hs Horder Hdead) as Hstep.
  cbv zeta in Hstep. simpl executeAll.
  destruct (failureCount b + 1 >=? failureThreshold options) eqn:Hge.
  - destruct Hstep as [Hs' Hn'].
    apply failures_stay_open; [exact Hfail'|exact Hs'|rewrite Hn'; eauto].
  - destruct Hstep as (Hs' & Hc' & Ht').
    assert (cs <> []) as Hne'
      by (intros ->; simpl length in Hcount; lia).
    apply IH; [exact Hfail'|rewrite Ht'; exact Hquiet'|exact Hne'|exact Hs'|].
    rewrite Hc'. rewrite length_cons in Hcount. lia.
Qed.

(** A success settled in HALF_OPEN closes the circuit when the counter
    reaches the threshold and otherwise counts. *)
Lemma onSuccess_half_open (now : Z) (b : t) :
  state b = HALF_OPEN ->
  let b' := onSuccess options now b in
  if successCount b + 1 >=? successThreshold options
  then state b' = CLOSED /\ failureCount b' = 0 /\ successCount b' = 0
  else state b' = HALF_OPEN /\ successCount b' = successCount b + 1.
Proof.
  intros Hs. unfold onSuccess. cbv zeta.
  change (state (recordSuccess now b)) with (state b). rewrite Hs.
  cbn [successCount set_successCount recordSuccess].
  destruct (successCount b + 1 >=? successThreshold options).
  - unfold reset, transitionTo. cbn. rewrite Hs. cbn. auto.
  - cbn. auto.
Qed.

Lemma onSuccess_closed (now : Z) (b : t) :
  state b = CLOSED -> state (onSuccess options now b) = CLOSED.
Proof.
  intros Hs. unfold onSuccess. cbv zeta.
  change (state (recordSuccess now b)) with (state b). rewrite Hs.
  cbn. exact Hs.
Qed.

Lemma execute_succeed_not_open (c : call) (b : t) :
  resolves c = true -> state b <> OPEN ->
  fst (execute options c b)
  = onSuccess options (settled c) (tick (settled c) (countRequest (tick (started c) b))).
Proof.
  intros Hr Hs. unfold execute.
  rewrite executeBegin_not_open by (rewrite tick_state; exact Hs).
  cbn [fst]. unfold executeEnd. rewrite Hr. reflexivity.
Qed.

Lemma successes_stay_closed (cs : list call) :
  forall b, allSucceed cs -> state b = CLOSED ->
            state (executeAll options cs b) = CLOSED.
Proof.
  induction cs as [|c cs IH]; intros b Hok Hs; [exact Hs|].
  inversion Hok as [|? ? Hr Hok']; subst. simpl.
  apply IH; [exact Hok'|].
  rewrite execute_succeed_not_open by (assumption || congruence).
  apply onSuccess_closed. rewrite tick_state.
  change (state (countRequest ?x)) with (state x). rewrite tick_state. exact Hs.
Qed.

(** A run of successes that starts in HALF_OPEN ends in CLOSED once the
    counter can reach the threshold. *)
Lemma successes_close (cs : list call) :
  forall b,
    allSucceed cs -> cs <> [] ->
    state b = HALF_OPEN ->
    successThreshold options <= successCount b + Z.of_nat (length cs) ->
    state (executeAll options cs b) = CLOSED.
Proof.
  induction cs as [|c cs IH]; intros b Hok Hne Hs Hcount; [congruence|].
  inversion Hok as [|? ? Hr Hok']; subst. simpl executeAll.
  rewrite execute_succeed_not_open by (assumption || congruence).
  set (b1 := tick (settled c) (countRequest (tick (started c) b))).
  assert (Hs1 : state b1 = HALF_OPEN)
    by (unfold b1; rewrite tick_state; cbn; rewrite tick_state; exact Hs).
  assert (Hc1 : successCount b1 = successCount b)
    by (unfold b1; rewrite tick_successCount; cbn; apply tick_successCount).
  pose proof (onSuccess_half_open (settled c) b1 Hs1) as Hstep.
  cbv zeta in Hstep. rewrite Hc1 in Hstep.
  destruct (successCount b + 1 >=? successThreshold options) eqn:Hge.
  - destruct Hstep as (Hs' & _). apply successes_stay_closed; assumption.
  - destruct Hstep as (Hs' & Hc').
    assert (cs <> []) as Hne' by (intros ->; simpl length in Hcount; lia).
    apply IH; [exact Hok'|exact Hne'|exact Hs'|].
    rewrite Hc'. rewrite length_cons in Hcount. lia.
Qed.

End BreakerFacts.

Section BreakerClaims.
Import CircuitBreaker.

Variable options : CircuitBreakerOptions.

(** C2, as the code has it, for calls executed one after the other.
    (1) From CLOSED, a run of [failureThreshold] consecutive failures, none
    of which comes after the failure-count reset timer armed by the one
    before it has fired, leaves the breaker OPEN with a cooldown pending.
    (2) In OPEN a call made before the cooldown has elapsed fails fast and
    the operation is not run; a call made once it has elapsed is admitted
    and runs in HALF_OPEN.
    (3) From HALF_OPEN, a run of [successThreshold] consecutive successes
    leaves the breaker CLOSED.
    (4) From HALF_OPEN, a single failure leaves the breaker OPEN with the
    cooldown restarted from the time of the failure. *)
Theorem C2_circuit_breaker_transitions (b : t) (c : call) (cs : list call) :
  (state b = CLOSED -> 0 <= failureCount b ->
   0 < failureThreshold options ->
   Z.of_nat (length cs) = failureThreshold options ->
   allFail cs ->
   settlesBeforeReset options (resetTimer b) cs ->
   state (executeAll options cs b) = OPEN
   /\ is_Some (nextAttemptTime (executeAll options cs b)))
  /\ (state b = OPEN ->
      forall next, nextAttemptTime b = Some next ->
        (started c < next ->
         snd (execute options c b) = FailedFast
         /\ state (fst (execute options c b)) = OPEN
         /\ nextAttemptTime (fst (execute options c b)) = Some next)
        /\ (next <= started c ->
            exists b1,
              executeBegin (started c) (tick (started c) b) = (b1, true)
              /\ state b1 = HALF_OPEN
              /\ state (tick (settled c) b1) = HALF_OPEN))
  /\ (state b = HALF_OPEN -> 0 <= successCount b ->
      0 < successThreshold options ->
      Z.of_nat (length cs) = successThreshold options ->
      allSucceed cs ->
      state (executeAll options cs b) = CLOSED)
  /\ (state b = HALF_OPEN -> resolves c = false ->
      snd (execute options c b) = Rejected
      /\ state (fst (execute options c b)) = OPEN
      /\ nextAttemptTime (fst (execute options c b))
         = Some (settled c + timeout options)).
Proof.
  repeat match goal with |- _ /\ _ => split end.
  - intros Hs Hc Hpos Hlen Hfail Hquiet.
    apply failures_open; try assumption.
    + intros ->. simpl in Hlen. lia.
    + lia.
  - intros Hs next Hn. split.
    + intros Hlt. unfold execute.
      rewrite (executeBegin_open (started c) next)
        by (rewrite ?tick_state, ?tick_nextAttemptTime; assumption).
      assert ((started c <? next) = true) as -> by lia.
      cbn [fst snd]. change (state (countRequest ?x)) with (state x).
      change (nextAttemptTime (countRequest ?x)) with (nextAttemptTime x).
      rewrite tick_state, tick_nextAttemptTime. auto.
    + intros Hge.
      rewrite (executeBegin_open (started c) next)
        by (rewrite ?tick_state, ?tick_nextAttemptTime; assumption).
      assert ((started c <? next) = false) as -> by lia.
      eexists. split; [reflexivity|]. split; [reflexivity|].
      rewrite tick_state. reflexivity.
  - intros Hs Hc Hpos Hlen Hok.
    apply successes_close; try assumption.
    + intros ->. simpl in Hlen. lia.
    + lia.
  - intros Hs Hf. unfold execute.
    rewrite executeBegin_not_open by (rewrite tick_state; congruence).
    cbn [fst snd]. unfold executeEnd. rewrite Hf.
    split; [reflexivity|].
    apply onFailure_half_open. rewrite tick_state.
    change (state (countRequest ?x)) with (state x). rewrite tick_state. exact Hs.
Qed.

End BreakerClaims.

(** C2 at work with the default options: five failures one millisecond
    apart open a new breaker. *)
Lemma C2_circuit_breaker_transitions_witness :
  let fail (at_ : Z) :=
    {| CircuitBreaker.started := at_; CircuitBreaker.settled := at_;
       CircuitBreaker.resolves := false |} in
  let cs := [fail 0; fail 1; fail 2; fail 3; fail 4] in
  allFail cs
  /\ settlesBeforeReset CircuitBreaker.DEFAULT_OPTIONS None cs
  /\ CircuitBreaker.state
       (CircuitBreaker.executeAll CircuitBreaker.DEFAULT_OPTIONS cs CircuitBreaker.new)
     = CircuitBreaker.OPEN.
Proof.
  intros fail cs.
  assert (Hfail : allFail cs) by (repeat constructor).
  assert (Hquiet : settlesBeforeReset CircuitBreaker.DEFAULT_OPTIONS None cs).
  { simpl.
    repeat (split; [lia|split; [intros d Hd; (discriminate || (injection Hd as <-; lia))|]]).
    exact I. }
  split; [exact Hfail|]. split; [exact Hquiet|].
  destruct (C2_circuit_breaker_transitions CircuitBreaker.DEFAULT_OPTIONS
              CircuitBreaker.new (fail 0) cs) as (H & _).
  apply H; try reflexivity; try assumption; simpl; lia.
Defined.

(** C2 as stated fails when the failures are far apart: with the default
    options (threshold 5, reset after 300000 ms), five consecutive failures
    400000 ms apart leave a new breaker CLOSED, the counter having been
    reset before each of them. *)
Lemma C2_slow_failures_counterexample :
  let fail (at_ : Z) :=
    {| CircuitBreaker.started := at_; CircuitBreaker.settled := at_;
       CircuitBreaker.resolves := false |} in
  let cs := [fail 0; fail 400000; fail 800000; fail 1200000; fail 1600000] in
  allFail cs
  /\ Z.of_nat (length cs)
     = CircuitBreaker.failureThreshold CircuitBreaker.DEFAULT_OPTIONS
  /\ Forall (fun r => r = CircuitBreaker.Rejected)
       (List.map (fun k =>
                    snd (CircuitBreaker.execute CircuitBreaker.DEFAULT_OPTIONS
                           (nth k cs (fail 0))
                           (CircuitBreaker.executeAll CircuitBreaker.DEFAULT_OPTIONS
                              (firstn k cs) CircuitBreaker.new)))
                 [0%nat; 1%nat; 2%nat; 3%nat; 4%nat])
  /\ CircuitBreaker.state
       (CircuitBreaker.executeAll CircuitBreaker.DEFAULT_OPTIONS cs CircuitBreaker.new)
     = CircuitBreaker.CLOSED
  /\ CircuitBreaker.failureCount
       (CircuitBreaker.executeAll CircuitBreaker.DEFAULT_OPTIONS cs CircuitBreaker.new)
     = 1.
Proof.
  cbv zeta. split; [repeat constructor|]. split; [reflexivity|].
  split; [repeat constructor|]. split; reflexivity.
Qed.

(* ===================================================================== *)
(** * The event throttle                                                  *)
(* ===================================================================== *)

Section FilterFacts.
Context {A : Type}.

Lemma filter_narrow (p q : A -> bool) (l : list A) :
  (forall x, In x l -> p x = true -> q x = true) ->
  List.filter p (List.filter q l) = List.filter p l.
Proof.
  induction l as [|x l IH]; intros H; [reflexivity|]. simpl.
  destruct (q x) eqn:Hq; simpl.
  - destruct (p x); rewrite IH; auto; intros; apply H; simpl; auto.
  - destruct (p x) eqn:Hp.
    + rewrite (H x) in Hq; [discriminate|left; reflexivity|exact Hp].
    + apply IH. intros; apply H; simpl; auto.
Qed.

Lemma filter_length_mono (p q : A -> bool) (l : list A) :
  (forall x, In x l -> p x = true -> q x = true) ->
  (length (List.filter p l) <= length (List.filter q l))%nat.
Proof.
  induction l as [|x l IH]; intros H; [reflexivity|]. simpl.
  assert (IH' : (length (List.filter p l) <= length (List.filter q l))%nat)
    by (apply IH; intros; apply H; simpl; auto).
  destruct (p x) eqn:Hp.
  - rewrite (H x); [simpl; lia|left; reflexivity|exact Hp].
  - destruct (q x); simpl; lia.
Qed.

Lemma filter_all_false (p : A -> bool) (l : list A) :
  (forall x, In x l -> p x = false) -> List.filter p l = [].
Proof.
  induction l as [|x l IH]; intros H; [reflexivity|]. simpl.
  rewrite (H x) by (left; reflexivity). apply IH. intros; apply H; simpl; auto.
Qed.

Lemma filter_map_swap {B : Type} (f : A -> B) (p : B -> bool) (l : list A) :
  List.filter p (List.map f l) = List.map f (List.filter (fun x => p (f x)) l).
Proof.
  induction l as [|x l IH]; [reflexivity|]. simpl.
  destruct (p (f x)); simpl; rewrite IH; reflexivity.
Qed.

End FilterFacts.

Section ThrottleFacts.
Import EventBroadcaster.

Variable ty : WorkspaceEventType.
Variable config : ThrottleConfig.
Hypothesis config_enabled : enabled config = true.
Hypothesis config_limit : 1 <= maxEvents config.

Lemma broadcast_config (now : Z) (e : WorkspaceEvent) (b : t) :
  throttleConfig (fst (broadcast now e b)) = throttleConfig b.
Proof.
  unfold broadcast. destruct (shouldThrottle now e b); [reflexivity|].
  cbn [fst]. unfold updateThrottleState.
  destruct (throttleConfig b !! type e) as [c|]; [|reflexivity].
  destruct (negb (enabled c)); reflexivity.
Qed.

Lemma broadcast_other_state (now : Z) (e : WorkspaceEvent) (b : t) :
  type e <> ty ->
  throttleState (fst (broadcast now e b)) !! ty = throttleState b !! ty.
Proof.
  intros Hne. unfold broadcast. destruct (shouldThrottle now e b); [reflexivity|].
  cbn [fst]. unfold updateThrottleState.
  destruct (throttleConfig b !! type e) as [c|]; [|reflexivity].
  destruct (negb (enabled c)); [reflexivity|].
  cbn [throttleState]. apply lookup_insert_ne. exact Hne.
Qed.

(** Time passing keeps the account. *)
Lemma accountsFor_later (past : list arrival) (clock now : Z) (b : t) :
  accountsFor ty config past clock b -> clock <= now ->
  accountsFor ty config past now b.
Proof.
  intros (Hc & Hp & Hs) Hle. split; [exact Hc|]. split.
  - eapply Forall_impl; [exact Hp|]. cbn. intros a (? & ? & ?). repeat split; auto; lia.
  - destruct (throttleState b !! ty) as [st|]; [|exact Hs].
    destruct Hs as (Hl & Hf & He). repeat split; auto; lia.
Qed.

Lemma accountsFor_other (past : list arrival) (clock now : Z)
      (e : WorkspaceEvent) (b : t) :
  accountsFor ty config past clock b -> clock <= now -> type e <> ty ->
  accountsFor ty config past now (fst (broadcast now e b)).
Proof.
  intros H Hle Hne. apply (accountsFor_later _ _ now) in H; [|exact Hle].
  destruct H as (Hc & Hp & Hs). split; [rewrite broadcast_config; exact Hc|].
  split; [exact Hp|]. rewrite broadcast_other_state by exact Hne. exact Hs.
Qed.

(** On arrivals of the one type that carry their arrival time, counting by
    timestamp and counting by arrival time agree. *)
Lemma held_filter (past : list arrival) (clock now : Z) :
  Forall (fun a => type (snd a) = ty /\ timestamp (snd a) = fst a /\ fst a <= clock) past ->
  Z.of_nat (length (eventsInWindow now (windowMs config) (List.map snd past)))
  = heldAt ty now (windowMs config) past.
Proof.
  intros Hp. unfold eventsInWindow, heldAt.
  rewrite filter_map_swap, length_map. f_equal. f_equal.
  apply List.filter_ext_in. intros a Ha.
  rewrite Forall_forall in Hp. destruct (Hp a) as (Hty & Hts & _);
    [apply list_elem_of_In; exact Ha|].
  unfold ofType. rewrite Hts, bool_decide_eq_true_2 by exact Hty. reflexivity.
Qed.

(** The events the window still holds at [now] are those forwarded less
    than a window ago. *)
Lemma held_in_state (past : list arrival) (clock now : Z) (b : t) (st : ThrottleState) :
  accountsFor ty config past clock b -> clock <= now ->
  throttleState b !! ty = Some st ->
  Z.of_nat (length (eventsInWindow now (windowMs config) (events st)))
  = heldAt ty now (windowMs config) past.
Proof.
  intros (Hc & Hp & Hs) Hle Hst. rewrite Hst in Hs. destruct Hs as (Hl & Hf & He).
  rewrite He. unfold eventsInWindow.
  rewrite filter_narrow; [exact (held_filter past clock now Hp)|].
  intros x _ Hx. apply Z.ltb_lt in Hx. apply Z.ltb_lt. lia.
Qed.

(** The throttle drops an event exactly when the window holds the limit. *)
Lemma shouldThrottle_held (past : list arrival) (clock now : Z)
      (e : WorkspaceEvent) (b : t) :
  accountsFor ty config past clock b -> clock <= now -> type e = ty ->
  shouldThrottle now e b
  = (heldAt ty now (windowMs config) past >=? maxEvents config).
Proof.
  intros Hacc Hle Hty. pose proof Hacc as (Hc & Hp & Hs).
  unfold shouldThrottle. rewrite Hty, Hc, config_enabled. cbn [negb].
  destruct (throttleState b !! ty) as [st|] eqn:Hst.
  - destruct Hs as (Hl & Hf & He).
    destruct (now - lastBroadcast st >? windowMs config) eqn:Hgap.
    + apply Z.gtb_lt in Hgap.
      assert (heldAt ty now (windowMs config) past = 0) as ->.
      { unfold heldAt. rewrite filter_all_false; [reflexivity|].
        intros a Ha. rewrite Forall_forall in Hf.
        specialize (Hf a (proj2 (list_elem_of_In _ _) Ha)).
        apply andb_false_iff. right. apply Z.ltb_ge. lia. }
      symmetry. rewrite Z.geb_leb. apply Z.leb_gt. lia.
    + rewrite (held_in_state past clock now b st Hacc Hle Hst). reflexivity.
  - subst past. unfold heldAt. simpl. symmetry. rewrite Z.geb_leb. apply Z.leb_gt. lia.
Qed.

(** Forwarding an event appends it to the account. *)
Lemma update_accounts (past : list arrival) (clock now : Z)
      (e : WorkspaceEvent) (b : t) :
  accountsFor ty config past clock b -> clock <= now ->
  type e = ty -> timestamp e = now ->
  accountsFor ty config (past ++ [(now, e)]) now (updateThrottleState now e b).
Proof.
  intros (Hc & Hp & Hs) Hle Hty Hts.
  unfold updateThrottleState. rewrite Hty, Hc, config_enabled. cbn [negb].
  split; [exact Hc|]. split.
  - apply Forall_app. split.
    + eapply Forall_impl; [exact Hp|]. cbn. intros a (? & ? & ?).
      repeat split; auto; lia.
    + constructor; [|constructor]. cbn. repeat split; auto; lia.
  - cbn [throttleState]. rewrite lookup_insert_eq. cbn [lastBroadcast events].
    split; [lia|]. split.
    + apply Forall_app. split.
      * eapply Forall_impl; [exact Hp|]. cbn. intros a (? & ? & ?). lia.
      * constructor; [cbn; lia|constructor].
    + rewrite map_app. cbn [List.map snd].
      unfold eventsInWindow. rewrite !List.filter_app. f_equal.
      destruct (throttleState b !! ty) as [st|].
      * destruct Hs as (Hl & Hf & He). rewrite He. unfold eventsInWindow.
        apply filter_narrow. intros x _ Hx.
        apply Z.ltb_lt in Hx. apply Z.ltb_lt. lia.
      * subst past. reflexivity.
Qed.

(** One more forwarded arrival keeps the rate bounded when the window held
    fewer than the limit. *)
Lemma boundedRate_snoc (past : list arrival) (now : Z) (e : WorkspaceEvent) :
  Forall (fun a => fst a <= now) past ->
  boundedRate ty (windowMs config) (maxEvents config) past ->
  heldAt ty now (windowMs config) past < maxEvents config ->
  boundedRate ty (windowMs config) (maxEvents config) (past ++ [(now, e)]).
Proof.
  intros Hle Hb Hheld from. unfold forwardedIn.
  rewrite List.filter_app, length_app.
  destruct (inInterval from (windowMs config) (now, e)) eqn:Hin.
  - assert (Hmono :
              (length (List.filter (fun a => ofType ty a
                                             && inInterval from (windowMs config) a) past)
               <= length (List.filter (fun a => ofType ty a
                                                && (now - fst a <? windowMs config)%Z) past))%nat).
    { apply filter_length_mono. intros a Ha Hcond.
      apply andb_true_iff in Hcond as [Hty Hint]. rewrite Hty. cbn [andb].
      unfold inInterval in Hint, Hin. cbn [fst] in Hin.
      apply andb_true_iff in Hint as [H1 H2]. apply andb_true_iff in Hin as [H3 H4].
      apply Z.ltb_lt. lia. }
    unfold heldAt in Hheld.
    assert ((length (List.filter (fun a => ofType ty a
                                           && inInterval from (windowMs config) a)
                       [(now, e)]) <= 1)%nat)
      by (simpl; destruct (_ && _); simpl; lia).
    lia.
  - assert (List.filter (fun a => ofType ty a && inInterval from (windowMs config) a)
                        [(now, e)] = []) as ->
      by (simpl; rewrite Hin, andb_false_r; reflexivity).
    simpl length. rewrite Nat.add_0_r. apply Hb.
Qed.

End ThrottleFacts.

Section ThrottleRun.
Import EventBroadcaster.

Variable ty : WorkspaceEventType.
Variable config : ThrottleConfig.
Hypothesis config_enabled : enabled config = true.
Hypothesis config_limit : 1 <= maxEvents config.

Lemma forwardedIn_typed (from w : Z) (l : list arrival) :
  forwardedIn ty from w (List.filter (ofType ty) l) = forwardedIn ty from w l.
Proof.
  unfold forwardedIn. rewrite filter_narrow; [reflexivity|].
  intros x _ H. apply andb_true_iff in H as [H _]. exact H.
Qed.

Lemma heldAt_typed (now w : Z) (l : list arrival) :
  heldAt ty now w (List.filter (ofType ty) l) = heldAt ty now w l.
Proof.
  unfold heldAt. rewrite filter_narrow; [reflexivity|].
  intros x _ H. apply andb_true_iff in H as [H _]. exact H.
Qed.

(** What [broadcast] does with an arrival of the type, in terms of the
    account. *)
Lemma broadcast_typed (past : list arrival) (clock now : Z)
      (e : WorkspaceEvent) (b : t) :
  accountsFor ty config past clock b -> clock <= now ->
  type e = ty -> timestamp e = now ->
  (maxEvents config <= heldAt ty now (windowMs config) past ->
   broadcast now e b = (b, None))
  /\ (heldAt ty now (windowMs config) past < maxEvents config ->
      exists receivers,
        broadcast now e b = (updateThrottleState now e b, Some receivers)
        /\ accountsFor ty config (past ++ [(now, e)]) now (updateThrottleState now e b)).
Proof.
  intros Hacc Hle Hty Hts. unfold broadcast.
  rewrite (shouldThrottle_held ty config config_enabled config_limit
             past clock now e b Hacc Hle Hty).
  split; intros Hheld.
  - assert ((heldAt ty now (windowMs config) past >=? maxEvents config) = true) as ->
      by (rewrite Z.geb_leb; apply Z.leb_le; exact Hheld).
    reflexivity.
  - assert ((heldAt ty now (windowMs config) past >=? maxEvents config) = false) as ->
      by (rewrite Z.geb_leb; apply Z.leb_gt; exact Hheld).
    eexists. split; [reflexivity|].
    apply (update_accounts ty config config_enabled past clock); assumption.
Qed.

(** Along a run the account is kept and the rate stays bounded. *)
Lemma broadcastAll_accounts (arrivals : list arrival) :
  forall b past clock,
    accountsFor ty config past clock b ->
    boundedRate ty (windowMs config) (maxEvents config) past ->
    clockOrdered clock arrivals ->
    stampedOnArrival ty arrivals ->
    accountsFor ty config
      (past ++ List.filter (ofType ty) (snd (broadcastAll arrivals b)))
      (lastClock clock arrivals) (fst (broadcastAll arrivals b))
    /\ boundedRate ty (windowMs config) (maxEvents config)
         (past ++ List.filter (ofType ty) (snd (broadcastAll arrivals b))).
Proof.
  induction arrivals as [|[now e] rest IH]; intros b past clock Hacc Hb Hord Hst.
  - simpl. rewrite app_nil_r. auto.
  - destruct Hord as [Hle Hord]. cbn [fst] in Hle, Hord.
    inversion Hst as [|? ? Hstamp Hst']; subst. cbn [fst snd] in Hstamp.
    cbn [broadcastAll lastClock fst].
    destruct (decide (type e = ty)) as [Hty|Hty].
    + destruct (broadcast_typed past clock now e b Hacc Hle Hty (Hstamp Hty))
        as [Hdrop Hpass].
      destruct (Z_le_gt_dec (maxEvents config)
                            (heldAt ty now (windowMs config) past)) as [Hfull|Hroom].
      * rewrite (Hdrop Hfull).
        destruct (broadcastAll rest b) as [b'' fwd] eqn:Er. cbn [fst snd].
        specialize (IH b past now (accountsFor_later ty config _ _ _ _ Hacc Hle)
                       Hb Hord Hst').
        rewrite Er in IH. exact IH.
      * destruct (Hpass ltac:(lia)) as (receivers & -> & Hacc').
        destruct (broadcastAll rest (updateThrottleState now e b)) as [b'' fwd] eqn:Er.
        cbn [fst snd].
        assert (Hb' : boundedRate ty (windowMs config) (maxEvents config)
                        (past ++ [(now, e)])).
        { apply boundedRate_snoc; [|exact Hb|lia].
          destruct Hacc as (_ & Hp & _).
          eapply Forall_impl; [exact Hp|]. cbn. intros a (_ & _ & ?). lia. }
        specialize (IH _ _ now Hacc' Hb' Hord Hst'). rewrite Er in IH.
        cbn [fst snd] in IH. cbn [List.filter].
        assert (ofType ty (now, e) = true) as ->
          by (unfold ofType; apply bool_decide_eq_true_2; exact Hty).
        rewrite <- app_assoc in IH. exact IH.
    + pose proof (accountsFor_other ty config past clock now e b Hacc Hle Hty) as Hacc'.
      destruct (broadcast now e b) as [b' out]. cbn [fst] in Hacc'.
      destruct (broadcastAll rest b') as [b'' fwd] eqn:Er. cbn [fst snd].
      specialize (IH b' past now Hacc' Hb Hord Hst'). rewrite Er in IH.
      cbn [fst snd] in IH.
      assert (ofType ty (now, e) = false) as Hoff
        by (unfold ofType; apply bool_decide_eq_false_2; exact Hty).
      destruct out; cbn [List.filter]; rewrite ?Hoff; exact IH.
Qed.

Lemma clockOrdered_split (clock : Z) (pre : list arrival) (a : arrival)
      (post : list arrival) :
  clockOrdered clock (pre ++ a :: post) ->
  clockOrdered clock pre /\ lastClock clock pre <= fst a.
Proof.
  revert clock. induction pre as [|x pre IH]; intros clock H.
  - destruct H as [H _]. split; [exact I|exact H].
  - destruct H as [H1 H2]. destruct (IH _ H2) as [H3 H4].
    split; [split; assumption|exact H4].
Qed.

End ThrottleRun.

Section ThrottleClaims.
Import EventBroadcaster.

(** C3, as the code has it.  Take an event type whose throttle is enabled
    with window [w] and a limit [m] of at least 1, a broadcaster that has
    no window for the type yet, and arrivals in clock order whose events of
    the type carry their arrival time as timestamp.  Then no interval
    [from, from + w) holds more than [m] forwarded events of the type; and
    an event of the type is dropped, the broadcaster unchanged, when [m]
    events forwarded less than [w] before it are held, and is otherwise
    forwarded and appended to the window. *)
Theorem C3_throttle_bound
        (ty : WorkspaceEventType) (config : ThrottleConfig) (b : t)
        (clock : Z) (arrivals : list arrival) :
  throttleConfig b !! ty = Some config ->
  enabled config = true ->
  1 <= maxEvents config ->
  throttleState b !! ty = None ->
  clockOrdered clock arrivals ->
  stampedOnArrival ty arrivals ->
  boundedRate ty (windowMs config) (maxEvents config) (snd (broadcastAll arrivals b))
  /\ (forall pre now e post,
        arrivals = pre ++ (now, e) :: post -> type e = ty ->
        let b1 := fst (broadcastAll pre b) in
        let held := heldAt ty now (windowMs config) (snd (broadcastAll pre b)) in
        (maxEvents config <= held -> broadcast now e b1 = (b1, None))
        /\ (held < maxEvents config ->
            exists receivers st,
              broadcast now e b1 = (updateThrottleState now e b1, Some receivers)
              /\ throttleState (updateThrottleState now e b1) !! ty = Some st
              /\ lastBroadcast st = now
              /\ (0 < windowMs config -> In e (events st)))).
Proof.
  intros Hc Hen Hm Hfresh Hord Hst.
  assert (Hacc : accountsFor ty config [] clock b).
  { split; [exact Hc|]. split; [constructor|]. rewrite Hfresh. reflexivity. }
  assert (Hb : boundedRate ty (windowMs config) (maxEvents config) []).
  { intros from. unfold forwardedIn. simpl. lia. }
  split.
  - destruct (broadcastAll_accounts ty config Hen Hm arrivals b [] clock
                Hacc Hb Hord Hst) as [_ H].
    intros from. specialize (H from). cbn [app] in H.
    rewrite forwardedIn_typed in H. exact H.
  - intros pre now e post -> Hty. cbv zeta.
    destruct (clockOrdered_split clock pre (now, e) post Hord) as [Hord1 Hle].
    cbn [fst] in Hle.
    apply Forall_app in Hst as [Hst1 Hst2].
    apply Forall_cons in Hst2 as [Hstamp _]. cbn [fst snd] in Hstamp.
    destruct (broadcastAll_accounts ty config Hen Hm pre b [] clock
                Hacc Hb Hord1 Hst1) as [Hacc1 _].
    cbn [app] in Hacc1.
    destruct (broadcast_typed ty config Hen Hm _ _ now e _ Hacc1 Hle Hty (Hstamp Hty))
      as [Hdrop Hpass].
    rewrite heldAt_typed in Hdrop, Hpass.
    split; [exact Hdrop|].
    intros Hroom. destruct (Hpass Hroom) as (receivers & Heq & Hacc2).
    destruct Hacc2 as (_ & _ & Hstate).
    destruct (throttleState (updateThrottleState now e (fst (broadcastAll pre b))) !! ty)
      as [st|] eqn:Elook.
    + exists receivers, st. split; [exact Heq|]. split; [reflexivity|].
      destruct Hstate as (Hl & Hf & He).
      apply Forall_app in Hf as [_ Hf]. apply Forall_cons in Hf as [Hnow _].
      cbn [fst] in Hnow. split; [lia|].
      intros Hw. rewrite He. rewrite map_app. unfold eventsInWindow.
      rewrite List.filter_app. apply in_or_app. right. cbn [List.map snd List.filter].
      rewrite (Hstamp Hty).
      assert ((lastBroadcast st - now <? windowMs config) = true) as -> by lia.
      left. reflexivity.
    + exfalso. destruct (List.filter (ofType ty) (snd (broadcastAll pre b)));
        discriminate.
Qed.

End ThrottleClaims.

(** C3 at work with the constructor's configuration: of five build events
    arriving at 0, 1, 2, 5000 and 5001 the third is dropped, and any
    interval of five seconds holds at most two of the forwarded ones. *)
Lemma C3_throttle_bound_witness :
  let ev (at_ : Z) : EventBroadcaster.arrival :=
    (at_, {| EventBroadcaster.type := EventBroadcaster.BUILD_COMPLETE;
             EventBroadcaster.timestamp := at_;
             EventBroadcaster.payload := [] |}) in
  let arrivals := [ev 0; ev 1; ev 2; ev 5000; ev 5001] in
  clockOrdered 0 arrivals
  /\ stampedOnArrival EventBroadcaster.BUILD_COMPLETE arrivals
  /\ snd (EventBroadcaster.broadcastAll arrivals EventBroadcaster.new)
     = [ev 0; ev 1; ev 5000; ev 5001]
  /\ boundedRate EventBroadcaster.BUILD_COMPLETE 5000 2
       (snd (EventBroadcaster.broadcastAll arrivals EventBroadcaster.new)).
Proof.
  intros ev arrivals.
  assert (Hord : clockOrdered 0 arrivals) by (simpl; lia).
  assert (Hst : stampedOnArrival EventBroadcaster.BUILD_COMPLETE arrivals)
    by (repeat constructor).
  split; [exact Hord|]. split; [exact Hst|]. split; [vm_compute; reflexivity|].
  exact (proj1 (C3_throttle_bound EventBroadcaster.BUILD_COMPLETE
                  {| EventBroadcaster.enabled := true;
                     EventBroadcaster.windowMs := 5000;
                     EventBroadcaster.maxEvents := 2 |}
                  EventBroadcaster.new 0 arrivals
                  eq_refl eq_refl ltac:(simpl; lia) eq_refl Hord Hst)).
Defined.

(** C3 as stated fails in four ways.  With the constructor's
    configuration (build events: at most 2 per 5000 ms), three build events
    that carry the old timestamp 0 and arrive at 10000, 10001 and 10002 are
    all forwarded, three within three milliseconds: the window is pruned by
    the events' own timestamps.  With the limit set to 0 the first event is
    forwarded all the same.  With the throttle of the type disabled nothing
    is ever dropped.  And with events stamped on arrival at 0, 1, 5000 and
    5001, all four are forwarded, three of them within the closed interval
    from 1 to 5001, whose length is the window: the bound holds for
    intervals that exclude their end only. *)
Lemma C3_throttle_counterexample :
  let ev (ts : Z) : EventBroadcaster.WorkspaceEvent :=
    {| EventBroadcaster.type := EventBroadcaster.BUILD_COMPLETE;
       EventBroadcaster.timestamp := ts;
       EventBroadcaster.payload := [] |} in
  let stale := [(10000, ev 0); (10001, ev 0); (10002, ev 0)] in
  let fresh := [(0, ev 0); (1, ev 1); (2, ev 2)] in
  let edge := [(0, ev 0); (1, ev 1); (5000, ev 5000); (5001, ev 5001)] in
  let limit0 :=
    EventBroadcaster.updateThrottleConfig EventBroadcaster.BUILD_COMPLETE
      {| EventBroadcaster.enabled := true; EventBroadcaster.windowMs := 5000;
         EventBroadcaster.maxEvents := 0 |} EventBroadcaster.new in
  let disabled :=
    EventBroadcaster.updateThrottleConfig EventBroadcaster.BUILD_COMPLETE
      {| EventBroadcaster.enabled := false; EventBroadcaster.windowMs := 5000;
         EventBroadcaster.maxEvents := 2 |} EventBroadcaster.new in
  (snd (EventBroadcaster.broadcastAll stale EventBroadcaster.new) = stale
   /\ forwardedIn EventBroadcaster.BUILD_COMPLETE 10000 5000
        (snd (EventBroadcaster.broadcastAll stale EventBroadcaster.new)) = 3)
  /\ (snd (EventBroadcaster.broadcastAll [(0, ev 0)] limit0) = [(0, ev 0)]
      /\ forwardedIn EventBroadcaster.BUILD_COMPLETE 0 5000
           (snd (EventBroadcaster.broadcastAll [(0, ev 0)] limit0)) = 1)
  /\ (snd (EventBroadcaster.broadcastAll fresh disabled) = fresh
      /\ forwardedIn EventBroadcaster.BUILD_COMPLETE 0 5000
           (snd (EventBroadcaster.broadcastAll fresh disabled)) = 3)
  /\ (snd (EventBroadcaster.broadcastAll edge EventBroadcaster.new) = edge
      /\ Z.of_nat (length (List.filter (fun a => (1 <=? fst a) && (fst a <=? 5001))
                             (snd (EventBroadcaster.broadcastAll edge
                                     EventBroadcaster.new)))) = 3).
Proof. cbv zeta. repeat split; vm_compute; reflexivity. Qed.

(* ===================================================================== *)
(** * Chunking of long messages                                           *)
(* ===================================================================== *)

Section IndexFacts.

Lemma startsWith_single (s : str) (c : Z) (j : nat) :
  startsWith (drop j s) [c] = true <-> s !! j = Some c.
Proof.
  replace (s !! j) with (drop j s !! 0%nat)
    by (rewrite lookup_drop; f_equal; lia).
  destruct (drop j s) as [|b t]; simpl.
  - split; discriminate.
  - rewrite andb_true_r. split.
    + intros H. apply Z.eqb_eq in H. congruence.
    + intros [= ->]. apply Z.eqb_refl.
Qed.

(** The scan of [lastIndexOf]: either nothing was found up to [pos] and the
    accumulator is returned, or the result is the last hit up to [pos]. *)
Lemma lastIndexOfAux_spec (p : str) (s : str) :
  forall i pos acc,
    let r := lastIndexOfAux s p i pos acc in
    (r = acc
     /\ forall j, (j <= length s)%nat -> i + Z.of_nat j <= pos ->
                  startsWith (drop j s) p = false)
    \/ (exists j, (j <= length s)%nat /\ r = i + Z.of_nat j /\ r <= pos
                  /\ startsWith (drop j s) p = true
                  /\ forall j', (j < j' <= length s)%nat -> i + Z.of_nat j' <= pos ->
                                startsWith (drop j' s) p = false).
Proof.
  induction s as [|b s IH]; intros i pos acc; cbv zeta.
  - simpl lastIndexOfAux.
    destruct ((i <=? pos) && startsWith [] p) eqn:E.
    + right. exists 0%nat. apply andb_true_iff in E as [E1 E2].
      split; [simpl; lia|]. split; [lia|]. split; [lia|]. split; [exact E2|].
      intros j' Hj'. simpl in Hj'. lia.
    + left. split; [reflexivity|]. intros j Hj Hpos.
      assert (j = 0%nat) as -> by (simpl in Hj; lia).
      apply andb_false_iff in E as [E|E]; [lia|exact E].
  - simpl lastIndexOfAux.
    set (acc' := if (i <=? pos) && startsWith (b :: s) p then i else acc).
    destruct (IH (i + 1) pos acc') as [[Hr Hnone]|(j & Hj & Hr & Hle & Hhit & Hlast)].
    + destruct ((i <=? pos) && startsWith (b :: s) p) eqn:E.
      * right. exists 0%nat. apply andb_true_iff in E as [E1 E2].
        split; [simpl; lia|]. split; [rewrite Hr; unfold acc'; lia|].
        split; [rewrite Hr; unfold acc'; lia|]. split; [exact E2|].
        intros j' Hj' Hpos. destruct j' as [|j']; [lia|].
        simpl drop. apply Hnone; [simpl in Hj'; lia|lia].
      * left. split; [rewrite Hr; reflexivity|].
        intros j Hj Hpos. destruct j as [|j].
        -- simpl drop. apply andb_false_iff in E as [E|E]; [lia|exact E].
        -- simpl drop. apply Hnone; [simpl in Hj; lia|lia].
    + right. exists (S j). split; [simpl; lia|]. split; [lia|]. split; [exact Hle|].
      split; [exact Hhit|].
      intros j' Hj' Hpos. destruct j' as [|j']; [lia|].
      simpl drop. apply Hlast; [simpl in Hj'; lia|lia].
Qed.

(** [lastIndexOf] for a single code unit and a position that is not
    negative. *)
Lemma lastIndexOf_single (s : str) (c : Z) (pos : Z) :
  0 <= pos ->
  let r := lastIndexOf s [c] pos in
  (r = -1 /\ forall j, 0 <= j <= pos -> s !! Z.to_nat j <> Some c)
  \/ (0 <= r <= pos /\ s !! Z.to_nat r = Some c
      /\ forall j, r < j <= pos -> s !! Z.to_nat j <> Some c).
Proof.
  intros Hpos. cbv zeta. unfold lastIndexOf. rewrite Z.max_l by exact Hpos.
  destruct (lastIndexOfAux_spec [c] s 0 pos (-1))
    as [[Hr Hnone]|(j & Hj & Hr & Hle & Hhit & Hlast)]; cbv zeta in *.
  - left. split; [exact Hr|]. intros j Hj Hc.
    apply startsWith_single in Hc.
    destruct (le_lt_dec (Z.to_nat j) (length s)) as [Hin|Hout].
    + rewrite Hnone in Hc; [discriminate|exact Hin|lia].
    + rewrite drop_ge in Hc by lia. discriminate.
  - right. rewrite Hr. split; [lia|]. split.
    + apply startsWith_single. rewrite Z.add_0_l, Nat2Z.id. exact Hhit.
    + intros j' Hj' Hc. apply startsWith_single in Hc.
      destruct (le_lt_dec (Z.to_nat j') (length s)) as [Hin|Hout].
      * rewrite Hlast in Hc; [discriminate|lia|lia].
      * rewrite drop_ge in Hc by lia. discriminate.
Qed.

End IndexFacts.

Section ChunkFacts.
Import WhatsAppSender.

Lemma beyondSeventyPercent_iff (i : Z) : beyondSeventyPercent i = true <-> 2867 < i.
Proof. unfold beyondSeventyPercent, MAX_MESSAGE_LENGTH. rewrite Z.gtb_lt. lia. Qed.

(** The split point of a round is the preferred one. *)
Lemma splitIndex_preferred (remaining : str) :
  preferredSplit remaining (splitIndex remaining).
Proof.
  unfold splitIndex. cbv zeta.
  pose proof (lastIndexOf_single remaining 10 MAX_MESSAGE_LENGTH ltac:(unfold MAX_MESSAGE_LENGTH; lia))
    as Hnl.
  pose proof (lastIndexOf_single remaining 32 MAX_MESSAGE_LENGTH ltac:(unfold MAX_MESSAGE_LENGTH; lia))
    as Hsp.
  cbv zeta in Hnl, Hsp. unfold MAX_MESSAGE_LENGTH in Hnl, Hsp.
  assert (Hsplit : forall c,
             (lastIndexOf remaining [c] 4096 = -1
              /\ (forall j, 0 <= j <= 4096 -> remaining !! Z.to_nat j <> Some c)
              \/ 0 <= lastIndexOf remaining [c] 4096 <= 4096
                 /\ remaining !! Z.to_nat (lastIndexOf remaining [c] 4096) = Some c
                 /\ (forall j, lastIndexOf remaining [c] 4096 < j <= 4096 ->
                               remaining !! Z.to_nat j <> Some c)) ->
             if beyondSeventyPercent (lastIndexOf remaining [c] 4096)
             then splitsAfterLast c remaining (lastIndexOf remaining [c] 4096 + 1)
             else noneBeyondSeventyPercent c remaining).
  { intros c H.
    destruct (beyondSeventyPercent (lastIndexOf remaining [c] 4096)) eqn:E.
    - apply beyondSeventyPercent_iff in E.
      destruct H as [[H _]|(Hr & Hc & Hlast)]; [lia|].
      exists (lastIndexOf remaining [c] 4096). repeat split; try lia; assumption.
    - assert (~ 2867 < lastIndexOf remaining [c] 4096) as Hlow
        by (intros Hc; apply beyondSeventyPercent_iff in Hc; congruence).
      intros j Hj. destruct H as [[_ H]|(_ & _ & H)]; apply H; lia. }
  pose proof (Hsplit 10 Hnl) as H10. pose proof (Hsplit 32 Hsp) as H32.
  change (lastIndexOf remaining [10] MAX_MESSAGE_LENGTH)
    with (lastIndexOf remaining [10] 4096).
  change (lastIndexOf remaining [32] MAX_MESSAGE_LENGTH)
    with (lastIndexOf remaining [32] 4096).
  destruct (beyondSeventyPercent (lastIndexOf remaining [10] 4096)).
  - left. exact H10.
  - destruct (beyondSeventyPercent (lastIndexOf remaining [32] 4096)).
    + right. left. auto.
    + right. right. auto.
Qed.

Lemma splitIndex_range (remaining : str) : 1 <= splitIndex remaining <= 4097.
Proof.
  destruct (splitIndex_preferred remaining)
    as [(k & -> & Hk & _)|[(_ & k & -> & Hk & _)|(_ & _ & ->)]];
    unfold MAX_MESSAGE_LENGTH; lia.
Qed.

Lemma trimStart_length (s : str) : (length (trimStart s) <= length s)%nat.
Proof.
  induction s as [|c s IH]; simpl; [lia|].
  destruct (isSpace c); simpl; lia.
Qed.

Lemma trim_length (s : str) : (length (trim s) <= length s)%nat.
Proof.
  unfold trim, trimEnd. rewrite length_rev.
  etransitivity; [apply trimStart_length|]. rewrite length_rev.
  apply trimStart_length.
Qed.

Lemma substring_from_start (s : str) (i : Z) :
  0 <= i -> substring s 0 i = take (Z.to_nat i) s.
Proof.
  intros Hi. unfold substring. rewrite Z.min_l, Z.max_r by lia.
  simpl. rewrite Nat.sub_0_r. reflexivity.
Qed.

(** The loop ends within one round per code unit, and what it appends are
    the chunks of what remained. *)
Lemma chunkLoop_chunks (fuel : nat) :
  forall remaining chunks,
    (length remaining < fuel)%nat ->
    exists cs,
      chunkLoop fuel remaining chunks = Some (chunks ++ cs)
      /\ chunksOf remaining cs.
Proof.
  induction fuel as [|fuel IH]; intros remaining chunks Hfuel; [lia|].
  simpl chunkLoop. unfold len.
  destruct (Z.of_nat (length remaining) >? 0) eqn:Hpos.
  - destruct (Z.of_nat (length remaining) <=? MAX_MESSAGE_LENGTH) eqn:Hfit.
    + exists [remaining]. split; [reflexivity|].
      apply chunksOf_fits. unfold len. lia.
    + pose proof (splitIndex_range remaining) as Hrange.
      set (i := splitIndex remaining) in *.
      destruct (IH (trim (substringFrom remaining i))
                   (chunks ++ [trim (substring remaining 0 i)])) as (cs & Hcs & Hrel).
      { unfold substringFrom.
        pose proof (trim_length (drop (Z.to_nat i) remaining)) as Ht.
        rewrite length_drop in Ht. lia. }
      exists (trim (take (Z.to_nat i) remaining) :: cs). split.
      * rewrite Hcs, <- app_assoc, substring_from_start by lia. reflexivity.
      * apply chunksOf_split; [unfold len; lia|reflexivity| |exact Hrel].
        apply splitIndex_preferred.
  - exists []. rewrite app_nil_r. split; [reflexivity|].
    rewrite Z.gtb_ltb in Hpos. apply Z.ltb_ge in Hpos.
    destruct remaining; [apply chunksOf_empty|cbn [length] in Hpos; lia].
Qed.

(** [chunkMessage] returns, and returns the chunks of the message. *)
Lemma chunkMessage_chunks (message : str) :
  exists chunks, chunkMessage message = Some chunks /\ chunksOf message chunks.
Proof.
  unfold chunkMessage.
  destruct (chunkLoop_chunks (S (length message)) message []) as (cs & H & Hrel);
    [lia|].
  exists cs. split; [exact H|exact Hrel].
Qed.

End ChunkFacts.

Section SendFacts.
Import WhatsAppSender.

Variable client : list attempt -> str -> str -> bool.

(** One text: the attempts are repeats of the same attempt, at most
    [maxAttempts] of them, the last being the one that succeeded. *)
Lemma sendSingleMessage_log (phone text : str) (maxAttempts : nat) :
  forall log,
    exists r,
      (r <= maxAttempts)%nat
      /\ fst (sendSingleMessage client phone text maxAttempts log)
         = log ++ repeat (phone, text) r
      /\ (snd (sendSingleMessage client phone text maxAttempts log) = true -> (1 <= r)%nat)
      /\ (snd (sendSingleMessage client phone text maxAttempts log) = false
          -> r = maxAttempts).
Proof.
  induction maxAttempts as [|k IH]; intros log.
  - exists 0%nat. simpl. rewrite app_nil_r. repeat split; auto; discriminate.
  - simpl. destruct (client log phone text).
    + exists 1%nat. simpl. repeat split; auto; try lia; discriminate.
    + destruct (IH (log ++ [(phone, text)])) as (r & Hr & Hlog & Hok & Hfail).
      exists (S r). split; [lia|]. split.
      * rewrite Hlog, <- app_assoc. reflexivity.
      * split; [intros; lia|]. intros H. rewrite (Hfail H). reflexivity.
Qed.

Lemma chunkHeader_labelled (i n : nat) (chunk : str) (rest : list str) :
  labelled i n (chunk :: rest) = (chunkHeader i n ++ chunk) :: labelled (S i) n rest.
Proof. simpl. unfold chunkHeader. rewrite Nat.add_1_r. reflexivity. Qed.

(** The chunks are sent in their order, each with its header, a chunk
    being attempted only after the one before it has been delivered. *)
Lemma sendChunks_log (phone : str) (n maxAttempts : nat) (chunks : list str) :
  forall i log,
    exists counts notice,
      fst (sendChunks client phone n maxAttempts i chunks log)
      = log ++ attemptsInOrder phone (labelled i n chunks) counts ++ notice
      /\ (length counts <= length chunks)%nat
      /\ (snd (sendChunks client phone n maxAttempts i chunks log) = true ->
          length counts = length chunks
          /\ Forall (fun r => (1 <= r)%nat) counts /\ notice = [])
      /\ (notice = [] \/ exists j, notice = [(phone, incompleteNotice j n)]).
Proof.
  induction chunks as [|chunk rest IH]; intros i log.
  - exists [], []. simpl. rewrite app_nil_r. repeat split; auto.
  - rewrite chunkHeader_labelled. cbn [sendChunks].
    destruct (sendSingleMessage_log phone (chunkHeader i n ++ chunk) maxAttempts log)
      as (r & Hr & Hlog & Hok & Hfail).
    destruct (sendSingleMessage client phone (chunkHeader i n ++ chunk) maxAttempts log)
      as [log1 success]. cbn [fst snd] in *.
    destruct success.
    + destruct (IH (S i) log1) as (counts & notice & Hrest & Hlen & Htrue & Hnotice).
      exists (r :: counts), notice. split.
      * rewrite Hrest, Hlog. cbn [attemptsInOrder]. rewrite <- !app_assoc. reflexivity.
      * split; [simpl; lia|]. split; [|exact Hnotice].
        intros H. destruct (Htrue H) as (H1 & H2 & H3).
        split; [simpl; lia|]. split; [constructor; auto|exact H3].
    + destruct (0 <? i)%nat.
      * destruct (sendSingleMessage_log phone (incompleteNotice i n) 1 log1)
          as (r' & Hr' & Hlog' & _ & _).
        exists [r], (repeat (phone, incompleteNotice i n) r').
        split.
        -- cbn [fst attemptsInOrder]. rewrite Hlog', Hlog.
           destruct (labelled (S i) n rest); rewrite app_nil_r, <- app_assoc; reflexivity.
        -- split; [simpl; lia|]. split; [discriminate|].
           destruct r' as [|[|r']]; [left; reflexivity|right; eauto|lia].
      * exists [r], []. split.
        -- cbn [fst attemptsInOrder]. rewrite Hlog.
           destruct (labelled (S i) n rest); rewrite !app_nil_r; reflexivity.
        -- split; [simpl; lia|]. split; [discriminate|left; reflexivity].
Qed.

End SendFacts.

Section SendAlways.
Import WhatsAppSender.

(** With a client that never fails, every text is attempted once. *)
Lemma sendChunks_all_delivered (phone : str) (n maxAttempts : nat) (chunks : list str) :
  (1 <= maxAttempts)%nat ->
  forall i log,
    sendChunks (fun _ _ _ => true) phone n maxAttempts i chunks log
    = (log ++ List.map (pair phone) (labelled i n chunks), true).
Proof.
  intros Hk. induction chunks as [|chunk rest IH]; intros i log.
  - simpl. rewrite app_nil_r. reflexivity.
  - rewrite chunkHeader_labelled. cbn [sendChunks].
    destruct maxAttempts as [|k]; [lia|]. cbn [sendSingleMessage].
    rewrite IH. cbn [List.map]. rewrite <- app_assoc. reflexivity.
Qed.

End SendAlways.

Section ChunkClaims.
Import WhatsAppSender.

Variable client : list attempt -> str -> str -> bool.

(** C5, as the code has it.  A message longer than the limit is cut into
    chunks: each round splits just after the last newline within the first
    4097 code units when that newline lies beyond 70 per cent of the limit,
    otherwise just after the last such space, otherwise at code unit 4096,
    and trims both parts ([chunksOf]).  The chunks are handed to the client
    in their order, a chunk being attempted only once the one before it was
    delivered, possibly followed by one notice that the delivery is
    incomplete.  When there is more than one chunk every chunk, the first
    included, carries the header [Part i/N] ([labelled]); with a client
    that never fails each is sent exactly once. *)
Theorem C5_chunked_sending (phone message : str) (maxAttempts : nat)
        (log : list attempt) :
  MAX_MESSAGE_LENGTH < len message ->
  exists chunks,
    chunkMessage message = Some chunks
    /\ chunksOf message chunks
    /\ (exists log' ok counts notice,
          sendMessage client phone message true maxAttempts log = Some (log', ok)
          /\ log' = log ++ attemptsInOrder phone (labelled 0 (length chunks) chunks) counts
                        ++ notice
          /\ (length counts <= length chunks)%nat
          /\ (ok = true ->
              length counts = length chunks
              /\ Forall (fun r => (1 <= r)%nat) counts /\ notice = [])
          /\ (notice = []
              \/ exists j, notice = [(phone, incompleteNotice j (length chunks))]))
    /\ ((1 <= maxAttempts)%nat ->
        sendMessage (fun _ _ _ => true) phone message true maxAttempts log
        = Some (log ++ List.map (pair phone) (labelled 0 (length chunks) chunks), true)).
Proof.
  intros Hlong.
  destruct (chunkMessage_chunks message) as (chunks & Hchunks & Hrel).
  exists chunks. split; [exact Hchunks|]. split; [exact Hrel|].
  assert (Hbranch : (len message <=? MAX_MESSAGE_LENGTH) = false) by lia.
  split.
  - destruct (sendChunks_log client phone (length chunks) maxAttempts chunks 0 log)
      as (counts & notice & Hlog & Hlen & Htrue & Hnotice).
    exists (fst (sendChunks client phone (length chunks) maxAttempts 0 chunks log)),
      (snd (sendChunks client phone (length chunks) maxAttempts 0 chunks log)),
      counts, notice.
    split.
    + unfold sendMessage. rewrite Hbranch. unfold sendChunkedMessage. rewrite Hchunks.
      destruct (sendChunks client phone (length chunks) maxAttempts 0 chunks log);
        reflexivity.
    + auto.
  - intros Hk. unfold sendMessage. rewrite Hbranch.
    unfold sendChunkedMessage. rewrite Hchunks.
    rewrite sendChunks_all_delivered by exact Hk. reflexivity.
Qed.

End ChunkClaims.

(** C5 at work: 3000 letters, a space and 2000 more letters are sent as two
    parts, split after the space. *)
Lemma C5_chunked_sending_witness :
  let message := repeat 97 3000 ++ [32] ++ repeat 98 2000 in
  WhatsAppSender.MAX_MESSAGE_LENGTH < len message
  /\ WhatsAppSender.sendMessage (fun _ _ _ => true) (lit "p") message true 3 []
     = Some ([(lit "p", lit "[Part 1/2]" ++ [10; 10] ++ repeat 97 3000);
              (lit "p", lit "[Part 2/2]" ++ [10; 10] ++ repeat 98 2000)], true).
Proof.
  intros message.
  assert (Hlong : WhatsAppSender.MAX_MESSAGE_LENGTH < len message)
    by (vm_compute; reflexivity).
  split; [exact Hlong|].
  destruct (C5_chunked_sending (fun _ _ _ => true) (lit "p") message 3 [] Hlong)
    as (chunks & Hchunks & _ & _ & Hall).
  rewrite Hall by lia.
  assert (chunks = [repeat 97 3000; repeat 98 2000]) as ->.
  { assert (Hc : WhatsAppSender.chunkMessage message
                 = Some [repeat 97 3000; repeat 98 2000])
      by (vm_compute; reflexivity).
    congruence. }
  vm_compute. reflexivity.
Defined.

(** C5 as stated fails in three ways.  Take 4095 letters, the two code
    units of the character U+1F600 and one more letter, with no white
    space: the first part sent carries the prefix [Part 1/2], and the cut
    falls at code unit 4096, between the two halves of the character (the
    first chunk ends with its high surrogate and the second starts with
    its low surrogate).  And take 100 letters, a space and 4900 letters:
    the cut falls at code unit 4096, in the middle of the second word, the
    space being too early to count. *)
Lemma C5_prefix_and_surrogate_counterexample :
  let message := repeat 97 4095 ++ [55357; 56832; 97] in
  let spaced := repeat 97 100 ++ [32] ++ repeat 98 4900 in
  WhatsAppSender.MAX_MESSAGE_LENGTH < len message
  /\ WhatsAppSender.sendMessage (fun _ _ _ => true) (lit "p") message true 3 []
     = Some ([(lit "p", lit "[Part 1/2]" ++ [10; 10] ++ repeat 97 4095 ++ [55357]);
              (lit "p", lit "[Part 2/2]" ++ [10; 10] ++ [56832; 97])], true)
  /\ isHighSurrogate 55357 = true
  /\ isLowSurrogate 56832 = true
  /\ WhatsAppSender.chunkMessage spaced
     = Some [repeat 97 100 ++ [32] ++ repeat 98 3995; repeat 98 905].
Proof.
  cbv zeta. split; [vm_compute; reflexivity|].
  split; [vm_compute; reflexivity|]. split; [reflexivity|].
  split; [reflexivity|]. vm_compute. reflexivity.
Qed.

(* ===================================================================== *)
(** * Further properties: the normal form of a message                    *)
(* ===================================================================== *)

Section NormalForm.
Import Regex CommandParser.

Lemma trimStart_snoc_visible (s : str) (c : Z) :
  isSpace c = false -> trimStart (s ++ [c]) = trimStart s ++ [c].
Proof.
  intros Hc. induction s as [|x s IH]; simpl.
  - rewrite Hc. reflexivity.
  - destruct (isSpace x); [exact IH|reflexivity].
Qed.

Lemma trimStart_head (s : str) : trimStart s = [] \/ startsVisibly (trimStart s).
Proof.
  induction s as [|c s IH]; simpl; [left; reflexivity|].
  destruct (isSpace c) eqn:Hc; [exact IH|].
  right. exists c, s. split; [reflexivity|exact Hc].
Qed.

Lemma trimStart_suffix (s : str) : exists pre, s = pre ++ trimStart s.
Proof.
  induction s as [|c s [pre IH]]; simpl; [exists []; reflexivity|].
  destruct (isSpace c).
  - exists (c :: pre). simpl. f_equal. exact IH.
  - exists []. reflexivity.
Qed.

(** A trimmed text is empty or starts and ends with a visible code unit. *)
Lemma trim_ends (s : str) :
  trim s = [] \/ (startsVisibly (trim s) /\ endsVisibly (trim s)).
Proof.
  unfold trim. destruct (trimStart_head s) as [->|(c & t & -> & Hc)].
  - left. reflexivity.
  - right. unfold trimEnd.
    replace (rev (c :: t)) with (rev t ++ [c]) by reflexivity.
    rewrite trimStart_snoc_visible by exact Hc.
    rewrite rev_app_distr. simpl. split.
    + exists c, (rev (trimStart (rev t))). split; [reflexivity|exact Hc].
    + destruct (trimStart_head (rev t)) as [E|(d & u & E & Hd)]; rewrite E.
      * exists [], c. split; [reflexivity|exact Hc].
      * exists (c :: rev u), d. split; [|exact Hd].
        simpl. rewrite app_comm_cons. reflexivity.
Qed.

Lemma trim_visible (s : str) : startsVisibly s -> trim s <> [].
Proof.
  intros (c & t & -> & Hc). unfold trim.
  rewrite trimStart_visible by exact Hc.
  unfold trimEnd. replace (rev (c :: t)) with (rev t ++ [c]) by reflexivity.
  rewrite trimStart_snoc_visible by exact Hc.
  rewrite rev_app_distr. discriminate.
Qed.

Lemma endsVisibly_lastVisible (s : str) (prev : bool) :
  endsVisibly s -> lastVisible prev s = true.
Proof.
  intros (s' & c & -> & Hc). revert prev.
  induction s' as [|x s' IH]; intros prev; simpl.
  - rewrite Hc. reflexivity.
  - apply IH.
Qed.

Lemma lastVisible_endsVisibly (s : str) (prev : bool) :
  lastVisible prev s = true -> s <> [] -> endsVisibly s.
Proof.
  revert prev. induction s as [|c s IH]; intros prev H Hne; [congruence|].
  simpl in H. destruct s as [|d s].
  - simpl in H. exists [], c. split; [reflexivity|].
    destruct (isSpace c); [discriminate|reflexivity].
  - destruct (IH _ H) as (s' & e & E & He); [discriminate|].
    exists (c :: s'), e. split; [simpl; rewrite E; reflexivity|exact He].
Qed.

(** Collapsing the runs of a text that ends visibly leaves single spaces. *)
Lemma replaceSpaceRuns_singleSpaced (s : str) :
  forall inRun,
    lastVisible inRun s = true ->
    singleSpaced inRun (replaceSpaceRuns inRun s) = true.
Proof.
  induction s as [|c s IH]; intros inRun H; simpl in *; [exact H|].
  destruct (isSpace c) eqn:Hc.
  - destruct inRun.
    + apply IH. exact H.
    + simpl. rewrite (IH true H). reflexivity.
  - simpl. rewrite Hc. apply IH. exact H.
Qed.

Lemma singleSpaced_lastVisible (s : str) :
  forall prev, singleSpaced prev s = true -> lastVisible prev s = true.
Proof.
  induction s as [|c s IH]; intros prev H; simpl in *; [exact H|].
  destruct (isSpace c).
  - apply andb_true_iff in H as [_ H]. apply IH. exact H.
  - apply IH. exact H.
Qed.

Lemma singleSpaced_fixed (s : str) :
  forall prev, singleSpaced prev s = true -> replaceSpaceRuns prev s = s.
Proof.
  induction s as [|c s IH]; intros prev H; simpl in *; [reflexivity|].
  destruct (isSpace c).
  - apply andb_true_iff in H as [H Hs]. apply andb_true_iff in H as [Hc Hp].
    apply Z.eqb_eq in Hc. destruct prev; [discriminate|].
    rewrite (IH true Hs). congruence.
  - rewrite (IH false H). reflexivity.
Qed.

Lemma singleSpaced_start (s : str) :
  singleSpaced true s = true -> startsVisibly s /\ singleSpaced false s = true.
Proof.
  destruct s as [|c s]; simpl; [discriminate|].
  destruct (isSpace c) eqn:Hc.
  - rewrite andb_false_r. discriminate.
  - intros H. split; [|exact H]. exists c, s. split; [reflexivity|exact Hc].
Qed.

(** In a single-spaced text every white-space code unit is a space with a
    visible code unit on either side. *)
Lemma singleSpaced_at (pre : str) :
  forall prev c post,
    singleSpaced prev (pre ++ c :: post) = true ->
    isSpace c = true ->
    c = 32 /\ (pre = [] -> prev = false) /\ (pre <> [] -> endsVisibly pre)
    /\ startsVisibly post.
Proof.
  induction pre as [|a pre IH]; intros prev c post H Hc.
  - simpl in H. rewrite Hc in H.
    apply andb_true_iff in H as [H Hs]. apply andb_true_iff in H as [H32 Hp].
    apply Z.eqb_eq in H32.
    repeat split; [exact H32|intros _; destruct prev; [discriminate|reflexivity]
                  |congruence|].
    apply singleSpaced_start in Hs as [Hs _]. exact Hs.
  - assert (Hrest : singleSpaced (isSpace a) (pre ++ c :: post) = true).
    { simpl in H. destruct (isSpace a); [|exact H].
      apply andb_true_iff in H as [_ H]. exact H. }
    destruct (IH _ _ _ Hrest Hc) as (H32 & Hnil & Hends & Hpost).
    repeat split; [exact H32|discriminate| |exact Hpost].
    intros _. destruct pre as [|b pre].
    + exists [], a. split; [reflexivity|]. apply Hnil. reflexivity.
    + destruct Hends as (s' & e & E & He); [discriminate|].
      exists (a :: s'), e. split; [simpl; rewrite E; reflexivity|exact He].
Qed.

(** What [normalizeMessage] returns is empty or single-spaced. *)
Lemma normalizeMessage_singleSpaced (message : str) :
  normalizeMessage message = [] \/ singleSpaced true (normalizeMessage message) = true.
Proof.
  unfold normalizeMessage.
  destruct (trim_ends message) as [->|[(c & t & E & Hc) Hend]]; [left; reflexivity|].
  right. pose proof (endsVisibly_lastVisible _ false Hend) as Hl.
  apply replaceSpaceRuns_singleSpaced in Hl.
  rewrite E in *. cbn [replaceSpaceRuns singleSpaced] in *. rewrite Hc in *.
  cbn [singleSpaced] in *. rewrite Hc in *. exact Hl.
Qed.

Lemma singleSpaced_normal (n : str) :
  singleSpaced true n = true -> normalizeMessage n = n.
Proof.
  intros H. unfold normalizeMessage.
  destruct (singleSpaced_start _ H) as [(c & t & -> & Hc) Hf].
  assert (trim (c :: t) = c :: t) as ->.
  { unfold trim. rewrite trimStart_visible by exact Hc.
    apply trimEnd_visible.
    apply (lastVisible_endsVisibly _ true); [|discriminate].
    apply singleSpaced_lastVisible. exact H. }
  apply singleSpaced_fixed. exact Hf.
Qed.

(** X1: The normal form of a message: normalising is idempotent, so parsing
    the normalised text gives what parsing the message gives; and in the
    normalised text every white-space code unit is one space that stands
    between two visible code units (none at either end, no two in a row,
    no tab or newline). *)
Theorem normalizeMessage_normal_form (message : str) :
  let n := normalizeMessage message in
  normalizeMessage n = n
  /\ parse n = parse message
  /\ forall pre c post,
       n = pre ++ c :: post -> isSpace c = true ->
       c = 32 /\ endsVisibly pre /\ startsVisibly post.
Proof.
  cbv zeta.
  assert (Hidem : normalizeMessage (normalizeMessage message) = normalizeMessage message).
  { destruct (normalizeMessage_singleSpaced message) as [->|H]; [reflexivity|].
    apply singleSpaced_normal. exact H. }
  split; [exact Hidem|]. split.
  - unfold parse. cbv zeta. rewrite Hidem. reflexivity.
  - intros pre c post E Hc.
    destruct (normalizeMessage_singleSpaced message) as [H|H].
    + rewrite H in E. destruct pre; discriminate.
    + rewrite E in H.
      destruct (singleSpaced_at _ _ _ _ H Hc) as (H32 & Hnil & Hends & Hpost).
      repeat split; [exact H32| |exact Hpost].
      apply Hends. intros ->. specialize (Hnil eq_refl). discriminate.
Qed.

End NormalForm.

(* ===================================================================== *)
(** * Further properties: what a parsed command carries                   *)
(* ===================================================================== *)

Section MatchTrace.
Import Regex.

(** A successful match reaches its continuation after consuming a prefix
    of the input, and leaves alone the groups the pattern does not
    mention. *)
Lemma run_trace (r : regex) :
  forall i s c k m,
    run r i s c k = Some m ->
    exists used s' c',
      k (i + length used)%nat s' c' = Some m
      /\ s = used ++ s'
      /\ forall g, mentions g r = false -> c' !! g = c !! g.
Proof.
  induction r as [|p|r1 IH1 r2 IH2|r1 IH1 r2 IH2|greedy r IH|j r IH| |];
    intros i s c k m H.
  - exists [], s, c. simpl. rewrite Nat.add_0_r. auto.
  - simpl in H. destruct s as [|x t]; [discriminate|].
    destruct (p x); [|discriminate].
    exists [x], t, c. simpl. rewrite Nat.add_1_r. auto.
  - simpl in H. apply IH1 in H as (u1 & s1 & c1 & H & -> & H1).
    apply IH2 in H as (u2 & s2 & c2 & H & -> & H2).
    exists (u1 ++ u2), s2, c2. rewrite length_app, Nat.add_assoc, <- app_assoc.
    split; [exact H|]. split; [reflexivity|].
    intros g Hg. simpl in Hg. apply orb_false_iff in Hg as [Hg1 Hg2].
    rewrite H2, H1 by assumption. reflexivity.
  - simpl in H. destruct (run r1 i s c k) eqn:E1.
    + injection H as ->. apply IH1 in E1 as (u1 & s1 & c1 & H & -> & H1).
      exists u1, s1, c1. split; [exact H|]. split; [reflexivity|].
      intros g Hg. simpl in Hg. apply orb_false_iff in Hg as [Hg _]. auto.
    + apply IH2 in H as (u2 & s2 & c2 & H & -> & H2).
      exists u2, s2, c2. split; [exact H|]. split; [reflexivity|].
      intros g Hg. simpl in Hg. apply orb_false_iff in Hg as [_ Hg]. auto.
  - simpl in H. revert H. generalize (length s) as n. intros n. revert i s c m.
    induction n as [|n IHn]; intros i s c m H.
    + exists [], s, c. simpl. rewrite Nat.add_0_r. auto.
    + assert (Hstop :
                forall m', k i s c = Some m' ->
                  exists used s' c',
                    k (i + length used)%nat s' c' = Some m'
                    /\ s = used ++ s'
                    /\ forall g, mentions g (Star greedy r) = false -> c' !! g = c !! g).
      { intros m' Hm'. exists [], s, c. simpl. rewrite Nat.add_0_r. auto. }
      assert (Hagain :
                forall m',
                  run r i s c
                    (fun i' s' c' =>
                       if Nat.eqb i' i then None
                       else starLoop (run r) greedy k n i' s' c') = Some m' ->
                  exists used s' c',
                    k (i + length used)%nat s' c' = Some m'
                    /\ s = used ++ s'
                    /\ forall g, mentions g (Star greedy r) = false -> c' !! g = c !! g).
      { intros m' Hm'. apply IH in Hm' as (u1 & s1 & c1 & Hm' & -> & H1).
        destruct (Nat.eqb (i + length u1) i); [discriminate|].
        apply IHn in Hm' as (u2 & s2 & c2 & Hm' & -> & H2).
        exists (u1 ++ u2), s2, c2. rewrite length_app, Nat.add_assoc, <- app_assoc.
        split; [exact Hm'|]. split; [reflexivity|].
        intros g Hg. rewrite H2, H1 by exact Hg. reflexivity. }
      cbn [starLoop] in H. cbv zeta in H. destruct greedy.
      * match type of H with
        | match ?a with _ => _ end = _ => destruct a eqn:Ea
        end.
        -- injection H as ->. apply Hagain. reflexivity.
        -- apply Hstop. exact H.
      * destruct (k i s c) eqn:Ek.
        -- injection H as ->. apply Hstop. reflexivity.
        -- apply Hagain. exact H.
  - simpl in H. apply IH in H as (u1 & s1 & c1 & H & -> & H1).
    exists u1, s1, (<[j := take (i + length u1 - i) (u1 ++ s1)]> c1).
    split; [exact H|]. split; [reflexivity|].
    intros g Hg. simpl in Hg. apply orb_false_iff in Hg as [Hj Hg].
    apply Nat.eqb_neq in Hj. rewrite lookup_insert_ne by exact Hj. auto.
  - simpl in H. destruct (Nat.eqb i 0); [|discriminate].
    exists [], s, c. simpl. rewrite Nat.add_0_r. auto.
  - simpl in H. destruct s; [|discriminate].
    exists [], [], c. simpl. rewrite Nat.add_0_r. auto.
Qed.

(** A quantified class consumes code units of the class and binds no
    group. *)
Lemma starLoop_class (p : Z -> bool) (greedy : bool) (k : cont) (n : nat) :
  forall i s c m,
    starLoop (run (Char p)) greedy k n i s c = Some m ->
    exists used s',
      Forall (fun x => p x = true) used
      /\ s = used ++ s'
      /\ k (i + length used)%nat s' c = Some m.
Proof.
  induction n as [|n IHn]; intros i s c m H.
  - exists [], s. simpl. rewrite Nat.add_0_r. auto.
  - assert (Hstop :
              forall m', k i s c = Some m' ->
                exists used s',
                  Forall (fun x => p x = true) used
                  /\ s = used ++ s'
                  /\ k (i + length used)%nat s' c = Some m').
    { intros m' Hm'. exists [], s. simpl. rewrite Nat.add_0_r. auto. }
    assert (Hagain :
              forall m',
                run (Char p) i s c
                  (fun i' s' c' =>
                     if Nat.eqb i' i then None
                     else starLoop (run (Char p)) greedy k n i' s' c') = Some m' ->
                exists used s',
                  Forall (fun x => p x = true) used
                  /\ s = used ++ s'
                  /\ k (i + length used)%nat s' c = Some m').
    { intros m' Hm'. cbn [run] in Hm'. destruct s as [|x t]; [discriminate|].
      destruct (p x) eqn:Hx; [|discriminate].
      destruct (Nat.eqb_spec (S i) i) as [Hi|_]; [lia|].
      apply IHn in Hm' as (u & s' & Hu & -> & Hm').
      exists (x :: u), s'. split; [constructor; assumption|].
      split; [reflexivity|]. simpl. rewrite <- Nat.add_succ_comm. exact Hm'. }
    cbn [starLoop] in H. cbv zeta in H. destruct greedy.
    + match type of H with
      | match ?a with _ => _ end = _ => destruct a eqn:Ea
      end.
      * injection H as ->. apply Hagain. reflexivity.
      * apply Hstop. exact H.
    + destruct (k i s c) eqn:Ek.
      * injection H as ->. apply Hstop. reflexivity.
      * apply Hagain. exact H.
Qed.

Lemma run_class_plus (p : Z -> bool) (greedy : bool) (k : cont) :
  forall i s c m,
    run (plus greedy (Char p)) i s c k = Some m ->
    exists used s',
      used <> []
      /\ Forall (fun x => p x = true) used
      /\ s = used ++ s'
      /\ k (i + length used)%nat s' c = Some m.
Proof.
  intros i s c m H. unfold plus in H. simpl in H.
  destruct s as [|x t]; [discriminate|].
  destruct (p x) eqn:Hx; [|discriminate].
  apply starLoop_class in H as (u & s' & Hu & -> & H).
  exists (x :: u), s'. split; [discriminate|].
  split; [constructor; assumption|]. split; [reflexivity|].
  simpl. rewrite <- Nat.add_succ_comm. exact H.
Qed.

Lemma execFrom_run (r : regex) (s : str) :
  forall i m,
    execFrom r i s = Some m ->
    exists pre s',
      s = pre ++ s'
      /\ run r (i + length pre)%nat s' ∅ (fun _ _ c => Some c) = Some m.
Proof.
  induction s as [|x s IH]; intros i m H; simpl in H.
  - destruct (run r i [] ∅ (fun _ _ c => Some c)) eqn:E; [|discriminate].
    injection H as ->. exists [], []. simpl. rewrite Nat.add_0_r. auto.
  - destruct (run r i (x :: s) ∅ (fun _ _ c => Some c)) eqn:E.
    + injection H as ->. exists [], (x :: s). simpl. rewrite Nat.add_0_r. auto.
    + apply IH in H as (pre & s' & -> & H).
      exists (x :: pre), s'. simpl. rewrite <- Nat.add_succ_comm. auto.
Qed.

(** The shape the FILE_READ and SEARCH patterns share: a keyword, white
    space, and group 1 made of one or more code units.  Group 1 starts
    right after a white-space code unit and is not empty. *)
Lemma keyword_then_group (keyword rest : regex) (greedy : bool) (s : str) (m : groups) :
  mentions 1 rest = false ->
  exec (Seq Bol (Seq keyword
          (Seq (plus true space) (Seq (Group 1 (plus greedy dot)) rest)))) s
  = Some m ->
  exists pre c used post,
    s = pre ++ c :: used ++ post
    /\ isSpace c = true /\ used <> [] /\ m !! 1%nat = Some used.
Proof.
  intros Hrest H. unfold exec in H.
  apply execFrom_run in H as (pre & s0 & -> & H).
  simpl in H. destruct (Nat.eqb (length pre) 0); [|discriminate].
  apply run_trace in H as (u1 & s1 & c1 & H & -> & _).
  apply run_class_plus in H as (u2 & s2 & Hne2 & Hsp & -> & H).
  cbn [run] in H.
  apply run_class_plus in H as (u3 & s3 & Hne3 & _ & -> & H).
  apply run_trace in H as (u4 & s4 & c4 & H & -> & Hkeep).
  injection H as <-.
  destruct (exists_last Hne2) as (u2' & c & ->).
  apply Forall_app in Hsp as [_ Hsp]. apply Forall_cons in Hsp as [Hc _].
  exists (pre ++ u1 ++ u2'), c, u3, (u4 ++ s4).
  split; [repeat rewrite <- app_assoc; reflexivity|].
  split; [exact Hc|]. split; [exact Hne3|].
  rewrite Hkeep by exact Hrest. rewrite lookup_insert_eq. f_equal.
  replace (_ - _)%nat with (length u3) by lia.
  rewrite take_app_length. reflexivity.
Qed.

End MatchTrace.

Section ParsedArguments.
Import Regex CommandParser.

Lemma trim_trim (s : str) : trim (trim s) = trim s.
Proof.
  destruct (trim_ends s) as [->|[(c & t & E & Hc) Hend]]; [reflexivity|].
  rewrite E in *. unfold trim at 1. rewrite trimStart_visible by exact Hc.
  apply trimEnd_visible. exact Hend.
Qed.

(** In a single-spaced text, what follows a white-space code unit has
    something visible left once trimmed. *)
Lemma group_after_space (n pre used post : str) (c : Z) :
  singleSpaced true n = true ->
  n = pre ++ c :: used ++ post -> isSpace c = true -> used <> [] ->
  trim used <> [].
Proof.
  intros Hn -> Hc Hne.
  destruct (singleSpaced_at _ _ _ _ Hn Hc) as (_ & _ & _ & (d & t & E & Hd)).
  apply trim_visible. destruct used as [|x used]; [congruence|].
  injection E as -> _. exists d, used. auto.
Qed.

(** A command that [matchCommand] builds from a single-spaced text carries
    an argument that is trimmed and not empty. *)
Lemma matchCommand_argument (n : str) (cmd : Command) (arg : str) :
  singleSpaced true n = true ->
  matchCommand n = Returns (Some cmd) ->
  argument cmd = Some arg ->
  arg <> [] /\ trim arg = arg.
Proof.
  intros Hn. unfold matchCommand.
  destruct (exec COMMAND_PATTERNS.FILE_READ n) as [m|] eqn:Eread.
  { apply keyword_then_group in Eread as (pre & c & used & post & E & Hc & Hne & ->);
      [|reflexivity].
    intros [= <-] [= <-]. split; [|apply trim_trim].
    eapply group_after_space; eassumption. }
  destruct (exec COMMAND_PATTERNS.FILE_LIST n) as [m|].
  { intros [= <-] [= <-].
    destruct (m !! 1%nat) as [g|]; simpl; [|split; [discriminate|reflexivity]].
    destruct (trim g) as [|x t] eqn:Eg; [split; [discriminate|reflexivity]|].
    split; [discriminate|]. rewrite <- Eg. apply trim_trim. }
  destruct (exec COMMAND_PATTERNS.SEARCH n) as [m|] eqn:Esearch.
  { apply keyword_then_group in Esearch as (pre & c & used & post & E & Hc & Hne & ->);
      [|reflexivity].
    intros [= <-] [= <-]. split; [|apply trim_trim].
    eapply group_after_space; eassumption. }
  destruct (exec COMMAND_PATTERNS.STATUS n); [intros [= <-]; discriminate|].
  destruct (exec COMMAND_PATTERNS.HELP n); [intros [= <-]; discriminate|].
  discriminate.
Qed.

(** The three results of [parse]. *)
Lemma parse_shape (message : str) :
  parse message = Returns (failed EMPTY_MESSAGE)
  \/ parse message = Returns (failed UNKNOWN_COMMAND)
  \/ exists cmd,
       parse message = Returns (parsed cmd)
       /\ forall arg, argument cmd = Some arg -> arg <> [] /\ trim arg = arg.
Proof.
  unfold parse. cbv zeta.
  destruct (normalizeMessage_singleSpaced message) as [->|Hn]; [left; reflexivity|].
  revert Hn. generalize (normalizeMessage message) as n. intros n Hn.
  destruct (falsy n); [left; reflexivity|]. right.
  destruct (matchCommand_returns n) as [[cmd|] Hoc]; rewrite Hoc.
  - right. exists cmd. split; [reflexivity|].
    intros arg. apply (matchCommand_argument n); assumption.
  - left. reflexivity.
Qed.


End ParsedArguments.


(* ===================================================================== *)
(** * Further properties: what the validator accepts                      *)
(* ===================================================================== *)

Section ValidatorExact.
Import Regex ValidationErrors CommandValidator.

(** A pattern anchored at the start matches at index 0 only. *)
Lemma test_anchored (r : regex) (s : str) :
  test (Seq Bol r) s = true ->
  exists m, run r 0 s ∅ (fun _ _ c => Some c) = Some m.
Proof.
  unfold test, exec. destruct (execFrom (Seq Bol r) 0 s) as [m|] eqn:E; [|discriminate].
  intros _. apply execFrom_run in E as (pre & s' & -> & E).
  simpl in E. destruct pre as [|x pre]; [|discriminate].
  exists m. exact E.
Qed.

Lemma test_class_inv (p : Z -> bool) (s : str) :
  test (Char p) s = true -> exists c, In c s /\ p c = true.
Proof.
  unfold test, exec. destruct (execFrom (Char p) 0 s) as [m|] eqn:E; [|discriminate].
  intros _. apply execFrom_run in E as (pre & s' & -> & E).
  simpl in E. destruct s' as [|x t]; [discriminate|].
  destruct (p x) eqn:Hx; [|discriminate].
  exists x. split; [apply in_or_app; right; left; reflexivity|exact Hx].
Qed.

Lemma oneOf_slash (c : Z) : existsb (Z.eqb c) (lit "\/") = true -> isSlash c.
Proof.
  change (lit "\/") with [92; 47]. simpl. unfold isSlash. lia.
Qed.

Lemma isAbsolutePath_sound (path : str) :
  isAbsolutePath path = true -> absoluteForm path.
Proof.
  unfold isAbsolutePath.
  destruct (test drivePattern path) eqn:Ed.
  { intros _. right. left.
    apply test_anchored in Ed as [m Ed]. cbn -[Z.eqb Z.leb existsb lit] in Ed.
    destruct path as [|d [|c [|s rest]]]; cbn -[Z.eqb Z.leb existsb lit] in Ed;
      repeat match type of Ed with
             | (if ?b then _ else _) = _ => destruct b eqn:?; [|discriminate]
             | None = Some _ => discriminate
             end.
    exists d, s, rest.
    assert (c = 58) as -> by lia.
    split; [reflexivity|]. split.
    - unfold isDriveLetter. lia.
    - apply oneOf_slash. assumption. }
  destruct (test networkPattern path) eqn:En.
  { intros _. right. right.
    apply test_anchored in En as [m En]. cbn -[Z.eqb Z.leb existsb lit] in En.
    destruct path as [|a [|b rest]]; cbn -[Z.eqb Z.leb existsb lit] in En;
      repeat match type of En with
             | (if ?b then _ else _) = _ => destruct b eqn:?; [|discriminate]
             | None = Some _ => discriminate
             end.
    exists rest. f_equal; [lia|f_equal; lia]. }
  cbn [orb]. destruct (startsWith path (lit "/")) eqn:Es; [|discriminate].
  intros _. left. apply startsWith_inv in Es as [post ->]. exists post. reflexivity.
Qed.

Lemma hasPathTraversal_sound (path : str) :
  hasPathTraversal path = true -> containsDotDot path.
Proof.
  unfold hasPathTraversal. intros H. apply orb_true_iff in H as [H|H].
  - unfold test, exec in H.
    destruct (execFrom dotDotSlashPattern 0 path) as [m|] eqn:E; [|discriminate].
    apply execFrom_run in E as (pre & s' & -> & E). cbn -[Z.eqb Z.leb existsb lit] in E.
    destruct s' as [|a [|b [|c rest]]]; cbn -[Z.eqb Z.leb existsb lit] in E;
      repeat match type of E with
             | (if ?b then _ else _) = _ => destruct b eqn:?; [|discriminate]
             | None = Some _ => discriminate
             end.
    exists pre, (c :: rest). assert (a = 46) as -> by lia. assert (b = 46) as -> by lia.
    reflexivity.
  - apply includes_inv in H as (pre & post & ->). exists pre, post. reflexivity.
Qed.

Lemma invalidChar_sound (c : Z) : invalidChar c = true -> isForbidden c.
Proof.
  unfold invalidChar, isForbidden. cbn. intros H.
  repeat (apply orb_true_iff in H as [H|H]);
    try (apply Z.eqb_eq in H; subst c; tauto).
  right. right. lia.
Qed.

Lemma isValidPathFormat_sound (path : str) :
  isValidPathFormat path = false -> hasForbiddenChar path.
Proof.
  unfold isValidPathFormat, invalidChars. intros H.
  apply negb_false_iff in H. apply test_class_inv in H as (c & Hin & Hc).
  exists c. split; [exact Hin|]. apply invalidChar_sound. exact Hc.
Qed.

Lemma validatePath_accepts (path : str) (isDirectory : bool) :
  validatePath path [] isDirectory = [] <-> acceptablePath path.
Proof.
  unfold acceptablePath. destruct path as [|x path].
  - cbn. destruct isDirectory; split; [discriminate|tauto|discriminate|tauto].
  - rewrite validatePath_checks by discriminate.
    assert (Hne : x :: path <> []) by discriminate.
    revert Hne. generalize (x :: path) as p. intros p Hne.
    pose proof (isAbsolutePath_sound p) as Ha.
    pose proof (isAbsolutePath_complete p) as Ha'.
    pose proof (hasPathTraversal_sound p) as Ht.
    pose proof (hasPathTraversal_complete p) as Ht'.
    pose proof (isValidPathFormat_sound p) as Hf.
    pose proof (isValidPathFormat_complete p) as Hf'.
    destruct (Z.gtb_spec (len p) 500) as [Hl|Hl];
      destruct (isAbsolutePath p), (hasPathTraversal p), (isValidPathFormat p);
      cbn; split; intros H; try discriminate;
      try (destruct H as (? & ? & ? & ? & ?));
      try (exfalso; auto; lia);
      try reflexivity.
    all: repeat match goal with |- _ /\ _ => split end; try lia; try exact Hne;
      intros Hx; auto; try discriminate (Ha' Hx); try discriminate (Ht' Hx);
      try discriminate (Hf' Hx).
Qed.

End ValidatorExact.

Section ValidatorAccepts.
Import Regex ValidationErrors CommandValidator.

Variable compiles : str -> bool.

Lemma valid_no_errors (c : Command) :
  valid (validate compiles c) = true <-> errors (validate compiles c) = [].
Proof.
  cbn [validate valid errors].
  match goal with |- Nat.eqb (length ?l) 0 = true <-> _ => destruct l end;
    split; (reflexivity || discriminate).
Qed.

Lemma validateSearch_accepts (query : str) (pattern : option str) :
  validateSearchCommand compiles query pattern [] = []
  <-> acceptableSearch compiles query pattern.
Proof.
  unfold acceptableSearch, validateSearchCommand, push,
    VALIDATION_CONFIG.QUERY_MIN_LENGTH, VALIDATION_CONFIG.QUERY_MAX_LENGTH,
    VALIDATION_CONFIG.PATTERN_MAX_LENGTH.
  destruct query as [|x query].
  - cbn [falsy]. split.
    + destruct pattern as [[|c p]|]; cbn; try discriminate.
      destruct (len (c :: p) >? 200), (compiles (c :: p)); discriminate.
    + intros [Hq _]. unfold len in Hq. simpl in Hq. lia.
  - cbn [falsy]. generalize (x :: query) as q. intros q.
    destruct (Z.ltb_spec (len q) 2) as [Hlo|Hlo];
      destruct (Z.gtb_spec (len q) 200) as [Hhi|Hhi]; try lia.
    + split; [|intros [Hq _]; lia].
      destruct pattern as [[|c p]|]; cbn; try discriminate.
      destruct (len (c :: p) >? 200), (compiles (c :: p)); discriminate.
    + split; [|intros [Hq _]; lia].
      destruct pattern as [[|c p]|]; cbn; try discriminate.
      destruct (len (c :: p) >? 200), (compiles (c :: p)); discriminate.
    + destruct pattern as [[|c p]|].
      * split; [|reflexivity]. intros _. split; [lia|].
        intros p [= <-] Hp. congruence.
      * destruct (Z.gtb_spec (len (c :: p)) 200) as [Hp|Hp];
          destruct (compiles (c :: p)) eqn:Ec; cbn; split; try discriminate.
        -- intros [_ H]. destruct (H _ eq_refl) as [H1 H2]; [discriminate|lia].
        -- intros [_ H]. destruct (H _ eq_refl) as [H1 H2]; [discriminate|lia].
        -- intros _. split; [lia|]. intros p' [= <-] _. split; [lia|exact Ec].
        -- reflexivity.
        -- intros [_ H]. destruct (H _ eq_refl) as [H1 H2]; [discriminate|].
           congruence.
      * split; [|reflexivity]. intros _. split; [lia|]. discriminate.
Qed.

Lemma validate_accepts (c : Command) :
  valid (validate compiles c) = true <-> acceptableCommand compiles c.
Proof.
  rewrite valid_no_errors.
  destruct c as [raw path|raw directory|raw query pattern|raw|raw];
    cbn [validate errors acceptableCommand].
  - apply validatePath_accepts.
  - unfold validateFileListCommand. destruct directory as [|x directory].
    + cbn. split; [discriminate|]. intros [H _]. congruence.
    + cbn [falsy]. apply validatePath_accepts.
  - apply validateSearch_accepts.
  - tauto.
  - tauto.
Qed.

(** X3: The paths the validator accepts are exactly the acceptable ones: a
    FileRead or a FileList command is valid if and only if its path is not
    empty, has at most 500 code units, has none of the three absolute
    forms, does not contain two dots in a row, and holds none of the
    forbidden characters. *)
Theorem path_valid_iff_acceptable (raw path : str) :
  (valid (validate compiles (FileReadCommand raw path)) = true <-> acceptablePath path)
  /\ (valid (validate compiles (FileListCommand raw path)) = true <-> acceptablePath path).
Proof.
  split.
  - apply (validate_accepts (FileReadCommand raw path)).
  - apply (validate_accepts (FileListCommand raw path)).
Qed.

(** X4: The searches the validator accepts: a Search command is valid if and
    only if its query has between 2 and 200 code units and its pattern,
    when there is one that is not empty, has at most 200 code units and
    compiles.  An empty pattern is not looked at. *)
Theorem search_valid_iff_acceptable (raw query : str) (pattern : option str) :
  valid (validate compiles (SearchCommand raw query pattern)) = true
  <-> acceptableSearch compiles query pattern.
Proof. apply (validate_accepts (SearchCommand raw query pattern)). Qed.

(** No message about a missing argument is reported for a command whose
    argument is not empty. *)
Lemma validate_no_missing (c : Command) (e : str) :
  (forall arg, argument c = Some arg -> arg <> []) ->
  In e (errors (validate compiles c)) -> ~ reportsMissing e.
Proof.
  intros Harg Hin Hm.
  assert (Hdistinct :
            forall l : list str,
              Forall (fun e' => In e' [PATH_TOO_LONG; ABSOLUTE_PATH_NOT_ALLOWED;
                                       PATH_TRAVERSAL_DETECTED; INVALID_PATH_FORMAT;
                                       INVALID_DIRECTORY_FORMAT; QUERY_TOO_SHORT;
                                       QUERY_TOO_LONG; PATTERN_TOO_LONG;
                                       INVALID_PATTERN]) l ->
              In e l -> False).
  { intros l Hl Hin'. rewrite Forall_forall in Hl.
    apply list_elem_of_In in Hin'. apply Hl in Hin'.
    destruct Hm as [ -> | [ -> | -> ] ]; vm_compute in Hin';
      repeat (destruct Hin' as [Hin'|Hin']; [discriminate|]); exact Hin'. }
  destruct c as [raw path|raw directory|raw query pattern|raw|raw];
    cbn [validate errors] in Hin; try (destruct Hin; fail);
    specialize (Harg _ eq_refl).
  - unfold validateFileReadCommand in Hin.
    rewrite validatePath_checks in Hin by exact Harg.
    revert Hin. apply Hdistinct.
    destruct (len path >? 500), (isAbsolutePath path), (hasPathTraversal path),
      (isValidPathFormat path); cbn;
      repeat (apply Forall_cons; split; [cbn; tauto|]); apply Forall_nil; exact I.
  - rewrite validateFileList_checks, validatePath_checks in Hin by exact Harg.
    revert Hin. apply Hdistinct.
    destruct (len directory >? 500), (isAbsolutePath directory),
      (hasPathTraversal directory), (isValidPathFormat directory); cbn;
      repeat (apply Forall_cons; split; [cbn; tauto|]); apply Forall_nil; exact I.
  - revert Hin. apply Hdistinct.
    unfold validateSearchCommand, push.
    destruct query as [|x query]; [congruence|]. cbn [falsy].
    destruct (len (x :: query) <? VALIDATION_CONFIG.QUERY_MIN_LENGTH),
      (len (x :: query) >? VALIDATION_CONFIG.QUERY_MAX_LENGTH);
      destruct pattern as [[|c p]|]; cbn;
      try destruct (len (c :: p) >? VALIDATION_CONFIG.PATTERN_MAX_LENGTH);
      try destruct (compiles (c :: p)); cbn;
      repeat (apply Forall_cons; split; [cbn; tauto|]); apply Forall_nil; exact I.
Qed.

End ValidatorAccepts.

Section ProcessOutcomes.
Import CommandParser CommandValidator CommandService.

Variable compiles : str -> bool.

(** X5: What [process] answers.  It never throws, and its answer has one of
    three forms.  Success: the command that was parsed, with no error;
    this happens exactly for the commands that satisfy every rule.  A
    parse failure: no command, and the error of the parser (the fallback
    text is never used).  A validation failure: the command, the fixed
    error text and a list of violations that is not empty and never holds
    a message about a missing argument. *)
Theorem process_outcomes (message : str) :
  exists r,
    process compiles message = Returns r
    /\ ((exists cmd,
           parse message = Returns (parsed cmd)
           /\ acceptableCommand compiles cmd
           /\ r = {| success := true; command := Some cmd; error := None;
                     validationErrors := None |})
        \/ (exists e,
              (e = EMPTY_MESSAGE \/ e = UNKNOWN_COMMAND)
              /\ parse message = Returns (failed e)
              /\ r = {| success := false; command := None; error := Some e;
                        validationErrors := None |})
        \/ (exists cmd errs,
              parse message = Returns (parsed cmd)
              /\ ~ acceptableCommand compiles cmd
              /\ errs <> []
              /\ (forall e, In e errs -> ~ reportsMissing e)
              /\ r = {| success := false; command := Some cmd;
                        error := Some VALIDATION_FAILED;
                        validationErrors := Some errs |})).
Proof.
  unfold process.
  destruct (parse_shape message) as [H|[H|(cmd & H & Harg)]]; rewrite H.
  - eexists. split; [reflexivity|]. right. left.
    exists EMPTY_MESSAGE. auto.
  - eexists. split; [reflexivity|]. right. left.
    exists UNKNOWN_COMMAND. auto.
  - cbn [parsed CommandParser.success CommandParser.command]. cbv zeta.
    destruct (valid (validate compiles cmd)) eqn:Ev; cbn [negb].
    + eexists. split; [reflexivity|]. left. exists cmd.
      split; [reflexivity|]. split; [|reflexivity].
      apply validate_accepts. exact Ev.
    + eexists. split; [reflexivity|]. right. right.
      exists cmd, (errors (validate compiles cmd)).
      split; [reflexivity|]. split.
      { intros Hacc. apply validate_accepts in Hacc. congruence. }
      split.
      { intros He. apply valid_no_errors in He. congruence. }
      split; [|reflexivity].
      intros e. apply validate_no_missing.
      intros arg Ha. apply (Harg arg Ha).
Qed.

End ProcessOutcomes.

(* ===================================================================== *)
(** * Further properties: the circuit breaker                             *)
(* ===================================================================== *)

Section BreakerRuns.
Import CircuitBreaker.

Variable options : CircuitBreakerOptions.

Ltac breaker_done Est Ho :=
  cbn; rewrite ?Est; cbn;
  repeat match goal with |- _ /\ _ => split end;
  try lia; try assumption;
  try (intros ?; first [discriminate | apply Ho; exact Est | eauto]).

Lemma tick_cases (now : Z) (b : t) :
  tick now b = b \/ tick now b = set_resetTimer None (set_failureCount 0 b).
Proof.
  unfold tick. destruct (resetTimer b) as [d|]; [|left; reflexivity].
  destruct (d <=? now); [right|left]; reflexivity.
Qed.

Lemma tick_sound (now : Z) (b : t) : sound b -> sound (tick now b).
Proof.
  intros (Ho & Hf & Hs). destruct (tick_cases now b) as [->| ->].
  - repeat split; assumption.
  - repeat split; cbn; [exact Ho|lia|exact Hs].
Qed.

Lemma tick_totals (now : Z) (b : t) :
  totalRequests (tick now b) = totalRequests b
  /\ totalSuccesses (tick now b) = totalSuccesses b
  /\ totalFailures (tick now b) = totalFailures b.
Proof. destruct (tick_cases now b) as [->| ->]; repeat split. Qed.

Lemma onSuccess_effect (now : Z) (b : t) :
  sound b ->
  let b' := onSuccess options now b in
  sound b'
  /\ totalRequests b' = totalRequests b
  /\ totalSuccesses b' = totalSuccesses b + 1
  /\ totalFailures b' = totalFailures b.
Proof.
  intros (Ho & Hf & Hs). unfold onSuccess, sound. cbv zeta.
  change (state (recordSuccess now b)) with (state b).
  destruct (state b) eqn:Est.
  - breaker_done Est Ho.
  - breaker_done Est Ho.
  - cbn [successCount set_successCount recordSuccess].
    destruct (successCount b + 1 >=? successThreshold options).
    + unfold reset, clearResetTimer, transitionTo. breaker_done Est Ho.
    + breaker_done Est Ho.
Qed.

Lemma onFailure_effect (now : Z) (b : t) :
  sound b ->
  let b' := onFailure options now b in
  sound b'
  /\ totalRequests b' = totalRequests b
  /\ totalSuccesses b' = totalSuccesses b
  /\ totalFailures b' = totalFailures b + 1.
Proof.
  intros (Ho & Hf & Hs). unfold onFailure, sound. cbv zeta.
  change (state (recordFailure now b)) with (state b).
  destruct (state b) eqn:Est.
  - change (failureCount (recordFailure now b)) with (failureCount b + 1).
    destruct (failureCount b + 1 >=? failureThreshold options).
    + unfold scheduleNextAttempt, transitionTo. breaker_done Est Ho.
    + unfold scheduleReset, clearResetTimer. breaker_done Est Ho.
  - unfold scheduleReset, clearResetTimer. breaker_done Est Ho.
  - unfold scheduleNextAttempt, transitionTo. breaker_done Est Ho.
Qed.

Lemma countRequest_sound (b : t) : sound b -> sound (countRequest b).
Proof. intros H. exact H. Qed.

Lemma set_state_sound (s : CircuitState) (b : t) :
  s <> OPEN -> sound b -> sound (set_state s b).
Proof.
  intros Hs (Ho & Hf & Hc). repeat split; cbn; try assumption. congruence.
Qed.

(** One call: the breaker stays sound, and the call is counted once, as a
    request and as what it turned out to be. *)
Lemma execute_effect (c : call) (b : t) :
  sound b ->
  let b' := fst (execute options c b) in
  let r := snd (execute options c b) in
  sound b'
  /\ totalRequests b' = totalRequests b + 1
  /\ totalSuccesses b' = totalSuccesses b + (if isResolved r then 1 else 0)
  /\ totalFailures b' = totalFailures b + (if isRejected r then 1 else 0).
Proof.
  intros Hb. cbv zeta. unfold execute.
  pose proof (tick_sound (started c) b Hb) as H1.
  destruct (tick_totals (started c) b) as (Tr & Ts & Tf).
  revert H1 Tr Ts Tf. generalize (tick (started c) b) as b1. intros b1 H1 Tr Ts Tf.
  assert (Hadm : forall b2,
            sound b2 -> totalRequests b2 = totalRequests b + 1 ->
            totalSuccesses b2 = totalSuccesses b ->
            totalFailures b2 = totalFailures b ->
            let b' := executeEnd options (settled c) (resolves c) (tick (settled c) b2) in
            sound b'
            /\ totalRequests b' = totalRequests b + 1
            /\ totalSuccesses b' = totalSuccesses b + (if resolves c then 1 else 0)
            /\ totalFailures b' = totalFailures b + (if resolves c then 0 else 1)).
  { intros b2 H2 Qr Qs Qf. cbv zeta.
    pose proof (tick_sound (settled c) b2 H2) as H3.
    destruct (tick_totals (settled c) b2) as (Ur & Us & Uf).
    revert H3 Ur Us Uf. generalize (tick (settled c) b2) as b3. intros b3 H3 Ur Us Uf.
    unfold executeEnd. destruct (resolves c).
    - destruct (onSuccess_effect (settled c) b3 H3) as (S & Sr & Ss & Sf).
      split; [exact S|]. split; [lia|]. split; lia.
    - destruct (onFailure_effect (settled c) b3 H3) as (S & Sr & Ss & Sf).
      split; [exact S|]. split; [lia|]. split; lia. }
  destruct (state b1) eqn:Est.
  - rewrite executeBegin_not_open by congruence. cbn [fst snd].
    destruct (Hadm (countRequest b1)) as (S & Sr & Ss & Sf);
      [exact H1|cbn; lia|cbn; lia|cbn; lia|].
    destruct (resolves c); cbn [isResolved isRejected];
      (split; [exact S|]); (split; [lia|]); split; lia.
  - destruct H1 as (Ho & Hf & Hs). destruct (Ho Est) as [next Hn].
    rewrite (executeBegin_open (started c) next) by assumption.
    destruct (started c <? next).
    + cbn [fst snd isResolved isRejected].
      split; [repeat split; cbn; try lia; eauto|]. cbn. split; [lia|]. split; lia.
    + cbn [fst snd].
      destruct (Hadm (set_state HALF_OPEN (countRequest b1))) as (S & Sr & Ss & Sf);
        [apply set_state_sound; [discriminate|repeat split; assumption]
        |cbn; lia|cbn; lia|cbn; lia|].
      destruct (resolves c); cbn [isResolved isRejected]; repeat split;
        first [apply S|lia].
  - rewrite executeBegin_not_open by congruence. cbn [fst snd].
    destruct (Hadm (countRequest b1)) as (S & Sr & Ss & Sf);
      [exact H1|cbn; lia|cbn; lia|cbn; lia|].
    destruct (resolves c); cbn [isResolved isRejected];
      (split; [exact S|]); (split; [lia|]); split; lia.
Qed.

Lemma executeAll_effect (cs : list call) :
  forall b,
    sound b ->
    let b' := executeAll options cs b in
    let rs := results options cs b in
    sound b'
    /\ totalRequests b' = totalRequests b + Z.of_nat (length cs)
    /\ totalSuccesses b' = totalSuccesses b + howMany isResolved rs
    /\ totalFailures b' = totalFailures b + howMany isRejected rs.
Proof.
  unfold howMany.
  induction cs as [|c cs IH]; intros b Hb; cbv zeta.
  - cbn. repeat split; try apply Hb; lia.
  - destruct (execute_effect c b Hb) as (S & Sr & Ss & Sf).
    destruct (IH _ S) as (S' & Sr' & Ss' & Sf').
    cbn [executeAll results List.filter length].
    split; [exact S'|].
    rewrite Sr', Ss', Sf', Sr, Ss, Sf.
    destruct (snd (execute options c b)); cbn [isResolved isRejected length];
      repeat split; lia.
Qed.

Lemma results_length (cs : list call) :
  forall b, length (results options cs b) = length cs.
Proof.
  induction cs as [|c cs IH]; intros b; cbn; [reflexivity|].
  rewrite IH. reflexivity.
Qed.

Lemma howMany_sum (rs : list result) :
  Z.of_nat (length rs)
  = howMany isResolved rs + howMany isRejected rs + howMany isFailedFast rs.
Proof.
  unfold howMany. induction rs as [|r rs IH]; [reflexivity|].
  destruct r; cbn [List.filter isResolved isRejected isFailedFast length]; lia.
Qed.

(** X6: The statistics of a breaker are exact.  After any run of calls on a
    new breaker, [totalRequests] is the number of calls, [totalSuccesses]
    the number of operations that resolved, [totalFailures] the number
    that rejected, and the calls that failed fast make up the difference;
    the two counters are never negative, and a circuit that is OPEN has
    its cooldown set. *)
Theorem statistics_are_exact (cs : list call) :
  let b := executeAll options cs new in
  let rs := results options cs new in
  totalRequests b = Z.of_nat (length cs)
  /\ totalSuccesses b = howMany isResolved rs
  /\ totalFailures b = howMany isRejected rs
  /\ totalRequests b = totalSuccesses b + totalFailures b + howMany isFailedFast rs
  /\ 0 <= failureCount b /\ 0 <= successCount b
  /\ (state b = OPEN -> is_Some (nextAttemptTime b)).
Proof.
  cbv zeta.
  assert (Hnew : sound new) by (repeat split; cbn; (discriminate || lia)).
  destruct (executeAll_effect cs new Hnew) as ((Ho & Hf & Hs) & Sr & Ss & Sf).
  cbn in Sr, Ss, Sf.
  rewrite Z.add_0_l in Sr, Ss, Sf.
  repeat match goal with |- _ /\ _ => split end; try assumption.
  rewrite Sr, Ss, Sf, <- (results_length cs new). apply howMany_sum.
Qed.

End BreakerRuns.

Section BreakerThresholds.
Import CircuitBreaker.

Variable options : CircuitBreakerOptions.

Lemma tick_failureCount (now : Z) (b : t) :
  failureCount (tick now b) = failureCount b \/ failureCount (tick now b) = 0.
Proof. destruct (tick_cases now b) as [->| ->]; [left|right]; reflexivity. Qed.

(** One admitted call in CLOSED below the threshold. *)
Lemma execute_closed_below (c : call) (b : t) (k : Z) :
  state b = CLOSED -> 0 <= failureCount b <= k ->
  (resolves c = false -> k + 1 < failureThreshold options) ->
  let b' := fst (execute options c b) in
  state b' = CLOSED
  /\ isFailedFast (snd (execute options c b)) = false
  /\ 0 <= failureCount b' <= (if resolves c then 0 else k + 1).
Proof.
  intros Hs Hk Hlow. cbv zeta. unfold execute.
  rewrite executeBegin_not_open by (rewrite tick_state, Hs; discriminate).
  cbn [fst snd].
  set (b3 := tick (settled c) (countRequest (tick (started c) b))).
  assert (Hs3 : state b3 = CLOSED).
  { unfold b3. rewrite tick_state. change (state (countRequest ?x)) with (state x).
    rewrite tick_state. exact Hs. }
  assert (Hk3 : 0 <= failureCount b3 <= k).
  { unfold b3.
    destruct (tick_failureCount (settled c) (countRequest (tick (started c) b)))
      as [-> | ->]; [|lia].
    change (failureCount (countRequest ?x)) with (failureCount x).
    destruct (tick_failureCount (started c) b) as [-> | ->]; lia. }
  unfold executeEnd. destruct (resolves c) eqn:Er.
  - split; [apply onSuccess_closed; exact Hs3|]. split; [reflexivity|].
    unfold onSuccess. cbv zeta.
    change (state (recordSuccess (settled c) b3)) with (state b3). rewrite Hs3.
    cbn. lia.
  - pose proof (onFailure_closed options (settled c) b3 Hs3) as H. cbv zeta in H.
    specialize (Hlow eq_refl).
    assert ((failureCount b3 + 1 >=? failureThreshold options) = false) as E
      by (rewrite Z.geb_leb; apply Z.leb_gt; lia).
    rewrite E in H. destruct H as (H1 & H2 & _).
    split; [exact H1|]. split; [reflexivity|]. lia.
Qed.

Lemma stays_closed (cs : list call) :
  forall b k,
    state b = CLOSED -> 0 <= failureCount b <= k ->
    failuresInARowBelow (failureThreshold options) k cs ->
    state (executeAll options cs b) = CLOSED
    /\ Forall (fun r => isFailedFast r = false) (results options cs b).
Proof.
  induction cs as [|c cs IH]; intros b k Hs Hk Hq.
  - split; [exact Hs|constructor].
  - cbn [failuresInARowBelow] in Hq. cbn [executeAll results].
    destruct (execute_closed_below c b k Hs Hk) as (Hs' & Hr & Hk').
    { intros Er. rewrite Er in Hq. apply Hq. }
    destruct (resolves c) eqn:Er.
    + destruct (IH _ 0 Hs' Hk' Hq) as [H1 H2].
      split; [exact H1|]. constructor; assumption.
    + destruct Hq as [_ Hq]. destruct (IH _ (k + 1) Hs' Hk' Hq) as [H1 H2].
      split; [exact H1|]. constructor; assumption.
Qed.

(** X7: The circuit opens only after [failureThreshold] failures in a row.
    On a new breaker, a run of calls in which fewer than
    [failureThreshold] calls in a row fail, however many fail in all,
    leaves the circuit CLOSED, and none of its calls fails fast. *)
Theorem circuit_stays_closed (cs : list call) :
  failuresInARowBelow (failureThreshold options) 0 cs ->
  state (executeAll options cs new) = CLOSED
  /\ Forall (fun r => isFailedFast r = false) (results options cs new).
Proof.
  intros H. apply (stays_closed cs new 0); [reflexivity|cbn; lia|exact H].
Qed.

(** X8: The successes of a trial are not forgotten when the trial fails.
    From HALF_OPEN with two successes still needed, a success, then a
    failure (which reopens the circuit), then one success after the
    cooldown close the circuit: the two successes that were counted are
    not consecutive. *)
Theorem trial_successes_accumulate (b : t) (c1 c2 c3 : call) :
  state b = HALF_OPEN ->
  successCount b + 2 = successThreshold options ->
  resolves c1 = true -> resolves c2 = false -> resolves c3 = true ->
  settled c2 + timeout options <= started c3 ->
  state (executeAll options [c1; c2] b) = OPEN
  /\ state (executeAll options [c1; c2; c3] b) = CLOSED.
Proof.
  intros Hs Hk E1 E2 E3 Hcool.
  change (executeAll options [c1; c2; c3] b)
    with (fst (execute options c3 (executeAll options [c1; c2] b))).
  change (executeAll options [c1; c2] b)
    with (fst (execute options c2 (fst (execute options c1 b)))).
  (* the first call *)
  assert (H1 : state (fst (execute options c1 b)) = HALF_OPEN
               /\ successCount (fst (execute options c1 b)) = successCount b + 1).
  { rewrite execute_succeed_not_open by (assumption || congruence).
    set (b3 := tick (settled c1) (countRequest (tick (started c1) b))).
    assert (Hs3 : state b3 = HALF_OPEN).
    { unfold b3. rewrite tick_state. change (state (countRequest ?x)) with (state x).
      rewrite tick_state. exact Hs. }
    assert (Hc3 : successCount b3 = successCount b).
    { unfold b3. rewrite tick_successCount.
      change (successCount (countRequest ?x)) with (successCount x).
      apply tick_successCount. }
    pose proof (onSuccess_half_open options (settled c1) b3 Hs3) as H. cbv zeta in H.
    assert ((successCount b3 + 1 >=? successThreshold options) = false) as E
      by (rewrite Z.geb_leb; apply Z.leb_gt; lia).
    rewrite E in H. destruct H as [Ha Hb]. split; [exact Ha|lia]. }
  destruct H1 as [Hs1 Hc1].
  revert Hs1 Hc1. generalize (fst (execute options c1 b)) as b1. intros b1 Hs1 Hc1.
  (* the second call *)
  assert (H2 : state (fst (execute options c2 b1)) = OPEN
               /\ nextAttemptTime (fst (execute options c2 b1))
                  = Some (settled c2 + timeout options)
               /\ successCount (fst (execute options c2 b1)) = successCount b1).
  { unfold execute.
    rewrite executeBegin_not_open by (rewrite tick_state, Hs1; discriminate).
    cbn [fst]. unfold executeEnd. rewrite E2.
    set (b3 := tick (settled c2) (countRequest (tick (started c2) b1))).
    assert (Hs3 : state b3 = HALF_OPEN).
    { unfold b3. rewrite tick_state. change (state (countRequest ?x)) with (state x).
      rewrite tick_state. exact Hs1. }
    assert (Hc3 : successCount b3 = successCount b1).
    { unfold b3. rewrite tick_successCount.
      change (successCount (countRequest ?x)) with (successCount x).
      apply tick_successCount. }
    destruct (onFailure_half_open options (settled c2) b3 Hs3) as [Ha Hb].
    split; [exact Ha|]. split; [exact Hb|].
    rewrite <- Hc3. unfold onFailure. cbv zeta.
    change (state (recordFailure (settled c2) b3)) with (state b3). rewrite Hs3.
    unfold scheduleNextAttempt, transitionTo. cbn. rewrite Hs3. reflexivity. }
  destruct H2 as (Hs2 & Hn2 & Hc2).
  split; [exact Hs2|].
  revert Hs2 Hn2 Hc2. generalize (fst (execute options c2 b1)) as b2.
  intros b2 Hs2 Hn2 Hc2.
  (* the third call *)
  unfold execute.
  rewrite (executeBegin_open (started c3) (settled c2 + timeout options))
    by (rewrite ?tick_state, ?tick_nextAttemptTime; assumption).
  assert ((started c3 <? settled c2 + timeout options) = false) as ->
    by (apply Z.ltb_ge; lia).
  cbn [fst]. unfold executeEnd. rewrite E3.
  set (b3 := tick (settled c3) (set_state HALF_OPEN (countRequest (tick (started c3) b2)))).
  assert (Hs3 : state b3 = HALF_OPEN) by (unfold b3; rewrite tick_state; reflexivity).
  assert (Hc3 : successCount b3 = successCount b2).
  { unfold b3. rewrite tick_successCount.
    change (successCount (set_state HALF_OPEN (countRequest ?x))) with (successCount x).
    apply tick_successCount. }
  pose proof (onSuccess_half_open options (settled c3) b3 Hs3) as H. cbv zeta in H.
  assert ((successCount b3 + 1 >=? successThreshold options) = true) as E
    by (rewrite Z.geb_leb; apply Z.leb_le; lia).
  rewrite E in H. apply H.
Qed.

End BreakerThresholds.

(** At work, with the default options (threshold 5): four failures, a
    success and four more failures leave the circuit closed. *)
Lemma circuit_stays_closed_witness :
  let fails t := {| CircuitBreaker.started := t; CircuitBreaker.settled := t + 1;
                    CircuitBreaker.resolves := false |} in
  let succeeds t := {| CircuitBreaker.started := t; CircuitBreaker.settled := t + 1;
                       CircuitBreaker.resolves := true |} in
  let cs := [fails 0; fails 10; fails 20; fails 30; succeeds 40;
             fails 50; fails 60; fails 70; fails 80] in
  failuresInARowBelow 5 0 cs
  /\ CircuitBreaker.state
       (CircuitBreaker.executeAll CircuitBreaker.DEFAULT_OPTIONS cs CircuitBreaker.new)
     = CircuitBreaker.CLOSED.
Proof.
  cbv zeta.
  match goal with |- ?H /\ _ => assert (Hq : H) by (cbn; lia) end.
  split; [exact Hq|].
  exact (proj1 (circuit_stays_closed CircuitBreaker.DEFAULT_OPTIONS _ Hq)).
Defined.

(** At work, with the default options (two successes close the circuit):
    success, failure, and one success a minute later. *)
Lemma trial_successes_accumulate_witness :
  let b := CircuitBreaker.set_state CircuitBreaker.HALF_OPEN CircuitBreaker.new in
  let c1 := {| CircuitBreaker.started := 0; CircuitBreaker.settled := 1;
               CircuitBreaker.resolves := true |} in
  let c2 := {| CircuitBreaker.started := 2; CircuitBreaker.settled := 3;
               CircuitBreaker.resolves := false |} in
  let c3 := {| CircuitBreaker.started := 60003; CircuitBreaker.settled := 60004;
               CircuitBreaker.resolves := true |} in
  CircuitBreaker.state
    (CircuitBreaker.executeAll CircuitBreaker.DEFAULT_OPTIONS [c1; c2; c3] b)
  = CircuitBreaker.CLOSED.
Proof.
  intros b c1 c2 c3.
  refine (proj2 (trial_successes_accumulate CircuitBreaker.DEFAULT_OPTIONS
                   b c1 c2 c3 eq_refl eq_refl eq_refl eq_refl eq_refl _)).
  cbn. lia.
Defined.

(* ===================================================================== *)
(** * Further properties: retries                                         *)
(* ===================================================================== *)

Section RetryFacts.
Import RetryService.

Variable toLowerCase : str -> str.
Variables (W T : Type).
Variable fn : W -> settlement T * W.
Variable options : RetryOptions.

Lemma backoffDelays_cons (first : Z) (count : nat) :
  backoffDelays options first (S count)
  = calculateDelay first (initialDelayMs options) (maxDelayMs options)
      (backoffMultiplier options)
    :: backoffDelays options (first + 1) count.
Proof.
  unfold backoffDelays. cbn [List.seq List.map]. rewrite Z.add_0_r. f_equal.
  rewrite <- seq_shift, List.map_map. apply List.map_ext. intros k. f_equal. lia.
Qed.

Lemma attemptLoop_attempts (remaining : nat) :
  forall attempt lastError w sleeps,
    (1 <= remaining)%nat ->
    attempt + Z.of_nat remaining = maxAttempts options ->
    let r := fst (attemptLoop toLowerCase fn options remaining attempt lastError w sleeps) in
    let tr := snd (attemptLoop toLowerCase fn options remaining attempt lastError w sleeps) in
    exists (n : nat) earlier last,
      (1 <= n <= remaining)%nat
      /\ world tr = worldAfter fn n w
      /\ slept tr = sleeps ++ backoffDelays options (attempt + 1) (n - 1)
      /\ settlements fn n w = earlier ++ [last]
      /\ Forall (fun s => retryable toLowerCase options s = true) earlier
      /\ reports toLowerCase options r (attempt + Z.of_nat n) last.
Proof.
  induction remaining as [|remaining IH]; intros attempt lastError w sleeps Hpos Hsum;
    [lia|].
  cbv zeta. cbn [attemptLoop]. cbv zeta.
  destruct (fn w) as [[result|e] w'] eqn:Efn.
  - exists 1%nat, [], (Resolves result). cbn [fst snd world slept].
    split; [lia|]. split; [cbn; rewrite Efn; reflexivity|].
    split; [cbn; rewrite app_nil_r; reflexivity|].
    split; [cbn; rewrite Efn; reflexivity|].
    split; [constructor|]. cbn. reflexivity.
  - set (stop := match retryableErrors options with
                 | Some patterns => negb (isRetryableError toLowerCase (asError e) patterns)
                 | None => false
                 end).
    assert (Hstop : retryable toLowerCase options (@Rejects T e) = negb stop).
    { unfold retryable, stop. destruct (retryableErrors options); [|reflexivity].
      rewrite negb_involutive. reflexivity. }
    destruct stop eqn:Estop.
    + exists 1%nat, [], (Rejects e). cbn [fst snd world slept].
      split; [lia|]. split; [cbn; rewrite Efn; reflexivity|].
      split; [cbn; rewrite app_nil_r; reflexivity|].
      split; [cbn; rewrite Efn; reflexivity|].
      split; [constructor|]. cbn [reports]. split; [reflexivity|].
      rewrite Hstop. discriminate.
    + destruct remaining as [|remaining'].
      * (* the last attempt *)
        assert ((attempt + 1 <? maxAttempts options) = false) as ->
          by (apply Z.ltb_ge; lia).
        exists 1%nat, [], (Rejects e). cbn [attemptLoop fst snd world slept].
        split; [lia|]. split; [cbn; rewrite Efn; reflexivity|].
        split; [cbn; rewrite app_nil_r; reflexivity|].
        split; [cbn; rewrite Efn; reflexivity|].
        split; [constructor|]. cbn [reports]. split; [f_equal; lia|].
        intros _. lia.
      * assert ((attempt + 1 <? maxAttempts options) = true) as ->
          by (apply Z.ltb_lt; lia).
        destruct (IH (attempt + 1) (Some (asError e)) w'
                     (sleeps ++ [calculateDelay (attempt + 1) (initialDelayMs options)
                                   (maxDelayMs options) (backoffMultiplier options)]))
          as (n & earlier & last & Hn & Hw & Hs & Hset & Hear & Hrep); [lia|lia|].
        exists (S n), (Rejects e :: earlier), last.
        split; [lia|].
        split; [cbn [worldAfter]; rewrite Efn; exact Hw|].
        split.
        { rewrite Hs, <- app_assoc. f_equal.
          replace (S n - 1)%nat with (S (n - 1)) by lia.
          rewrite backoffDelays_cons. reflexivity. }
        split; [cbn [settlements]; rewrite Efn; cbn [fst snd]; rewrite Hset; reflexivity|].
        split; [constructor; [rewrite Hstop; reflexivity|exact Hear]|].
        replace (attempt + Z.of_nat (S n)) with (attempt + 1 + Z.of_nat n) by lia.
        exact Hrep.
Qed.

(** X9: What [executeWithRetry] does when at least one attempt is allowed.
    It calls the operation [n] times, with 1 <= n <= maxAttempts, and
    reports [n] attempts.  Every call but the last rejected with an error
    after which the loop goes on; it slept after each of them, and not
    after the last call, the delay after attempt [k] being
    [calculateDelay k].  The result tells how the last call settled:
    success with its data, or failure with its error, and a failure whose
    error would have allowed another attempt is reported only when the
    attempts are used up. *)
Theorem executeWithRetry_attempts (w : W) :
  1 <= maxAttempts options ->
  let r := fst (executeWithRetry toLowerCase fn options w) in
  let tr := snd (executeWithRetry toLowerCase fn options w) in
  exists (n : nat) earlier last,
    1 <= Z.of_nat n <= maxAttempts options
    /\ attempts r = Z.of_nat n
    /\ world tr = worldAfter fn n w
    /\ slept tr = backoffDelays options 1 (n - 1)
    /\ settlements fn n w = earlier ++ [last]
    /\ Forall (fun s => retryable toLowerCase options s = true) earlier
    /\ reports toLowerCase options r (Z.of_nat n) last.
Proof.
  intros Hmax. cbv zeta. unfold executeWithRetry.
  destruct (attemptLoop_attempts (Z.to_nat (maxAttempts options)) 0 None w [])
    as (n & earlier & last & Hn & Hw & Hs & Hset & Hear & Hrep); [lia|lia|].
  exists n, earlier, last.
  split; [lia|]. split.
  { rewrite Z.add_0_l in Hrep. destruct last as [d|e]; cbn in Hrep.
    - rewrite Hrep. reflexivity.
    - destruct Hrep as [-> _]. reflexivity. }
  split; [exact Hw|]. split; [exact Hs|]. split; [exact Hset|].
  split; [exact Hear|]. rewrite Z.add_0_l in Hrep. exact Hrep.
Qed.

End RetryFacts.

(** At work: an operation that rejects twice with a network error and
    then resolves, under the default options, is called three times. *)
Lemma executeWithRetry_attempts_witness :
  let fn := fun w : nat =>
              (if (w <? 2)%nat
               then RetryService.Rejects (RetryService.ErrorObject (lit "network down"))
               else RetryService.Resolves w, S w) in
  1 <= RetryService.maxAttempts RetryService.DEFAULT_OPTIONS
  /\ exists n : nat,
       1 <= Z.of_nat n <= 3
       /\ RetryService.attempts
            (fst (RetryService.executeWithRetry (fun s => s) fn
                    RetryService.DEFAULT_OPTIONS 0%nat))
          = Z.of_nat n.
Proof.
  intros fn.
  assert (H : 1 <= RetryService.maxAttempts RetryService.DEFAULT_OPTIONS)
    by (cbn; lia).
  split; [exact H|].
  destruct (executeWithRetry_attempts (fun s => s) nat nat fn
              RetryService.DEFAULT_OPTIONS 0%nat H)
    as (n & _ & _ & Hn & Ha & _).
  exists n. split; [exact Hn|exact Ha].
Defined.

(* ===================================================================== *)
(** * Further properties: the resilient sender                            *)
(* ===================================================================== *)

Section ResilientFacts.
Import RetryService ResilientWhatsAppService.

Variable toLowerCase : str -> str.
Variable client : list attempt -> str -> str -> option thrown.

(** A call that resolves, made on a closed circuit. *)
Lemma execute_resolving_closed (options : CircuitBreaker.CircuitBreakerOptions)
      (c : CircuitBreaker.call) (b : CircuitBreaker.t) :
  CircuitBreaker.resolves c = true ->
  CircuitBreaker.state b = CircuitBreaker.CLOSED ->
  snd (CircuitBreaker.execute options c b) = CircuitBreaker.Resolved
  /\ CircuitBreaker.state (fst (CircuitBreaker.execute options c b))
     = CircuitBreaker.CLOSED
  /\ CircuitBreaker.totalFailures (fst (CircuitBreaker.execute options c b))
     = CircuitBreaker.totalFailures b.
Proof.
  intros Hr Hs. split.
  { unfold CircuitBreaker.execute.
    rewrite executeBegin_not_open by (rewrite tick_state, Hs; discriminate).
    rewrite Hr. reflexivity. }
  rewrite execute_succeed_not_open by (assumption || congruence).
  set (b3 := CircuitBreaker.tick (CircuitBreaker.settled c)
               (CircuitBreaker.countRequest
                  (CircuitBreaker.tick (CircuitBreaker.started c) b))).
  assert (Hs3 : CircuitBreaker.state b3 = CircuitBreaker.CLOSED).
  { unfold b3. rewrite tick_state.
    change (CircuitBreaker.state (CircuitBreaker.countRequest ?x))
      with (CircuitBreaker.state x).
    rewrite tick_state. exact Hs. }
  assert (Hf3 : CircuitBreaker.totalFailures b3 = CircuitBreaker.totalFailures b).
  { unfold b3.
    destruct (tick_totals (CircuitBreaker.settled c)
                (CircuitBreaker.countRequest
                   (CircuitBreaker.tick (CircuitBreaker.started c) b)))
      as (_ & _ & ->).
    change (CircuitBreaker.totalFailures (CircuitBreaker.countRequest ?x))
      with (CircuitBreaker.totalFailures x).
    apply tick_totals. }
  split; [apply onSuccess_closed; exact Hs3|].
  unfold CircuitBreaker.onSuccess. cbv zeta.
  change (CircuitBreaker.state (CircuitBreaker.recordSuccess ?n b3))
    with (CircuitBreaker.state b3).
  rewrite Hs3. cbn. exact Hf3.
Qed.

Lemma protectedOperation_resolves (phone text : str) (log : list attempt) :
  fst (protectedOperation toLowerCase client phone text log) = Resolves tt.
Proof.
  unfold protectedOperation.
  destruct (executeWithRetry toLowerCase (send client phone text) RETRY_OPTIONS log).
  reflexivity.
Qed.

Lemma sendSingleMessage_closed (started settled : Z) (phone text : str) (s : t) :
  CircuitBreaker.state (circuitBreaker s) = CircuitBreaker.CLOSED ->
  let s' := fst (sendSingleMessage toLowerCase client started settled phone text s) in
  snd (sendSingleMessage toLowerCase client started settled phone text s) = true
  /\ CircuitBreaker.state (circuitBreaker s') = CircuitBreaker.CLOSED
  /\ CircuitBreaker.totalFailures (circuitBreaker s')
     = CircuitBreaker.totalFailures (circuitBreaker s).
Proof.
  intros Hs. cbv zeta. unfold sendSingleMessage. cbv zeta.
  rewrite protectedOperation_resolves.
  match goal with
  | |- context [CircuitBreaker.execute ?o ?c ?b] =>
      destruct (execute_resolving_closed o c b eq_refl Hs) as (Hr & Hc & Hf);
      destruct (CircuitBreaker.execute o c b) as [b' r]
  end.
  cbn [fst snd] in *. subst r. cbn. auto.
Qed.

Lemma sendAll_closed (requests : list request) :
  forall s,
    CircuitBreaker.state (circuitBreaker s) = CircuitBreaker.CLOSED ->
    let s' := fst (sendAll toLowerCase client requests s) in
    Forall (fun sent => sent = true) (snd (sendAll toLowerCase client requests s))
    /\ CircuitBreaker.state (circuitBreaker s') = CircuitBreaker.CLOSED
    /\ CircuitBreaker.totalFailures (circuitBreaker s')
       = CircuitBreaker.totalFailures (circuitBreaker s).
Proof.
  induction requests as [|r rest IH]; intros s Hs; cbv zeta.
  - cbn. auto.
  - cbn [sendAll].
    destruct (sendSingleMessage_closed (started r) (settled r) (phoneNumber r)
                (message r) s Hs) as (Hr & Hc & Hf).
    destruct (sendSingleMessage toLowerCase client (started r) (settled r)
                (phoneNumber r) (message r) s) as [s1 sent].
    cbn [fst snd] in *. subst sent.
    destruct (IH s1 Hc) as (Hall & Hc' & Hf').
    destruct (sendAll toLowerCase client rest s1) as [s2 sents].
    cbn [fst snd] in *. split; [constructor; [reflexivity|exact Hall]|].
    split; [exact Hc'|]. rewrite Hf', Hf. reflexivity.
Qed.

(** X10: The resilient sender reports success whatever the client does, and
    its circuit never opens.  Starting with a new breaker, every request
    of any sequence of requests returns [true], the circuit is CLOSED
    afterwards and no failure has been counted: be it that the client
    rejected every single attempt.  (The result of [executeWithRetry],
    which does not throw, is not looked at.) *)
Theorem resilient_send_always_succeeds (requests : list request) (log : list attempt) :
  let s := {| circuitBreaker := CircuitBreaker.new; log := log |} in
  let s' := fst (sendAll toLowerCase client requests s) in
  Forall (fun sent => sent = true) (snd (sendAll toLowerCase client requests s))
  /\ CircuitBreaker.state (circuitBreaker s') = CircuitBreaker.CLOSED
  /\ CircuitBreaker.totalFailures (circuitBreaker s') = 0.
Proof.
  cbv zeta. apply (sendAll_closed requests). reflexivity.
Qed.

End ResilientFacts.

(* ===================================================================== *)
(** * Further properties: the throttle                                    *)
(* ===================================================================== *)

Section ThrottleIsolation.
Import EventBroadcaster.

Variable ty : WorkspaceEventType.

Lemma broadcastAll_cons (now : Z) (e : WorkspaceEvent) (rest : list arrival) (b : t) :
  broadcastAll ((now, e) :: rest) b
  = (fst (broadcastAll rest (fst (broadcast now e b))),
     match snd (broadcast now e b) with
     | Some _ => (now, e) :: snd (broadcastAll rest (fst (broadcast now e b)))
     | None => snd (broadcastAll rest (fst (broadcast now e b)))
     end).
Proof.
  cbn [broadcastAll]. destruct (broadcast now e b) as [b' out]. cbn [fst snd].
  destruct (broadcastAll rest b') as [b'' forwarded]. reflexivity.
Qed.

(** The decision on an event and its effect on the window of its type
    depend on the configuration and the window of that type only. *)
Lemma broadcast_agree (now : Z) (e : WorkspaceEvent) (b b' : t) :
  type e = ty -> agreeOn ty b b' ->
  agreeOn ty (fst (broadcast now e b)) (fst (broadcast now e b'))
  /\ (snd (broadcast now e b) = None <-> snd (broadcast now e b') = None).
Proof.
  intros Hty [Hc Hs]. unfold broadcast.
  assert (Hth : shouldThrottle now e b = shouldThrottle now e b').
  { unfold shouldThrottle. rewrite Hty, Hc, Hs. reflexivity. }
  rewrite <- Hth. destruct (shouldThrottle now e b).
  - cbn [fst snd]. split; [split; assumption|tauto].
  - cbn [fst snd]. split; [|split; discriminate].
    unfold updateThrottleState, agreeOn. rewrite Hty, <- Hc, <- Hs.
    destruct (throttleConfig b !! ty) as [c|] eqn:Ec; [|split; cbn; congruence].
    destruct (negb (enabled c)); [split; cbn; congruence|].
    cbn [throttleConfig throttleState]. split; [congruence|].
    rewrite !lookup_insert_eq. reflexivity.
Qed.

Lemma broadcast_other_agree (now : Z) (e : WorkspaceEvent) (b : t) :
  type e <> ty -> agreeOn ty (fst (broadcast now e b)) b.
Proof.
  intros Hne. split.
  - rewrite broadcast_config. reflexivity.
  - apply broadcast_other_state. exact Hne.
Qed.

Lemma agreeOn_trans (b1 b2 b3 : t) :
  agreeOn ty b1 b2 -> agreeOn ty b2 b3 -> agreeOn ty b1 b3.
Proof. intros [H1 H2] [H3 H4]. split; congruence. Qed.

Lemma filter_ofType_cons (now : Z) (e : WorkspaceEvent) (l : list arrival) :
  List.filter (ofType ty) ((now, e) :: l)
  = if bool_decide (type e = ty)
    then (now, e) :: List.filter (ofType ty) l
    else List.filter (ofType ty) l.
Proof. reflexivity. Qed.

Lemma broadcastAll_agree (arrivals : list arrival) :
  forall b b',
    agreeOn ty b b' ->
    List.filter (ofType ty) (snd (broadcastAll arrivals b))
    = snd (broadcastAll (List.filter (ofType ty) arrivals) b')
    /\ agreeOn ty (fst (broadcastAll arrivals b))
         (fst (broadcastAll (List.filter (ofType ty) arrivals) b')).
Proof.
  induction arrivals as [|[now e] rest IH]; intros b b' Hag.
  - cbn. split; [reflexivity|exact Hag].
  - rewrite filter_ofType_cons, broadcastAll_cons. cbn [fst snd].
    destruct (decide (type e = ty)) as [Hty|Hne].
    + rewrite bool_decide_eq_true_2 by exact Hty.
      rewrite broadcastAll_cons. cbn [fst snd].
      destruct (broadcast_agree now e b b' Hty Hag) as [Hag' Hdec].
      destruct (IH _ _ Hag') as [IH1 IH2].
      split; [|exact IH2].
      destruct (snd (broadcast now e b)) as [r|] eqn:E1;
        destruct (snd (broadcast now e b')) as [r'|] eqn:E2.
      * rewrite filter_ofType_cons, bool_decide_eq_true_2 by exact Hty.
        f_equal. exact IH1.
      * exfalso. destruct Hdec as [_ H]. specialize (H eq_refl). discriminate.
      * exfalso. destruct Hdec as [H _]. specialize (H eq_refl). discriminate.
      * exact IH1.
    + rewrite bool_decide_eq_false_2 by exact Hne.
      assert (Hag' : agreeOn ty (fst (broadcast now e b)) b')
        by (eapply agreeOn_trans; [apply broadcast_other_agree; exact Hne|exact Hag]).
      destruct (IH _ _ Hag') as [IH1 IH2].
      split; [|exact IH2].
      destruct (snd (broadcast now e b)); [|exact IH1].
      rewrite filter_ofType_cons, bool_decide_eq_false_2 by exact Hne. exact IH1.
Qed.

(** X11: The types are throttled independently of one another.  Of a mixed
    sequence of arrivals, the events of type [ty] that are forwarded are
    those that are forwarded when the events of type [ty] arrive alone;
    the events of the other types change neither the configuration nor the
    window of [ty]. *)
Theorem types_throttled_independently (arrivals : list arrival) (b : t) :
  List.filter (ofType ty) (snd (broadcastAll arrivals b))
  = snd (broadcastAll (List.filter (ofType ty) arrivals) b)
  /\ throttleState (fst (broadcastAll arrivals b)) !! ty
     = throttleState (fst (broadcastAll (List.filter (ofType ty) arrivals) b)) !! ty.
Proof.
  destruct (broadcastAll_agree arrivals b b) as [H1 [_ H2]]; [split; reflexivity|].
  split; assumption.
Qed.

Lemma broadcast_unthrottled (now : Z) (e : WorkspaceEvent) (b : t) :
  type e = ty -> unthrottled ty b ->
  exists receivers, broadcast now e b = (b, Some receivers).
Proof.
  intros Hty Hun. unfold unthrottled in Hun. unfold broadcast, shouldThrottle,
    updateThrottleState.
  rewrite Hty. destruct (throttleConfig b !! ty) as [c|].
  - rewrite Hun. cbn. eauto.
  - eauto.
Qed.

Lemma unthrottled_agree (b b' : t) :
  agreeOn ty b b' -> unthrottled ty b' -> unthrottled ty b.
Proof. intros [Hc _]. unfold unthrottled. rewrite Hc. tauto. Qed.

Lemma broadcastAll_unthrottled (arrivals : list arrival) :
  forall b,
    unthrottled ty b ->
    List.filter (ofType ty) (snd (broadcastAll arrivals b))
    = List.filter (ofType ty) arrivals
    /\ throttleState (fst (broadcastAll arrivals b)) !! ty = throttleState b !! ty.
Proof.
  induction arrivals as [|[now e] rest IH]; intros b Hun.
  - cbn. auto.
  - change (List.filter (ofType ty) ((now, e) :: rest))
      with (if bool_decide (type e = ty)
            then (now, e) :: List.filter (ofType ty) rest
            else List.filter (ofType ty) rest).
    rewrite broadcastAll_cons. cbn [fst snd].
    destruct (decide (type e = ty)) as [Hty|Hne].
    + rewrite bool_decide_eq_true_2 by exact Hty.
      destruct (broadcast_unthrottled now e b Hty Hun) as [r ->]. cbn [fst snd].
      destruct (IH b Hun) as [IH1 IH2]. split; [|exact IH2].
      rewrite filter_ofType_cons, bool_decide_eq_true_2 by exact Hty.
      f_equal. exact IH1.
    + rewrite bool_decide_eq_false_2 by exact Hne.
      pose proof (broadcast_other_agree now e b Hne) as Hag.
      destruct (IH _ (unthrottled_agree _ _ Hag Hun)) as [IH1 IH2].
      split; [|rewrite IH2; apply Hag].
      destruct (snd (broadcast now e b)); [|exact IH1].
      rewrite filter_ofType_cons, bool_decide_eq_false_2 by exact Hne. exact IH1.
Qed.

(** X12: A type without a configuration, or whose configuration is disabled,
    is never throttled: every event of the type is forwarded, however
    fast the events arrive, and no window is kept for it. *)
Theorem unthrottled_type_always_forwarded (arrivals : list arrival) (b : t) :
  unthrottled ty b ->
  List.filter (ofType ty) (snd (broadcastAll arrivals b))
  = List.filter (ofType ty) arrivals
  /\ throttleState (fst (broadcastAll arrivals b)) !! ty = throttleState b !! ty.
Proof. apply broadcastAll_unthrottled. Qed.

End ThrottleIsolation.

(** At work: file changes are forwarded without limit once their
    throttle is disabled. *)
Lemma unthrottled_type_always_forwarded_witness :
  let b := EventBroadcaster.updateThrottleConfig EventBroadcaster.FILE_CHANGED
             {| EventBroadcaster.enabled := false;
                EventBroadcaster.windowMs := 30000;
                EventBroadcaster.maxEvents := 10 |}
             EventBroadcaster.new in
  let e := {| EventBroadcaster.type := EventBroadcaster.FILE_CHANGED;
              EventBroadcaster.timestamp := 0;
              EventBroadcaster.payload := [] |} in
  unthrottled EventBroadcaster.FILE_CHANGED b
  /\ snd (EventBroadcaster.broadcastAll [(0, e); (0, e); (0, e)] b)
     = [(0, e); (0, e); (0, e)].
Proof.
  intros b e.
  assert (H : unthrottled EventBroadcaster.FILE_CHANGED b) by reflexivity.
  split; [exact H|].
  exact (proj1 (unthrottled_type_always_forwarded EventBroadcaster.FILE_CHANGED
                  [(0, e); (0, e); (0, e)] b H)).
Defined.

(* ===================================================================== *)
(** * Further properties: the chunks of a long message                    *)
(* ===================================================================== *)

Section ChunkSizes.
Import WhatsAppSender.

Lemma visible_app (s t : str) : visible (s ++ t) = visible s ++ visible t.
Proof. unfold visible. apply List.filter_app. Qed.

Lemma visible_trimStart (s : str) : visible (trimStart s) = visible s.
Proof.
  induction s as [|c s IH]; [reflexivity|].
  cbn [trimStart]. destruct (isSpace c) eqn:Hc; [|reflexivity].
  rewrite IH. unfold visible. cbn [List.filter]. rewrite Hc. reflexivity.
Qed.

Lemma visible_rev (s : str) : visible (rev s) = rev (visible s).
Proof.
  unfold visible. induction s as [|c s IH]; [reflexivity|].
  simpl. rewrite List.filter_app, IH. simpl.
  destruct (negb (isSpace c)); simpl; [reflexivity|apply app_nil_r].
Qed.

(** Trimming removes white space only. *)
Lemma visible_trim (s : str) : visible (trim s) = visible s.
Proof.
  unfold trim, trimEnd.
  rewrite visible_rev, visible_trimStart, visible_rev, rev_involutive.
  apply visible_trimStart.
Qed.

Lemma trimStart_snoc_space (s : str) (c : Z) :
  isSpace c = true ->
  trimStart (s ++ [c]) = match trimStart s with [] => [] | t => t ++ [c] end.
Proof.
  intros Hc. induction s as [|x s IH]; simpl.
  - rewrite Hc. reflexivity.
  - destruct (isSpace x); [exact IH|reflexivity].
Qed.

Lemma trimEnd_length (s : str) : (length (trimEnd s) <= length s)%nat.
Proof.
  unfold trimEnd. rewrite length_rev.
  etransitivity; [apply trimStart_length|]. rewrite length_rev. lia.
Qed.

(** A text that ends with white space loses at least that when trimmed. *)
Lemma trim_snoc_space_length (s : str) (c : Z) :
  isSpace c = true -> (length (trim (s ++ [c])) <= length s)%nat.
Proof.
  intros Hc. unfold trim. rewrite trimStart_snoc_space by exact Hc.
  pose proof (trimStart_length s) as Hs.
  destruct (trimStart s) as [|x t] eqn:E; [simpl; lia|].
  unfold trimEnd. rewrite rev_app_distr. simpl rev at 2. cbn [app trimStart].
  rewrite Hc. change (rev (trimStart (rev (x :: t)))) with (trimEnd (x :: t)).
  etransitivity; [apply trimEnd_length|exact Hs].
Qed.

(** The part before the split point, trimmed, fits the limit. *)
Lemma chunk_fits (remaining : str) :
  len (trim (take (Z.to_nat (splitIndex remaining)) remaining)) <= MAX_MESSAGE_LENGTH.
Proof.
  assert (Hafter : forall c, isSpace c = true ->
            splitsAfterLast c remaining (splitIndex remaining) ->
            len (trim (take (Z.to_nat (splitIndex remaining)) remaining))
            <= MAX_MESSAGE_LENGTH).
  { intros c Hc (k & -> & Hk & Hat & _).
    replace (Z.to_nat (k + 1)) with (S (Z.to_nat k)) by lia.
    rewrite (take_S_r _ _ c) by exact Hat.
    pose proof (trim_snoc_space_length (take (Z.to_nat k) remaining) c Hc) as H.
    pose proof (length_take_le remaining (Z.to_nat k)) as H'.
    unfold len, MAX_MESSAGE_LENGTH.
    rewrite length_take in H. lia. }
  destruct (splitIndex_preferred remaining) as [H|[[_ H]|(_ & _ & H)]].
  - apply (Hafter 10); [reflexivity|exact H].
  - apply (Hafter 32); [reflexivity|exact H].
  - rewrite H. pose proof (trim_length (take (Z.to_nat MAX_MESSAGE_LENGTH) remaining)) as Ht.
    rewrite length_take in Ht. unfold len, MAX_MESSAGE_LENGTH in *. lia.
Qed.

Lemma chunksOf_fit (remaining : str) (chunks : list str) :
  chunksOf remaining chunks ->
  Forall (fun chunk => len chunk <= MAX_MESSAGE_LENGTH) chunks
  /\ visible (concat chunks) = visible remaining.
Proof.
  induction 1 as [|remaining Hlen|remaining i rest Hlong Hi Hsplit Hrest [IH1 IH2]].
  - split; [constructor|reflexivity].
  - split; [constructor; [lia|constructor]|].
    simpl. rewrite app_nil_r. reflexivity.
  - split.
    + constructor; [|exact IH1]. subst i. apply chunk_fits.
    + cbn [concat]. rewrite visible_app, IH2, !visible_trim, <- visible_app.
      rewrite take_drop. reflexivity.
Qed.

(** X13: The chunks of a message.  [chunkMessage] returns, whatever the text
    and its length; no chunk is longer than the limit of 4096 code units;
    and the chunks, one after the other, hold the visible code units of
    the message in their order: white space is all that is lost at the
    seams. *)
Theorem chunks_fit_and_keep_the_text (message : str) :
  exists chunks,
    chunkMessage message = Some chunks
    /\ Forall (fun chunk => len chunk <= MAX_MESSAGE_LENGTH) chunks
    /\ visible (concat chunks) = visible message.
Proof.
  destruct (chunkMessage_chunks message) as (chunks & H & Hrel).
  exists chunks. split; [exact H|]. apply chunksOf_fit. exact Hrel.
Qed.

End ChunkSizes.

(* ===================================================================== *)
(** * Further properties: batches and their timers                        *)
(* ===================================================================== *)

Section BatchFacts.
Import NotificationDispatcher.

Variable deliver : list delivery -> str -> str -> bool.

Lemma set_queue_same (d : t) : set_queue (queue d) d = d.
Proof. destruct d. reflexivity. Qed.

Lemma requeueAll_queue (now : Z) (ns : list Notification) :
  forall d, requeueAll now ns d = set_queue (queue d ++ List.map (requeued now) ns) d.
Proof.
  induction ns as [|n ns IH]; intros d.
  - cbn. rewrite app_nil_r. symmetry. apply set_queue_same.
  - cbn [requeueAll List.map]. rewrite IH. unfold requeueNotification, set_queue.
    cbn. rewrite <- app_assoc. reflexivity.
Qed.

(** The loop drops the items that are not urgent. *)
Lemma drain_discards (now : Z) (fuel : nat) :
  forall d,
    Forall (fun i => urgentItem i = false) (queue d) ->
    (length (queue d) < fuel)%nat ->
    drain deliver fuel now d = Some (set_queue [] d).
Proof.
  induction fuel as [|fuel IH]; intros d Hq Hlen; [lia|].
  cbn [drain]. destruct (queue d) as [|item rest] eqn:Eq.
  - rewrite <- Eq. rewrite set_queue_same. reflexivity.
  - apply Forall_cons in Hq as [Hitem Hrest].
    unfold processItem. unfold urgentItem in Hitem. rewrite Hitem.
    rewrite IH; [reflexivity|exact Hrest|cbn in *; lia].
Qed.

Lemma processQueue_discards (now : Z) (d : t) :
  isProcessing d = false ->
  Forall (fun i => urgentItem i = false) (queue d) ->
  processQueue deliver (S (length (queue d))) now d = Some (set_queue [] d).
Proof.
  intros Hidle Hq. unfold processQueue. rewrite Hidle.
  rewrite drain_discards; [|exact Hq|cbn; lia].
  destruct d. cbn in *. subst. reflexivity.
Qed.

(** X15: A notification queued alone loses the race with its own timer.  When
    no timer is pending for the user, queueing a notification arms one for
    30 seconds later and stores the batch with a time to live of the same
    30 seconds.  When [processBatch] runs later than that, be it by a
    millisecond, the batch has expired: it finds nothing, delivers nothing
    and leaves the entry of the timer in place.  With that entry in place
    no timer is armed for the user again. *)
Theorem lone_notification_expires_before_its_timer
        (now0 : Z) (newId user phone : str) (ty : NotificationType)
        (title message : str) (priority : NotificationPriority) (d : t) :
  batchTimers d !! user = None ->
  let d1 := queueNotification now0 newId user phone ty title message priority d in
  batchTimers d1 !! user = Some (now0 + BATCH_WINDOW_MS)
  /\ (forall now, now0 + BATCH_WINDOW_MS < now ->
                  processBatch deliver now user d1 = d1)
  /\ (forall now' newId' phone' ty' title' message' priority',
        batchTimers (queueNotification now' newId' user phone' ty' title' message'
                       priority' d1) !! user
        = Some (now0 + BATCH_WINDOW_MS)).
Proof.
  intros Hnone. cbv zeta.
  assert (Ht : batchTimers (queueNotification now0 newId user phone ty title message
                              priority d) !! user = Some (now0 + BATCH_WINDOW_MS)).
  { unfold queueNotification, addToBatch. cbv zeta.
    cbn [batchTimers set_batches set_queue]. rewrite Hnone.
    cbn [batchTimers set_batchTimers]. apply lookup_insert_eq. }
  split; [exact Ht|]. split.
  - intros now Hnow. unfold processBatch, getBatch.
    assert (Hb : exists batch,
               batches (queueNotification now0 newId user phone ty title message
                          priority d) !! user
               = Some (batch, now0 + BATCH_WINDOW_MS)).
    { unfold queueNotification, addToBatch. cbv zeta.
      cbn [batchTimers set_batches set_queue]. rewrite Hnone.
      cbn [batches set_batchTimers set_batches]. rewrite lookup_insert_eq. eauto. }
    destruct Hb as [batch ->].
    assert ((now <? now0 + BATCH_WINDOW_MS) = false) as -> by (apply Z.ltb_ge; lia).
    reflexivity.
  - intros now' newId' phone' ty' title' message' priority'.
    generalize dependent (queueNotification now0 newId user phone ty title message
                            priority d).
    intros d1 Hd1. unfold queueNotification, addToBatch. cbv zeta.
    cbn [batchTimers set_batches set_queue]. rewrite Hd1. cbn [batchTimers set_batches].
    exact Hd1.
Qed.

(** X16: A batch whose delivery fails is not tried again.  [processBatch]
    removes the batch and its timer, hands the text to the sender once and,
    when that fails, puts the notifications of the batch back on the queue;
    the next run of [processQueue] removes them from the queue and, none
    of them being urgent, delivers none of them: nothing is left of the
    batch, and the failed attempt is the only one made. *)
Theorem failed_batch_is_never_retried
        (now now' : Z) (user : str) (batch : BatchedNotifications) (d : t) :
  getBatch now user d = Some batch ->
  deliver (sent d) (batchPhoneNumber batch) (formatBatchedNotifications batch) = false ->
  isProcessing d = false ->
  Forall (fun i => urgentItem i = false) (queue d) ->
  Forall (fun n => isUrgent (priority n) = false) (notifications batch) ->
  let d1 := processBatch deliver now user d in
  queue d1 = queue d ++ List.map (requeued now) (notifications batch)
  /\ batches d1 !! user = None
  /\ batchTimers d1 !! user = None
  /\ exists d2,
       processQueue deliver (S (length (queue d1))) now' d1 = Some d2
       /\ queue d2 = []
       /\ batches d2 !! user = None
       /\ sent d2 = sent d ++ [(batchPhoneNumber batch, formatBatchedNotifications batch)].
Proof.
  intros Hbatch Hfail Hidle Hq Hn. cbv zeta.
  assert (Hd1 : processBatch deliver now user d
                = set_queue (queue d ++ List.map (requeued now) (notifications batch))
                    (set_sent (sent d ++ [(batchPhoneNumber batch,
                                           formatBatchedNotifications batch)])
                       (set_batchTimers (delete user (batchTimers d))
                          (set_batches (delete user (batches d)) d)))).
  { unfold processBatch. rewrite Hbatch. cbv zeta. unfold send.
    cbn [sent set_batchTimers set_batches]. rewrite Hfail.
    rewrite requeueAll_queue. reflexivity. }
  rewrite Hd1.
  split; [reflexivity|]. split; [apply lookup_delete_eq|].
  split; [apply lookup_delete_eq|].
  eexists. split.
  - apply processQueue_discards; [exact Hidle|].
    cbn [queue set_queue]. apply Forall_app. split; [exact Hq|].
    apply Forall_forall. intros i Hi. apply list_elem_of_In, in_map_iff in Hi.
    destruct Hi as (n & <- & Hin). rewrite Forall_forall in Hn.
    apply Hn. apply list_elem_of_In. exact Hin.
  - cbn. split; [reflexivity|]. split; [apply lookup_delete_eq|reflexivity].
Qed.


(** X18: The events the extension declares, as the backend announces them.  A
    BuildCompleteEvent has no [success] and no [error] property, so every
    build, whatever its status, is announced as failed, with the priority
    HIGH; a FileChangedEvent names its file in [filePath], not in [path],
    so the file is always unknown. *)
Theorem declared_events_are_misreported (timestamp : Z) (duration : value) :
  formatEventNotification (buildCompleteEvent timestamp duration)
  = {| eventTitle := lit "Build Complete";
       eventMessage := lit "Build failed: Unknown error";
       eventPriority := HIGH |}
  /\ formatEventNotification (fileChangedEvent timestamp)
     = {| eventTitle := lit "File Changed";
          eventMessage := lit "File modified: Unknown file";
          eventPriority := LOW |}.
Proof. split; reflexivity. Qed.

End BatchFacts.

(** At work: one notification queued on a new dispatcher; its timer fires
    a millisecond late and finds nothing. *)
Lemma lone_notification_expires_before_its_timer_witness :
  let d1 := NotificationDispatcher.queueNotification 0 (lit "id-1") (lit "u1")
              (lit "15550100") NotificationDispatcher.ERROR (lit "Error Detected")
              (lit "tests failed") NotificationDispatcher.HIGH
              NotificationDispatcher.new in
  NotificationDispatcher.batchTimers NotificationDispatcher.new !! lit "u1" = None
  /\ NotificationDispatcher.processBatch (fun _ _ _ => true) 30001 (lit "u1") d1 = d1.
Proof.
  intros d1.
  assert (H : NotificationDispatcher.batchTimers NotificationDispatcher.new !! lit "u1"
              = None) by reflexivity.
  split; [exact H|].
  destruct (lone_notification_expires_before_its_timer (fun _ _ _ => true) 0
              (lit "id-1") (lit "u1") (lit "15550100") NotificationDispatcher.ERROR
              (lit "Error Detected") (lit "tests failed") NotificationDispatcher.HIGH
              NotificationDispatcher.new H) as (_ & Hfire & _).
  apply Hfire. unfold NotificationDispatcher.BATCH_WINDOW_MS. lia.
Defined.

(** At work: a batch of one notification of priority LOW, flushed ten
    seconds after it was queued through a sender that fails. *)
Lemma failed_batch_is_never_retried_witness :
  let n := {| NotificationDispatcher.id := lit "id-1";
              NotificationDispatcher.userId := lit "u1";
              NotificationDispatcher.phoneNumber := lit "15550100";
              NotificationDispatcher.type := NotificationDispatcher.FILE_CHANGED;
              NotificationDispatcher.priority := NotificationDispatcher.LOW;
              NotificationDispatcher.title := lit "File Changed";
              NotificationDispatcher.message := lit "a.ts";
              NotificationDispatcher.timestamp := 0 |} in
  let batch := {| NotificationDispatcher.batchUserId := lit "u1";
                  NotificationDispatcher.batchPhoneNumber := lit "15550100";
                  NotificationDispatcher.notifications := [n];
                  NotificationDispatcher.batchedAt := 0 |} in
  let d := NotificationDispatcher.queueNotification 0 (lit "id-1") (lit "u1")
             (lit "15550100") NotificationDispatcher.FILE_CHANGED (lit "File Changed")
             (lit "a.ts") NotificationDispatcher.LOW NotificationDispatcher.new in
  let d1 := NotificationDispatcher.processBatch (fun _ _ _ => false) 10000 (lit "u1") d in
  NotificationDispatcher.getBatch 10000 (lit "u1") d = Some batch
  /\ NotificationDispatcher.batches d1 !! lit "u1" = None.
Proof.
  intros n batch d d1.
  assert (H : NotificationDispatcher.getBatch 10000 (lit "u1") d = Some batch)
    by reflexivity.
  split; [exact H|].
  refine (proj1 (proj2 (failed_batch_is_never_retried (fun _ _ _ => false)
                          10000 20000 (lit "u1") batch d H eq_refl eq_refl _ _))).
  - cbn. constructor; [reflexivity|constructor].
  - cbn. constructor; [reflexivity|constructor].
Defined.


(* ===================================================================== *)
(** * Further properties: the workspace client                            *)
(* ===================================================================== *)

Section ClientFacts.
Import WorkspaceManagerClient.

Lemma getCacheKey_cacheable (command : Command) :
  shouldCache command = true -> getCacheKey command <> [].
Proof.
  destruct command; cbn; try discriminate; intros _; discriminate.
Qed.

(** X19: A file read or a directory listing that was answered is served from
    the cache for five minutes.  A connected client sends the command when
    the cache has nothing for it; once the successful response has
    arrived, every command with the same cache key that is executed less
    than 300 seconds after the response returns that result, marked
    [fromCache], without anything being sent or left pending; later than
    300 seconds after it the command is sent again. *)
Theorem answered_read_is_served_from_cache
        (t0 t1 t2 : Z) (commandId commandId' : str) (command command' : Command)
        (response : CommandResponse) (c : t) :
  isConnected c = true -> socket c = true -> cacheUp c = true ->
  shouldCache command = true ->
  getFromCache t0 (getCacheKey command) c = None ->
  responseId response = commandId -> responseSuccess response = true ->
  getCacheKey command' = getCacheKey command ->
  let c1 := fst (executeCommand t0 commandId command c) in
  let c2 := fst (handleCommandResponse t1 response c1) in
  executeCommand t0 commandId command c
  = (c1, Awaiting commandId)
  /\ emitted c1 = emitted c ++ [(commandId, command)]
  /\ snd (handleCommandResponse t1 response c1) = Some (Returns (resultOf response))
  /\ pendingCommands c2 !! commandId = None
  /\ (t2 < t1 + CACHE_TTL_MS ->
      executeCommand t2 commandId' command' c2
      = (c2, Returned (cachedCopy (resultOf response))))
  /\ (t1 + CACHE_TTL_MS < t2 ->
      snd (executeCommand t2 commandId' command' c2) = Awaiting commandId'
      /\ emitted (fst (executeCommand t2 commandId' command' c2))
         = emitted c2 ++ [(commandId', command')]).
Proof.
  intros Hconn Hsock Hup Hcacheable Hmiss Hid Hok Hkey. cbv zeta.
  pose proof (getCacheKey_cacheable command Hcacheable) as Hne.
  assert (Hfalsy : falsy (getCacheKey command) = false)
    by (destruct (getCacheKey command); [congruence|reflexivity]).
  assert (E1 : executeCommand t0 commandId command c
               = (set_emitted (emitted c ++ [(commandId, command)])
                    (set_pendingCommands
                       (<[commandId := {| pendingCommand := command;
                                          pendingCacheKey := getCacheKey command;
                                          timeoutAt := t0 + commandTimeout c |}]>
                          (pendingCommands c)) c),
                  Awaiting commandId)).
  { unfold executeCommand. rewrite Hconn, Hsock, Hmiss. reflexivity. }
  rewrite E1. cbn [fst snd].
  split; [reflexivity|]. split; [reflexivity|].
  set (c1 := set_emitted _ _).
  assert (E2 : handleCommandResponse t1 response c1
               = (set_cache
                    (<[lit "workspace:cache:" ++ getCacheKey command
                       := (resultOf response, t1 + CACHE_TTL_MS)]> (cache c))
                    (set_pendingCommands
                       (delete commandId (pendingCommands c1)) c1),
                  Some (Returns (resultOf response)))).
  { unfold handleCommandResponse. rewrite Hid.
    unfold c1 at 1. cbn [pendingCommands set_emitted set_pendingCommands].
    rewrite lookup_insert_eq, Hok. cbn [pendingCommand pendingCacheKey success andb].
    rewrite Hcacheable. unfold setCache. rewrite Hfalsy.
    cbn [cacheUp set_pendingCommands set_emitted c1]. unfold c1. cbn. rewrite Hup.
    cbn. reflexivity. }
  rewrite E2. cbn [fst snd].
  split; [reflexivity|].
  split; [cbn; apply lookup_delete_eq|].
  set (c2 := set_cache _ _).
  assert (Hconn2 : isConnected c2 = true) by exact Hconn.
  assert (Hsock2 : socket c2 = true) by exact Hsock.
  assert (Hlook : cache c2 !! (lit "workspace:cache:" ++ getCacheKey command')
                  = Some (resultOf response, t1 + CACHE_TTL_MS)).
  { rewrite Hkey. unfold c2. cbn [cache set_cache]. apply lookup_insert_eq. }
  assert (Hget : getFromCache t2 (getCacheKey command') c2
                 = if t2 <? t1 + CACHE_TTL_MS
                   then Some (cachedCopy (resultOf response)) else None).
  { unfold getFromCache. rewrite Hlook, Hkey, Hfalsy.
    assert (cacheUp c2 = true) as -> by exact Hup. cbn [negb].
    destruct (t2 <? t1 + CACHE_TTL_MS); reflexivity. }
  split.
  - intros Hfresh. unfold executeCommand. rewrite Hconn2, Hsock2, Hget. cbn [negb].
    assert ((t2 <? t1 + CACHE_TTL_MS) = true) as -> by (apply Z.ltb_lt; lia).
    reflexivity.
  - intros Hstale. unfold executeCommand. rewrite Hconn2, Hsock2, Hget. cbn [negb].
    assert ((t2 <? t1 + CACHE_TTL_MS) = false) as -> by (apply Z.ltb_ge; lia).
    split; reflexivity.
Qed.

(** X20: A pending command is settled at most once.  The response to a pending
    command settles it and leaves the other pending commands alone; after
    that, and likewise after the command has timed out or the client has
    disconnected, a response with its id is ignored: nothing is settled and
    nothing is written to the cache. *)
Theorem pending_command_settled_once
        (now now' : Z) (response response' : CommandResponse) (c : t) :
  responseId response' = responseId response ->
  let c1 := fst (handleCommandResponse now response c) in
  (forall other, other <> responseId response ->
                 pendingCommands c1 !! other = pendingCommands c !! other)
  /\ handleCommandResponse now' response' c1 = (c1, None)
  /\ handleCommandResponse now' response' (commandTimedOut (responseId response) c)
     = (commandTimedOut (responseId response) c, None)
  /\ handleCommandResponse now' response' (disconnect c) = (disconnect c, None)
  /\ pendingCommands (disconnect c) = ∅
  /\ isConnected (disconnect c) = false.
Proof.
  intros Hid. cbv zeta.
  assert (Hgone : pendingCommands (fst (handleCommandResponse now response c))
                    !! responseId response = None
                  /\ forall other, other <> responseId response ->
                       pendingCommands (fst (handleCommandResponse now response c)) !! other
                       = pendingCommands c !! other).
  { unfold handleCommandResponse.
    destruct (pendingCommands c !! responseId response) as [pending|] eqn:Ep.
    - assert (Hp : forall c0 : t,
                pendingCommands
                  (if success {| success := responseSuccess response;
                                 data := responseData response; error := None;
                                 executionTime := responseExecutionTime response;
                                 fromCache := false |}
                      && shouldCache (pendingCommand pending)
                   then setCache now (pendingCacheKey pending)
                          {| success := responseSuccess response;
                             data := responseData response; error := None;
                             executionTime := responseExecutionTime response;
                             fromCache := false |} c0
                   else c0)
                = pendingCommands c0).
      { intros c0. destruct (_ && _); [|reflexivity].
        unfold setCache. destruct (falsy _); [reflexivity|].
        destruct (negb (cacheUp c0)); reflexivity. }
      destruct (responseSuccess response); cbn [fst].
      + rewrite Hp. cbn. split; [apply lookup_delete_eq|].
        intros other Hne. apply lookup_delete_ne. congruence.
      + cbn. split; [apply lookup_delete_eq|].
        intros other Hne. apply lookup_delete_ne. congruence.
    - cbn [fst]. split; [exact Ep|reflexivity]. }
  destruct Hgone as [Hgone Hothers].
  split; [exact Hothers|]. split.
  { unfold handleCommandResponse at 1. rewrite Hid, Hgone. reflexivity. }
  split.
  { unfold handleCommandResponse, commandTimedOut. cbn [pendingCommands set_pendingCommands].
    rewrite Hid, lookup_delete_eq. reflexivity. }
  split.
  { unfold handleCommandResponse, disconnect, rejectAllPendingCommands.
    cbn [pendingCommands set_pendingCommands]. rewrite lookup_empty. reflexivity. }
  split; reflexivity.
Qed.

End ClientFacts.

(** At work: a file is read, the answer arrives after 40 ms, and the same
    file is asked for again one second later. *)
Lemma answered_read_is_served_from_cache_witness :
  let c := {| WorkspaceManagerClient.socket := true;
              WorkspaceManagerClient.connectionState := WorkspaceManagerClient.CONNECTED;
              WorkspaceManagerClient.commandTimeout := 30000;
              WorkspaceManagerClient.pendingCommands := ∅;
              WorkspaceManagerClient.cache := ∅;
              WorkspaceManagerClient.cacheUp := true;
              WorkspaceManagerClient.emitted := [] |} in
  let command := FileReadCommand (lit "read a.ts") (lit "a.ts") in
  let response := {| WorkspaceManagerClient.responseId := lit "cmd_1";
                     WorkspaceManagerClient.responseSuccess := true;
                     WorkspaceManagerClient.responseData := Some (lit "export {}");
                     WorkspaceManagerClient.responseError := None;
                     WorkspaceManagerClient.responseExecutionTime := 12 |} in
  let c2 := fst (WorkspaceManagerClient.handleCommandResponse 40 response
                   (fst (WorkspaceManagerClient.executeCommand 0 (lit "cmd_1") command c))) in
  WorkspaceManagerClient.getFromCache 0 (WorkspaceManagerClient.getCacheKey command) c = None
  /\ WorkspaceManagerClient.executeCommand 1040 (lit "cmd_2")
       (FileReadCommand (lit "cat a.ts") (lit "a.ts")) c2
     = (c2, WorkspaceManagerClient.Returned (cachedCopy (resultOf response))).
Proof.
  intros c command response c2.
  assert (Hmiss : WorkspaceManagerClient.getFromCache 0
                    (WorkspaceManagerClient.getCacheKey command) c = None)
    by reflexivity.
  split; [exact Hmiss|].
  destruct (answered_read_is_served_from_cache 0 40 1040 (lit "cmd_1") (lit "cmd_2")
              command (FileReadCommand (lit "cat a.ts") (lit "a.ts")) response c
              eq_refl eq_refl eq_refl eq_refl Hmiss eq_refl eq_refl eq_refl)
    as (_ & _ & _ & _ & Hhit & _).
  apply Hhit. unfold WorkspaceManagerClient.CACHE_TTL_MS. lia.
Defined.

(** At work: the response to a command that was never sent. *)
Lemma pending_command_settled_once_witness :
  let c := {| WorkspaceManagerClient.socket := true;
              WorkspaceManagerClient.connectionState := WorkspaceManagerClient.CONNECTED;
              WorkspaceManagerClient.commandTimeout := 30000;
              WorkspaceManagerClient.pendingCommands := ∅;
              WorkspaceManagerClient.cache := ∅;
              WorkspaceManagerClient.cacheUp := true;
              WorkspaceManagerClient.emitted := [] |} in
  let response := {| WorkspaceManagerClient.responseId := lit "cmd_1";
                     WorkspaceManagerClient.responseSuccess := true;
                     WorkspaceManagerClient.responseData := None;
                     WorkspaceManagerClient.responseError := None;
                     WorkspaceManagerClient.responseExecutionTime := 12 |} in
  WorkspaceManagerClient.handleCommandResponse 5 response
    (WorkspaceManagerClient.disconnect c)
  = (WorkspaceManagerClient.disconnect c, None).
Proof.
  intros c response.
  destruct (pending_command_settled_once 0 5 response response c eq_refl)
    as (_ & _ & _ & H & _).
  exact H.
Defined.

(* ===================================================================== *)
(** * Further properties: the settings of the extension                   *)
(* ===================================================================== *)

Section SettingsFacts.
Import Regex SettingsValidator.

Lemma arrayIncludes_In (array : list str) (x : str) :
  arrayIncludes array x = true <-> In x array.
Proof.
  unfold arrayIncludes, sameString. rewrite existsb_exists. split.
  - intros (y & Hin & Hy). apply bool_decide_eq_true in Hy. subst y. exact Hin.
  - intros Hin. exists x. split; [exact Hin|]. apply bool_decide_eq_true. reflexivity.
Qed.

Lemma checkTypes_errors (types : list str) :
  forall errors,
    checkTypes types errors
    = errors ++ List.map INVALID_TYPE
                  (List.filter (fun ty => negb (arrayIncludes validTypes ty)) types).
Proof.
  induction types as [|ty types IH]; intros errors; cbn [checkTypes List.filter].
  - cbn. rewrite app_nil_r. reflexivity.
  - rewrite IH. destruct (negb (arrayIncludes validTypes ty)); [|reflexivity].
    cbn [List.map]. rewrite <- app_assoc. reflexivity.
Qed.

Lemma checkDirectories_errors (dirs : list str) :
  forall errors,
    checkDirectories dirs errors = errors ++ checkDirectories dirs [].
Proof.
  induction dirs as [|dir rest IH]; intros errors; cbn [checkDirectories].
  - rewrite app_nil_r. reflexivity.
  - destruct (falsy dir || falsy (trim dir)); [reflexivity|].
    destruct (includes dir (lit "..")); [reflexivity|].
    destruct (startsWith dir (lit "/") || test drivePrefix dir); [reflexivity|].
    apply IH.
Qed.

Lemma checkDirectories_cons (dir : str) (rest : list str) :
  checkDirectories (dir :: rest) []
  = match refusal dir with
    | Some e => [e]
    | None => checkDirectories rest []
    end.
Proof.
  cbn [checkDirectories]. unfold refusal.
  destruct (falsy dir || falsy (trim dir)); [reflexivity|].
  destruct (includes dir (lit "..")); [reflexivity|].
  destruct (startsWith dir (lit "/") || test drivePrefix dir); reflexivity.
Qed.

Lemma test_drivePrefix (dir : str) :
  test drivePrefix dir = true
  <-> exists l rest, dir = l :: 58 :: rest /\ isDriveLetter l.
Proof.
  split.
  - intros H. apply test_anchored in H as [m H].
    destruct dir as [|l [|c rest]]; cbn -[Z.eqb Z.leb] in H;
      repeat match type of H with
             | (if ?b then _ else _) = _ => destruct b eqn:?; [|discriminate]
             | None = Some _ => discriminate
             end.
    exists l, rest. assert (c = 58) as -> by lia.
    split; [reflexivity|]. unfold isDriveLetter. lia.
  - intros (l & rest & -> & Hl).
    assert ((97 <=? l) && (l <=? 122) || (65 <=? l) && (l <=? 90) = true) as Hl'
      by (destruct Hl; lia).
    unfold test, exec, drivePrefix, letter, chr.
    cbn [execFrom run seq Nat.eqb]. rewrite Hl', Z.eqb_refl. reflexivity.
Qed.

Lemma refusal_none (dir : str) : refusal dir = None <-> relativeDirectory dir.
Proof.
  unfold refusal, relativeDirectory.
  assert (Hblank : falsy dir || falsy (trim dir) = falsy (trim dir)).
  { destruct dir; [reflexivity|]. reflexivity. }
  rewrite Hblank.
  destruct (trim dir) as [|x t] eqn:Et; cbn [falsy].
  { split; [discriminate|]. intros [H _]. congruence. }
  destruct (includes dir (lit "..")) eqn:Ei.
  { split; [discriminate|]. intros (_ & H & _). exfalso. apply H.
    apply includes_inv in Ei as (pre & post & ->). exists pre, post. reflexivity. }
  destruct (startsWith dir (lit "/")) eqn:Es.
  { split; [discriminate|]. intros (_ & _ & H & _). exfalso. apply H.
    apply startsWith_inv in Es as [post ->]. exists post. reflexivity. }
  destruct (test drivePrefix dir) eqn:Ed.
  { split; [discriminate|]. intros (_ & _ & _ & H). exfalso. apply H.
    apply test_drivePrefix. exact Ed. }
  cbn. split; [|reflexivity]. intros _.
  split; [discriminate|]. split.
  - intros (pre & post & ->). rewrite includes_occurrence in Ei. discriminate.
  - split.
    + intros [rest ->]. cbn in Es. discriminate.
    + intros H. apply test_drivePrefix in H. congruence.
Qed.

Lemma checkDirectories_none (dirs : list str) :
  checkDirectories dirs [] = [] <-> Forall relativeDirectory dirs.
Proof.
  induction dirs as [|dir rest IH].
  - split; [constructor|reflexivity].
  - rewrite checkDirectories_cons, Forall_cons.
    destruct (refusal dir) as [e|] eqn:Er.
    + split; [discriminate|]. intros [H _]. apply refusal_none in H. congruence.
    + rewrite IH. apply refusal_none in Er. tauto.
Qed.

Lemma setSize_le (array : list str) : (setSize array <= length array)%nat.
Proof.
  unfold setSize. induction array as [|x array IH]; cbn; [lia|].
  destruct (decide_rel elem_of x array); cbn; lia.
Qed.

Lemma setSize_NoDup (array : list str) :
  setSize array = length array <-> NoDup array.
Proof.
  induction array as [|x array IH].
  - split; [constructor|reflexivity].
  - rewrite NoDup_cons. pose proof (setSize_le array) as Hle.
    unfold setSize in *. cbn [remove_dups length].
    destruct (decide_rel elem_of x array) as [Hin|Hnot].
    + split; [lia|]. intros [H _]. contradiction.
    + cbn [length]. split.
      * intros H. split; [exact Hnot|]. apply IH. lia.
      * intros [_ H]. apply IH in H. lia.
Qed.

Lemma validate_errors (settings : SettingsData) :
  errors (validate settings)
  = (if notificationEnabled settings
        && Nat.eqb (length (notificationTypes settings)) 0
     then [AT_LEAST_ONE_TYPE] else [])
    ++ List.map INVALID_TYPE
         (List.filter (fun ty => negb (arrayIncludes validTypes ty))
                      (notificationTypes settings))
    ++ checkDirectories (accessibleDirectories settings) []
    ++ (if Nat.eqb (setSize (accessibleDirectories settings))
                   (length (accessibleDirectories settings))
        then [] else [DUPLICATES]).
Proof.
  unfold validate. cbv zeta. cbn [errors app].
  rewrite checkTypes_errors.
  rewrite (checkDirectories_errors (accessibleDirectories settings) (_ ++ _)).
  destruct (Nat.eqb (setSize _) _); cbn [negb];
    rewrite <- ?app_assoc, ?app_nil_r; reflexivity.
Qed.

(** X21: The settings that [validate] accepts.  Settings are valid if and only
    if a notification type is selected when notifications are enabled,
    every selected type is one of the four valid types, every accessible
    directory is relative (not blank, no two dots in a row, no leading
    slash, no drive letter) and no directory is listed twice. *)
Theorem settings_valid_iff (settings : SettingsData) :
  valid (validate settings) = true
  <-> (notificationEnabled settings = true -> notificationTypes settings <> [])
      /\ Forall (fun ty => In ty validTypes) (notificationTypes settings)
      /\ Forall relativeDirectory (accessibleDirectories settings)
      /\ NoDup (accessibleDirectories settings).
Proof.
  assert (Hvalid : valid (validate settings) = true <-> errors (validate settings) = []).
  { unfold validate. cbv zeta. cbn [valid errors].
    match goal with |- Nat.eqb (length ?l) 0 = true <-> _ => destruct l end;
      split; (reflexivity || discriminate). }
  rewrite Hvalid, validate_errors.
  rewrite <- checkDirectories_none, <- setSize_NoDup.
  assert (Htypes :
            List.map INVALID_TYPE
              (List.filter (fun ty => negb (arrayIncludes validTypes ty))
                           (notificationTypes settings)) = []
            <-> Forall (fun ty => In ty validTypes) (notificationTypes settings)).
  { induction (notificationTypes settings) as [|ty types IH].
    - split; [constructor|reflexivity].
    - cbn [List.filter]. rewrite Forall_cons, <- IH, <- arrayIncludes_In.
      destruct (arrayIncludes validTypes ty); cbn; split;
        try discriminate; try tauto.
      intros [H _]. discriminate. }
  rewrite <- Htypes.
  assert (Hfirst :
            (if notificationEnabled settings
                && Nat.eqb (length (notificationTypes settings)) 0
             then [AT_LEAST_ONE_TYPE] else []) = []
            <-> (notificationEnabled settings = true -> notificationTypes settings <> [])).
  { destruct (notificationEnabled settings);
      destruct (notificationTypes settings); cbn; split;
        try discriminate; try congruence; intros H; try reflexivity.
    exfalso. apply H; reflexivity. }
  assert (Hlast :
            (if Nat.eqb (setSize (accessibleDirectories settings))
                        (length (accessibleDirectories settings))
             then [] else [DUPLICATES]) = []
            <-> setSize (accessibleDirectories settings)
                = length (accessibleDirectories settings)).
  { destruct (Nat.eqb_spec (setSize (accessibleDirectories settings))
                (length (accessibleDirectories settings))); split;
      try discriminate; try congruence; reflexivity. }
  rewrite <- Hfirst, <- Hlast.
  repeat rewrite app_nil. tauto.
Qed.

End SettingsFacts.

Section SanitizeFacts.
Import Regex SettingsValidator.

Lemma filterFrom_In (p : str -> Z -> bool) (array : list str) :
  forall i x, In x (filterFrom p array i) -> In x array.
Proof.
  induction array as [|y rest IH]; intros i x H; cbn [filterFrom] in H; [exact H|].
  destruct (p y i).
  - destruct H as [->|H]; [left; reflexivity|right; eapply IH; exact H].
  - right. eapply IH. exact H.
Qed.

(** Keeping first occurrences leaves no duplicate. *)
Lemma filterFrom_first (self array : list str) :
  forall i,
    NoDup (filterFrom (fun dir index => indexOf self dir =? index) array i)
    /\ forall x, In x (filterFrom (fun dir index => indexOf self dir =? index) array i) ->
                 i <= indexOf self x.
Proof.
  induction array as [|y rest IH]; intros i; cbn [filterFrom].
  - split; [constructor|intros x []].
  - destruct (IH (i + 1)) as [Hnd Hlow].
    destruct (indexOf self y =? i) eqn:Ey.
    + apply Z.eqb_eq in Ey. split.
      * apply NoDup_cons. split; [|exact Hnd].
        intros Hin. apply list_elem_of_In, Hlow in Hin. lia.
      * intros x [<-|Hin]; [lia|]. apply Hlow in Hin. lia.
    + split; [exact Hnd|]. intros x Hin. apply Hlow in Hin. lia.
Qed.

Lemma firstOccurrences_NoDup (self : list str) : NoDup (firstOccurrences self).
Proof. apply (filterFrom_first self self 0). Qed.

Lemma indexOfFrom_first (pre rest : list str) (x : str) :
  forall i, ~ In x pre -> indexOfFrom (pre ++ x :: rest) x i = i + Z.of_nat (length pre).
Proof.
  induction pre as [|y pre IH]; intros i Hnot; cbn [app indexOfFrom length].
  - unfold sameString. rewrite bool_decide_eq_true_2 by reflexivity. lia.
  - unfold sameString. rewrite bool_decide_eq_false_2.
    + rewrite IH; [lia|]. intros H. apply Hnot. right. exact H.
    + intros ->. apply Hnot. left. reflexivity.
Qed.

Lemma filterFrom_NoDup (suffix : list str) :
  forall pre,
    NoDup (pre ++ suffix) ->
    filterFrom (fun dir index => indexOf (pre ++ suffix) dir =? index) suffix
               (Z.of_nat (length pre))
    = suffix.
Proof.
  induction suffix as [|x rest IH]; intros pre Hnd; cbn [filterFrom]; [reflexivity|].
  assert (Hnot : ~ In x pre).
  { apply NoDup_app in Hnd as (_ & Hdisj & _). intros Hin.
    apply (Hdisj x); [apply list_elem_of_In; exact Hin|]. left. }
  unfold indexOf at 1. rewrite indexOfFrom_first by exact Hnot.
  rewrite Z.add_0_l, Z.eqb_refl. f_equal.
  specialize (IH (pre ++ [x])). rewrite <- app_assoc in IH. cbn [app] in IH.
  rewrite length_app in IH. cbn [length] in IH.
  replace (Z.of_nat (length pre) + 1) with (Z.of_nat (length pre + 1)) by lia.
  apply IH. exact Hnd.
Qed.

Lemma firstOccurrences_fixed (self : list str) :
  NoDup self -> firstOccurrences self = self.
Proof. intros H. apply (filterFrom_NoDup self []). exact H. Qed.

Lemma filter_fixed {A : Type} (p : A -> bool) (l : list A) :
  Forall (fun x => p x = true) l -> List.filter p l = l.
Proof.
  induction 1 as [|x l Hx _ IH]; [reflexivity|].
  cbn. rewrite Hx, IH. reflexivity.
Qed.

Lemma filter_kept {A : Type} (p : A -> bool) (l : list A) :
  Forall (fun x => p x = true) (List.filter p l).
Proof.
  induction l as [|x l IH]; cbn; [constructor|].
  destruct (p x) eqn:Hx; [constructor; assumption|exact IH].
Qed.

Lemma map_fixed {A : Type} (f : A -> A) (l : list A) :
  Forall (fun x => f x = x) l -> List.map f l = l.
Proof.
  induction 1 as [|x l Hx _ IH]; [reflexivity|].
  cbn. rewrite Hx, IH. reflexivity.
Qed.

(** What [sanitize] leaves of the directories: trimmed, not empty, free
    of two dots in a row, and without duplicates. *)
Lemma sanitize_directories (settings : SettingsData) :
  let dirs := accessibleDirectories (sanitize settings) in
  Forall (fun dir => trim dir = dir /\ dir <> [] /\ includes dir (lit "..") = false) dirs
  /\ NoDup dirs.
Proof.
  cbv zeta. cbn [sanitize accessibleDirectories]. split; [|apply firstOccurrences_NoDup].
  apply Forall_forall. intros dir Hin. apply list_elem_of_In in Hin.
  apply filterFrom_In in Hin. apply filter_In in Hin as [Hin Hq].
  apply in_map_iff in Hin as (d & <- & _).
  apply andb_true_iff in Hq as [Hne Hdots].
  split; [apply trim_trim|]. split.
  - intros E. rewrite E in Hne. discriminate.
  - destruct (includes (trim d) (lit "..")); [discriminate|reflexivity].
Qed.

Lemma checkDirectories_sanitized (dirs : list str) :
  Forall (fun dir => trim dir = dir /\ dir <> [] /\ includes dir (lit "..") = false) dirs ->
  checkDirectories dirs [] = [] \/ checkDirectories dirs [] = [NOT_RELATIVE].
Proof.
  induction 1 as [|dir rest (Ht & Hne & Hd) _ IH]; [left; reflexivity|].
  rewrite checkDirectories_cons. unfold refusal. rewrite Ht, Hd.
  destruct dir as [|x dir]; [congruence|]. cbn [falsy orb].
  destruct (startsWith (x :: dir) (lit "/") || test drivePrefix (x :: dir));
    [right; reflexivity|exact IH].
Qed.

Lemma sanitize_fixed (s : SettingsData) :
  Forall (fun ty => arrayIncludes validTypes ty = true) (notificationTypes s) ->
  Forall (fun dir => trim dir = dir /\ dir <> [] /\ includes dir (lit "..") = false)
         (accessibleDirectories s) ->
  NoDup (accessibleDirectories s) ->
  sanitize s = s.
Proof.
  destruct s as [enabled types dirs readOnly]. cbn. intros Htypes Hdirs Hnd.
  unfold sanitize. cbn. f_equal.
  - apply filter_fixed. exact Htypes.
  - rewrite map_fixed
      by (eapply Forall_impl; [exact Hdirs|]; intros d (H & _); exact H).
    rewrite filter_fixed.
    + apply firstOccurrences_fixed. exact Hnd.
    + eapply Forall_impl; [exact Hdirs|]. intros d (_ & Hne & Hd).
      rewrite Hd. destruct d; [congruence|reflexivity].
Qed.

(** X22: Sanitized settings.  [sanitize] is idempotent, and what it returns
    can be refused by [validate] for two reasons only: no notification
    type is left while notifications are enabled, or a directory is not
    relative.  No invalid type, no blank directory, no directory with two
    dots in a row and no duplicate is left. *)
Theorem sanitized_settings (settings : SettingsData) :
  let s := sanitize settings in
  sanitize s = s
  /\ forall e, In e (errors (validate s)) -> e = AT_LEAST_ONE_TYPE \/ e = NOT_RELATIVE.
Proof.
  cbv zeta. destruct (sanitize_directories settings) as [Hdirs Hnd]. cbv zeta in Hdirs, Hnd.
  split.
  - apply sanitize_fixed; [|exact Hdirs|exact Hnd].
    cbn [sanitize notificationTypes]. apply filter_kept.
  - intros e. rewrite validate_errors.
    assert (Htypes :
              List.map INVALID_TYPE
                (List.filter (fun ty => negb (arrayIncludes validTypes ty))
                             (notificationTypes (sanitize settings))) = []).
    { cbn [sanitize notificationTypes].
      induction (notificationTypes settings) as [|ty types IH]; [reflexivity|].
      cbn [List.filter]. destruct (arrayIncludes validTypes ty) eqn:Ety; [|exact IH].
      cbn [List.filter]. rewrite Ety. exact IH. }
    rewrite Htypes. cbn [app].
    apply setSize_NoDup in Hnd. rewrite Hnd, Nat.eqb_refl, app_nil_r.
    intros Hin. apply in_app_or in Hin as [Hin|Hin].
    + destruct (_ && _); [|destruct Hin].
      destruct Hin as [<-|[]]. left. reflexivity.
    + destruct (checkDirectories_sanitized _ Hdirs) as [E|E]; rewrite E in Hin.
      * destruct Hin.
      * destruct Hin as [<-|[]]. right. reflexivity.
Qed.

End SanitizeFacts.

(* ===================================================================== *)
(** * Further properties: the rate limit                                  *)
(* ===================================================================== *)

Section RateLimitFacts.
Import RateLimit.

Variable MAX_REQUESTS : Z.
Variable id : str.
Hypothesis id_not_empty : id <> [].








End RateLimitFacts.



(* ===================================================================== *)
(** * Further properties: a message that fits                             *)
(* ===================================================================== *)

Section ShortMessages.
Import WhatsAppSender.

Variable client : list attempt -> str -> str -> bool.

Lemma sendSingleMessage_attempts (phone text : str) (maxAttempts : nat) :
  forall log,
    exists r : nat,
      (r <= maxAttempts)%nat
      /\ fst (sendSingleMessage client phone text maxAttempts log)
         = log ++ repeat (phone, text) r
      /\ (forall j, (S j < r)%nat ->
                    client (log ++ repeat (phone, text) j) phone text = false)
      /\ if snd (sendSingleMessage client phone text maxAttempts log)
         then exists j, r = S j
                        /\ client (log ++ repeat (phone, text) j) phone text = true
         else r = maxAttempts
              /\ forall j, (j < r)%nat ->
                           client (log ++ repeat (phone, text) j) phone text = false.
Proof.
  induction maxAttempts as [|k IH]; intros log.
  - exists 0%nat. cbn. rewrite app_nil_r.
    split; [lia|]. split; [reflexivity|]. split; [intros; lia|].
    split; [reflexivity|intros; lia].
  - cbn [sendSingleMessage]. cbv zeta.
    destruct (client log phone text) eqn:Ec.
    + exists 1%nat. cbn [fst snd repeat].
      split; [lia|]. split; [reflexivity|]. split; [intros; lia|].
      exists 0%nat. cbn. rewrite app_nil_r. auto.
    + destruct (IH (log ++ [(phone, text)])) as (r & Hr & Hlog & Hearlier & Hlast).
      assert (Hshift : forall j,
                 (log ++ [(phone, text)]) ++ repeat (phone, text) j
                 = log ++ repeat (phone, text) (S j))
        by (intros j; rewrite <- app_assoc; reflexivity).
      exists (S r). split; [lia|]. split; [rewrite Hlog; apply Hshift|].
      split.
      * intros [|j] Hj; [cbn; rewrite app_nil_r; exact Ec|].
        rewrite <- Hshift. apply Hearlier. lia.
      * destruct (snd (sendSingleMessage client phone text k (log ++ [(phone, text)]))).
        -- destruct Hlast as (j & -> & Hj). exists (S j).
           split; [reflexivity|]. rewrite <- Hshift. exact Hj.
        -- destruct Hlast as [-> Hall]. split; [reflexivity|].
           intros [|j] Hj; [cbn; rewrite app_nil_r; exact Ec|].
           rewrite <- Hshift. apply Hall. lia.
Qed.

(** X14: A message that fits the limit is handed to the client as it is, again
    and again until an attempt succeeds or the attempts are used up: the
    number of attempts is at most [maxRetries] (one without [retry]),
    every attempt but the last failed, and the answer tells whether the
    last one succeeded.  With no attempt allowed nothing is tried and the
    answer is [false]. *)
Theorem short_message_is_retried
        (phone message : str) (retry : bool) (maxRetries : nat) (log : list attempt) :
  len message <= MAX_MESSAGE_LENGTH ->
  let maxAttempts := if retry then maxRetries else 1%nat in
  exists (r : nat) (ok : bool),
    sendMessage client phone message retry maxRetries log
    = Some (log ++ repeat (phone, message) r, ok)
    /\ (r <= maxAttempts)%nat
    /\ (forall j, (S j < r)%nat ->
                  client (log ++ repeat (phone, message) j) phone message = false)
    /\ if ok
       then exists j, r = S j
                      /\ client (log ++ repeat (phone, message) j) phone message = true
       else r = maxAttempts
            /\ forall j, (j < r)%nat ->
                         client (log ++ repeat (phone, message) j) phone message = false.
Proof.
  intros Hfit. cbv zeta. unfold sendMessage.
  assert ((len message <=? MAX_MESSAGE_LENGTH) = true) as -> by lia.
  destruct (sendSingleMessage_attempts phone message (if retry then maxRetries else 1%nat)
              log) as (r & Hr & Hlog & Hearlier & Hlast).
  exists r, (snd (sendSingleMessage client phone message
                    (if retry then maxRetries else 1%nat) log)).
  split; [rewrite <- Hlog; destruct (sendSingleMessage _ _ _ _ _); reflexivity|].
  split; [exact Hr|]. split; [exact Hearlier|exact Hlast].
Qed.

End ShortMessages.

(** At work: a client that fails once and then succeeds. *)
Lemma short_message_is_retried_witness :
  let client := fun (log : list WhatsAppSender.attempt) (_ _ : str) =>
                  (1 <=? length log)%nat in
  len (lit "ok") <= WhatsAppSender.MAX_MESSAGE_LENGTH
  /\ exists (r : nat) (ok : bool),
       WhatsAppSender.sendMessage client (lit "15550100") (lit "ok") true 3 []
       = Some (repeat (lit "15550100", lit "ok") r, ok).
Proof.
  intros client.
  assert (H : len (lit "ok") <= WhatsAppSender.MAX_MESSAGE_LENGTH)
    by (vm_compute; discriminate).
  split; [exact H|].
  destruct (short_message_is_retried client (lit "15550100") (lit "ok") true 3 [] H)
    as (r & ok & Hsend & _).
  exists r, ok. exact Hsend.
Defined.
